(** * VPK archiver of PhysicsFS: directory decoding

    A shallow embedding of [physfs_archiver_vpk.c] and the properties of its
    header validation, bounded string reader, directory walker and
    flat-record loader.

    The C functions are written in a small state monad with early return
    that mirrors the [BAIL] macros of the source: a statement either falls
    through to the next one ([Next]) or leaves the enclosing function with a
    value ([Return]).  The state [world] holds what the C code reaches
    through pointers: the stream behind [io], the thread's error code, the
    [claimed] out-parameter and the archives of the generic unpacking
    layer. *)

From Stdlib Require Import ZArith Lia Strings.Byte Strings.String.
From stdpp Require Import gmap list.

Open Scope Z_scope.

(** ** Bytes and fixed-width integers *)

#[global] Instance byte_eq_decision : EqDecision byte := byte_eq_dec.

(** The numeric value of an octet, [0 .. 255]. *)
Definition u8 (c : byte) : Z := Z.of_N (Byte.to_N c).

(** The bytes of a string literal, without terminator. *)
Definition bytes (s : string) : list byte := list_byte_of_string s.

(** Value of an unsigned integer object from its bytes, lowest address
    first: least significant byte first on a little-endian host, most
    significant first on a big-endian one. *)
Fixpoint le_Z (bs : list byte) : Z :=
  match bs with
  | [] => 0
  | b :: bs' => u8 b + 256 * le_Z bs'
  end.

Definition be_Z (bs : list byte) : Z := le_Z (rev bs).

(** Two's complement reading of a 16-bit pattern ([PHYSFS_sint16]). *)
Definition to_sint16 (x : Z) : Z := if x <? 32768 then x else x - 65536.

(** [#define VPK_SIG 0x55AA1234] *)
Definition VPK_SIG : Z := 0x55AA1234.

(** The error codes this file raises. *)
Inductive PHYSFS_ErrorCode :=
  | PHYSFS_ERR_UNSUPPORTED
  | PHYSFS_ERR_READ_ONLY
  | PHYSFS_ERR_CORRUPT.

(** ** The stream *)

(** Modelled from the spec: [PHYSFS_Io] is declared in [physfs_internal.h],
    which is not part of the sources; the spec gives it as a byte stream
    with a read cursor, [readExact(buffer, n)] and [seek(absoluteOffset)],
    each answering success or failure, a short read being a failure. *)
Record PHYSFS_Io := mkIo { io_data : list byte; io_pos : nat }.

(** The bytes from the cursor on. *)
Definition io_rest (s : PHYSFS_Io) : list byte := drop (io_pos s) (io_data s).

Definition io_advance (n : nat) (s : PHYSFS_Io) : PHYSFS_Io :=
  mkIo (io_data s) (io_pos s + n)%nat.

(** ** The generic unpacking layer *)

(** Modelled from the spec: the entry registry of the unpacking layer
    ([UNPK_openArchive], [UNPK_addEntry], [UNPK_abandonArchive]) lives in
    [physfs_archiver_unpacked.c], not part of the sources.  The spec gives
    it as an opaque handle created before decoding, an operation that
    registers one resolved entry, and one that releases the handle.  An
    entry keeps the arguments [UNPK_addEntry] is called with; the name is
    the C string the [name] argument points to. *)
Record UNPKentry := mkEntry {
  e_name : list byte;
  e_isdir : Z;
  e_ctime : Z;
  e_mtime : Z;
  e_pos : Z;
  e_len : Z
}.

(** Pointers to archives: [None] is [NULL]. *)
Definition ptr := option nat.
Definition NULL : ptr := None.

(** ** Program state *)

Record world := mkWorld {
  w_io : PHYSFS_Io;                       (* the stream behind [io] *)
  w_err : option PHYSFS_ErrorCode;        (* last code set by a BAIL of this file *)
  w_claimed : Z;                          (* [*claimed] *)
  w_arcs : gmap nat (list UNPKentry)      (* live archives of the unpacking layer *)
}.

Definition set_io (s : PHYSFS_Io) (w : world) : world :=
  mkWorld s (w_err w) (w_claimed w) (w_arcs w).
Definition set_err (e : PHYSFS_ErrorCode) (w : world) : world :=
  mkWorld (w_io w) (Some e) (w_claimed w) (w_arcs w).
Definition set_claimed (c : Z) (w : world) : world :=
  mkWorld (w_io w) (w_err w) c (w_arcs w).
Definition set_arcs (m : gmap nat (list UNPKentry)) (w : world) : world :=
  mkWorld (w_io w) (w_err w) (w_claimed w) m.

(** ** Statements with early return *)

Inductive flow (R A : Type) :=
  | Next (a : A)        (* fall through to the next statement *)
  | Return (r : R).     (* leave the enclosing function with [r] *)
Arguments Next {R A} a.
Arguments Return {R A} r.

(** A statement; [None] is a loop that used up its iteration budget. *)
Definition C (R A : Type) : Type := world -> option (flow R A * world).

(** A C function returning [R]. *)
Definition fn (R : Type) : Type := world -> option (R * world).

Definition ret {R A} (a : A) : C R A := fun w => Some (Next a, w).
Definition return_ {R A} (r : R) : C R A := fun w => Some (Return r, w).

Definition bind {R A B} (c : C R A) (k : A -> C R B) : C R B :=
  fun w =>
    match c w with
    | Some (Next a, w') => k a w'
    | Some (Return r, w') => Some (Return r, w')
    | None => None
    end.

Notation "'let*' x ':=' c 'in' k" := (bind c (fun x => k))
  (at level 10, x name, c at level 100, k at level 200).
Notation "'let*' ' pat ':=' c 'in' k" :=
  (bind c (fun x => match x with pat => k end))
  (at level 10, pat pattern, c at level 100, k at level 200).
Notation "'exec' c 'in' k" := (bind c (fun _ => k))
  (at level 10, c at level 100, k at level 200).

(** The body of a function: falling off the end yields the value of the
    last statement. *)
Definition func {R} (body : C R R) : fn R :=
  fun w =>
    match body w with
    | Some (Next r, w') => Some (r, w')
    | Some (Return r, w') => Some (r, w')
    | None => None
    end.

(** A call inside a statement. *)
Definition call {R A} (f : fn A) : C R A :=
  fun w =>
    match f w with
    | Some (a, w') => Some (Next a, w')
    | None => None
    end.

(** [BAIL(e, r)]: set the error code and return [r]. *)
Definition BAIL {R A} (e : PHYSFS_ErrorCode) (r : R) : C R A :=
  fun w => Some (Return r, set_err e w).

(** [BAIL_IF(c, e, r)]. *)
Definition BAIL_IF {R} (c : bool) (e : PHYSFS_ErrorCode) (r : R) : C R unit :=
  fun w => if c then Some (Return r, set_err e w) else Some (Next tt, w).

(** [BAIL_IF_ERRPASS(c, r)]: return [r], leaving the error code as the
    callee left it. *)
Definition BAIL_IF_ERRPASS {R} (c : bool) (r : R) : C R unit :=
  fun w => if c then Some (Return r, w) else Some (Next tt, w).

(** [*claimed = v;] *)
Definition store_claimed {R} (v : Z) : C R unit :=
  fun w => Some (Next tt, set_claimed v w).

(** ** Stream primitives *)

(** [__PHYSFS_readAll(io, buf, len)]: the result is nonzero exactly when all
    [len] bytes were read; the second component is what was stored in
    [buf].  A short read consumes what is left of the stream. *)
Definition __PHYSFS_readAll {R} (len : nat) : C R (Z * list byte) :=
  fun w =>
    let s := w_io w in
    if decide (len <= length (io_rest s))%nat
    then Some (Next (1, take len (io_rest s)), set_io (io_advance len s) w)
    else Some (Next (0, io_rest s), set_io (io_advance (length (io_rest s)) s) w).

(** [io->seek(io, pos)]: positions inside the data or at its end succeed. *)
Definition io_seek {R} (pos : Z) : C R Z :=
  fun w =>
    let s := w_io w in
    if decide (0 <= pos <= Z.of_nat (length (io_data s)))
    then Some (Next 1, set_io (mkIo (io_data s) (Z.to_nat pos)) w)
    else Some (Next 0, w).

(** ** Registry primitives *)

(** [UNPK_openArchive(io, case_sensitive, only_usascii)]: a fresh handle
    with an empty registry.  Running out of memory is not modelled, so the
    answer is never [NULL]; the caller's test for it is kept. *)
Definition UNPK_openArchive {R} (case_sensitive only_usascii : Z) : C R ptr :=
  fun w =>
    let h := fresh (dom (w_arcs w)) in
    Some (Next (Some h), set_arcs (<[h := []]> (w_arcs w)) w).

(** The C string held by a buffer: the bytes before the first NUL. *)
Fixpoint cstr (buf : list byte) : list byte :=
  match buf with
  | [] => []
  | c :: buf' => if u8 c =? 0 then [] else c :: cstr buf'
  end.

(** [UNPK_addEntry(arc, name, isdir, ctime, mtime, pos, len)]: appends the
    entry to the registry of a live archive and answers a pointer to it,
    rendered here as the archive's handle; [NULL] when the archive is not
    live. *)
Definition UNPK_addEntry {R} (arc : nat) (name : list byte)
    (isdir ctime mtime pos len : Z) : C R ptr :=
  fun w =>
    match w_arcs w !! arc with
    | Some es =>
        Some (Next (Some arc),
              set_arcs (<[arc := es ++ [mkEntry (cstr name) isdir ctime mtime pos len]]>
                          (w_arcs w)) w)
    | None => Some (Next NULL, w)
    end.

(** [UNPK_abandonArchive(arc)]: releases the archive and its entries. *)
Definition UNPK_abandonArchive {R} (arc : nat) : C R unit :=
  fun w => Some (Next tt, set_arcs (delete arc (w_arcs w)) w).

Definition is_null (p : ptr) : bool :=
  match p with None => true | Some _ => false end.

(** ** [vpkReadString] *)

(** The [while (pos < maxlen)] loop; [n] is [maxlen - pos], the number of
    iterations the condition still admits.  The loop either returns from
    the function or falls out with the buffer as written so far. *)
Fixpoint vpkReadString_while (n pos : nat) (dest : list byte)
    : C (Z * list byte) (list byte) :=
  match n with
  | O => ret dest
  | S n' =>
      let* '(rc, buf) := __PHYSFS_readAll 1 in
      exec BAIL_IF_ERRPASS (rc =? 0) (0, dest) in
      let c := hd x00 buf in
      let dest := <[pos := c]> dest in
      let pos := S pos in
      if u8 c =? 0 then return_ (1, dest)
      else vpkReadString_while n' pos dest
  end.

(** [static int vpkReadString(PHYSFS_Io *io, char *dest, size_t maxlen)];
    the model returns the [int] together with the contents of [dest]. *)
Definition vpkReadString (dest : list byte) (maxlen : nat) : fn (Z * list byte) :=
  func (
    let pos := 0%nat in
    let* dest := vpkReadString_while maxlen pos dest in
    (* buffer wasn't big enough for read *)
    return_ (0, dest)).

(** ** Host byte order *)

(** The file reads integers straight into C objects and converts the header
    fields with [PHYSFS_swapULE32]; what an object holds after a raw read
    depends on the byte order of the host. *)
Class Host := { big_endian : bool }.

Section ByteOrder.
Context `{Host}.

(** The value of an unsigned integer object whose storage holds [bs]. *)
Definition host_Z (bs : list byte) : Z :=
  if big_endian then be_Z bs else le_Z bs.

(** Modelled from the spec: [PHYSFS_swapULE32] is defined in
    [physfs_byteorder.c], not part of the sources; it turns a 32-bit
    little-endian value into host order, so it reverses the four bytes on
    a big-endian host and is the identity on a little-endian one. *)
Definition PHYSFS_swap32 (x : Z) : Z :=
  (x mod 256) * 16777216 + (x / 256 mod 256) * 65536
  + (x / 65536 mod 256) * 256 + (x / 16777216 mod 256).

Definition PHYSFS_swapULE32 (x : Z) : Z :=
  if big_endian then PHYSFS_swap32 x else x.
End ByteOrder.

(** ** The tree-walking [vpkLoadEntries] (first definition in the file) *)

Module TreeWalk.

(** [struct vpk_entry] *)
Record vpk_entry := mk_vpk_entry {
  crc : Z;          (* PHYSFS_uint32 *)
  preload : Z;      (* PHYSFS_uint16 *)
  archive : Z;      (* PHYSFS_sint16 *)
  offset : Z;       (* PHYSFS_uint32 *)
  fsize : Z;        (* PHYSFS_uint32 size *)
  terminator : Z    (* PHYSFS_uint16 *)
}.

(** The automatic variables of the function. *)
Record locals := mk_locals {
  ext : list byte;      (* char ext[256] *)
  dir : list byte;      (* char dir[256] *)
  name : list byte;     (* char name[256] *)
  path : list byte;     (* char path[1024] *)
  entry : vpk_entry
}.

Definition set_ext b l := mk_locals b (dir l) (name l) (path l) (entry l).
Definition set_dir b l := mk_locals (ext l) b (name l) (path l) (entry l).
Definition set_name b l := mk_locals (ext l) (dir l) b (path l) (entry l).
Definition set_path b l := mk_locals (ext l) (dir l) (name l) b (entry l).
Definition set_entry e l := mk_locals (ext l) (dir l) (name l) (path l) e.

Definition set_crc v e :=
  mk_vpk_entry v (preload e) (archive e) (offset e) (fsize e) (terminator e).
Definition set_preload v e :=
  mk_vpk_entry (crc e) v (archive e) (offset e) (fsize e) (terminator e).
Definition set_archive v e :=
  mk_vpk_entry (crc e) (preload e) v (offset e) (fsize e) (terminator e).
Definition set_offset v e :=
  mk_vpk_entry (crc e) (preload e) (archive e) v (fsize e) (terminator e).
Definition set_fsize v e :=
  mk_vpk_entry (crc e) (preload e) (archive e) (offset e) v (terminator e).
Definition set_terminator v e :=
  mk_vpk_entry (crc e) (preload e) (archive e) (offset e) (fsize e) v.

(** The automatic variables are not initialised in C; every element the
    function reads has been written before, so the model starts them
    zeroed. *)
Definition locals0 : locals :=
  mk_locals (replicate 256 x00) (replicate 256 x00) (replicate 256 x00)
            (replicate 1024 x00) (mk_vpk_entry 0 0 0 0 0 0).

(** Writing [src] at the start of the array [dst]. *)
Definition store (src dst : list byte) : list byte :=
  src ++ drop (length src) dst.

(** [snprintf(path, cap, "%s%c%s%c%s", dir, '/', name, '.', ext)]: at
    most [cap - 1] characters and the terminator. *)
Definition snprintf_path (cap : nat) (dir name ext : list byte) : list byte :=
  take (cap - 1) (cstr dir ++ bytes "/" ++ cstr name ++ bytes "." ++ cstr ext)
  ++ [x00].

Section WithHost.
Context `{Host}.

(** The innermost [while (1)]: one iteration per budget unit; leaving
    the loop by [break] yields the variables. *)
Fixpoint name_while (fuel : nat) (l : locals) : C Z locals :=
  match fuel with
  | O => fun _ => None
  | S fuel' =>
      (* read name *)
      let* '(rc, buf) := call (vpkReadString (name l) 256) in
      let l := set_name buf l in
      exec BAIL_IF_ERRPASS (rc =? 0) 0 in
      if u8 (hd x00 (name l)) =? 0 then ret l
      else
        (* assemble full name *)
        let l := set_path
                   (store (snprintf_path 1024 (dir l) (name l) (ext l)) (path l)) l in
        (* read file info *)
        let* '(rc, b) := __PHYSFS_readAll 4 in
        exec BAIL_IF_ERRPASS (rc =? 0) 0 in
        let l := set_entry (set_crc (host_Z b) (entry l)) l in
        let* '(rc, b) := __PHYSFS_readAll 2 in
        exec BAIL_IF_ERRPASS (rc =? 0) 0 in
        let l := set_entry (set_preload (host_Z b) (entry l)) l in
        let* '(rc, b) := __PHYSFS_readAll 2 in
        exec BAIL_IF_ERRPASS (rc =? 0) 0 in
        let l := set_entry (set_archive (to_sint16 (host_Z b)) (entry l)) l in
        let* '(rc, b) := __PHYSFS_readAll 4 in
        exec BAIL_IF_ERRPASS (rc =? 0) 0 in
        let l := set_entry (set_offset (host_Z b) (entry l)) l in
        let* '(rc, b) := __PHYSFS_readAll 4 in
        exec BAIL_IF_ERRPASS (rc =? 0) 0 in
        let l := set_entry (set_fsize (host_Z b) (entry l)) l in
        let* '(rc, b) := __PHYSFS_readAll 2 in
        exec BAIL_IF_ERRPASS (rc =? 0) 0 in
        let l := set_entry (set_terminator (host_Z b) (entry l)) l in
        exec BAIL_IF (negb (terminator (entry l) =? 0xFFFF)) PHYSFS_ERR_CORRUPT 0 in
        name_while fuel' l
  end.

(** The middle [while (1)]. *)
Fixpoint dir_while (fuel : nat) (l : locals) : C Z locals :=
  match fuel with
  | O => fun _ => None
  | S fuel' =>
      (* read dir *)
      let* '(rc, buf) := call (vpkReadString (dir l) 256) in
      let l := set_dir buf l in
      exec BAIL_IF_ERRPASS (rc =? 0) 0 in
      if u8 (hd x00 (dir l)) =? 0 then ret l
      else
        let* l := name_while fuel' l in
        dir_while fuel' l
  end.

(** The outer [while (1)]. *)
Fixpoint ext_while (fuel : nat) (l : locals) : C Z locals :=
  match fuel with
  | O => fun _ => None
  | S fuel' =>
      (* read ext *)
      let* '(rc, buf) := call (vpkReadString (ext l) 256) in
      let l := set_ext buf l in
      exec BAIL_IF_ERRPASS (rc =? 0) 0 in
      if u8 (hd x00 (ext l)) =? 0 then ret l
      else
        let* l := dir_while fuel' l in
        ext_while fuel' l
  end.

(** [static int vpkLoadEntries(PHYSFS_Io *io, const PHYSFS_uint32 count,
    void *arc)].  Every iteration that does not leave its loop consumes
    at least one byte, so one more than the number of bytes left is
    budget enough (see [TreeWalk_total]). *)
Definition vpkLoadEntries (count : Z) (arc : nat) : fn Z :=
  fun w =>
    let fuel := S (length (io_rest (w_io w))) in
    func (
      let* _ := ext_while fuel locals0 in
      return_ 1) w.
End WithHost.

End TreeWalk.

(** ** The flat-record [vpkLoadEntries] (second definition in the file) *)

Module FlatRecord.
Section WithHost.
Context `{Host}.

(** [char name[56]] is filled by the read and handed to [UNPK_addEntry]
    as a C string, and nothing stores a terminator: where the 56 bytes
    hold no NUL the callee reads on behind the array.  What lies there
    is not decided by this file; [behind i] stands for the bytes behind
    [name] in iteration [i], as far as the callee reads them. *)
Variable behind : nat -> list byte.

(** The [for (i = 0; i < count; i++)] loop; [n] is [count - i]. *)
Fixpoint entries_for (n i : nat) (arc : nat) : C Z unit :=
  match n with
  | O => ret tt
  | S n' =>
      let* '(rc, name) := __PHYSFS_readAll 56 in
      exec BAIL_IF_ERRPASS (rc =? 0) 0 in
      let* '(rc, posb) := __PHYSFS_readAll 4 in
      exec BAIL_IF_ERRPASS (rc =? 0) 0 in
      let pos := host_Z posb in
      let* '(rc, sizeb) := __PHYSFS_readAll 4 in
      exec BAIL_IF_ERRPASS (rc =? 0) 0 in
      let size := host_Z sizeb in
      let size := PHYSFS_swapULE32 size in
      let pos := PHYSFS_swapULE32 pos in
      let* e := UNPK_addEntry arc (name ++ behind i) 0 (-1) (-1) pos size in
      exec BAIL_IF_ERRPASS (is_null e) 0 in
      entries_for n' (S i) arc
  end.

(** [static int vpkLoadEntries(PHYSFS_Io *io, const PHYSFS_uint32 count,
    void *arc)] *)
Definition vpkLoadEntries (count : Z) (arc : nat) : fn Z :=
  func (
    exec entries_for (Z.to_nat count) 0 arc in
    return_ 1).
End WithHost.
End FlatRecord.

(** ** [VPK_openArchive] *)

(** The file defines [vpkLoadEntries] twice; the call in [VPK_openArchive]
    can only mean one of them, and which is a matter of the build.  The
    flat-record definition runs with the bytes that lie behind its
    [name] array (see [FlatRecord.entries_for]). *)
Inductive LoadEntries :=
  | UseTreeWalk
  | UseFlatRecord (behind : nat -> list byte).

Section OpenArchive.
Context `{Host}.

Definition vpkLoadEntries (def : LoadEntries) : Z -> nat -> fn Z :=
  match def with
  | UseTreeWalk => TreeWalk.vpkLoadEntries
  | UseFlatRecord behind => FlatRecord.vpkLoadEntries behind
  end.

(** Lines 164 to 176 of the function: the seek to the directory table,
    the creation of the archive and the loading of its entries. *)
Definition VPK_openArchive_load (def : LoadEntries) (pos count : Z) : C ptr ptr :=
  let* ok := io_seek pos in
  exec BAIL_IF_ERRPASS (ok =? 0) NULL in
  let* unpkarc := UNPK_openArchive 1 0 in
  exec BAIL_IF_ERRPASS (is_null unpkarc) NULL in
  match unpkarc with
  | None => return_ NULL
  | Some arc =>
      let* rc := call (vpkLoadEntries def count arc) in
      if rc =? 0 then
        exec UNPK_abandonArchive arc in
        return_ NULL
      else
        return_ unpkarc
  end.

(** [static void *VPK_openArchive(PHYSFS_Io *io, const char *name,
    int forWriting, int *claimed)] *)
Definition VPK_openArchive (def : LoadEntries) (name : list byte)
    (forWriting : Z) : fn ptr :=
  func (
    exec BAIL_IF (negb (forWriting =? 0)) PHYSFS_ERR_READ_ONLY NULL in

    let* '(rc, b) := __PHYSFS_readAll 4 in
    exec BAIL_IF_ERRPASS (rc =? 0) NULL in
    let magic := host_Z b in
    let magic := PHYSFS_swapULE32 magic in
    if negb (magic =? VPK_SIG) then BAIL PHYSFS_ERR_UNSUPPORTED NULL
    else

    let* '(rc, b) := __PHYSFS_readAll 4 in
    exec BAIL_IF_ERRPASS (rc =? 0) NULL in
    let version := host_Z b in
    let version := PHYSFS_swapULE32 version in
    if negb (version =? 1) && negb (version =? 2)
    then BAIL PHYSFS_ERR_UNSUPPORTED NULL
    else

    exec store_claimed 1 in

    let* '(rc, b) := __PHYSFS_readAll 4 in
    exec BAIL_IF_ERRPASS (rc =? 0) NULL in
    let val := host_Z b in
    let pos := PHYSFS_swapULE32 val in   (* directory table offset. *)

    let* '(rc, b) := __PHYSFS_readAll 4 in
    exec BAIL_IF_ERRPASS (rc =? 0) NULL in
    let val := host_Z b in
    let count := PHYSFS_swapULE32 val in

    (* corrupted archive? *)
    exec BAIL_IF (negb (count mod 64 =? 0)) PHYSFS_ERR_CORRUPT NULL in
    let count := count / 64 in

    VPK_openArchive_load def pos count).
End OpenArchive.

(** The two byte orders. *)
Definition little_endian_host : Host := {| big_endian := false |}.
Definition big_endian_host : Host := {| big_endian := true |}.

(** ** Vocabulary of the properties *)

(** The number of bytes between the cursor and the end of the stream. *)
Definition bytes_left (w : world) : nat := length (io_rest (w_io w)).

(** [consumed n w]: the state [w] after the cursor moved [n] bytes on. *)
Definition consumed (n : nat) (w : world) : world :=
  set_io (io_advance n (w_io w)) w.

(** [dest] after [bs] was stored from index [pos] on. *)
Definition stored_at (pos : nat) (bs dest : list byte) : list byte :=
  take pos dest ++ bs ++ drop (pos + length bs) dest.

(** No NUL among the next [n] bytes of the stream (which may end before). *)
Definition no_nul_within (n : nat) (w : world) : Prop :=
  Forall (fun c => c <> x00) (take n (io_rest (w_io w))).

(** [wp c Q w]: run from [w], the statement [c] ends within its budget, in
    a flow and state that satisfy [Q]. *)
Definition wp {R A} (c : C R A) (Q : flow R A -> world -> Prop) (w : world) : Prop :=
  match c w with
  | Some (fl, w') => Q fl w'
  | None => False
  end.

(** [advanced w w']: from [w] to [w'] the cursor only moved forward over
    the same data; [*claimed] and the archives are as they were. *)
Record advanced (w w' : world) : Prop := mk_advanced {
  adv_data : io_data (w_io w') = io_data (w_io w);
  adv_pos : (io_pos (w_io w) <= io_pos (w_io w'))%nat;
  adv_claimed : w_claimed w' = w_claimed w;
  adv_arcs : w_arcs w' = w_arcs w
}.

(** What every loop of the walker guarantees: it only reads, and when it
    leaves the function it is with 0. *)
Definition walked (w : world) (fl : flow Z TreeWalk.locals) (w' : world) : Prop :=
  advanced w w' /\ match fl with Next _ => True | Return r => r = 0 end.

(** [loaded arc w w']: as [advanced], but the registry of [arc] may have
    changed. *)
Record loaded (arc : nat) (w w' : world) : Prop := mk_loaded {
  ld_data : io_data (w_io w') = io_data (w_io w);
  ld_pos : (io_pos (w_io w) <= io_pos (w_io w'))%nat;
  ld_claimed : w_claimed w' = w_claimed w;
  ld_arcs : delete arc (w_arcs w') = delete arc (w_arcs w)
}.

(** The state after [es] was appended to the registry of [arc]. *)
Definition registered (arc : nat) (es : list UNPKentry) (w : world) : world :=
  set_arcs (alter (fun old => old ++ es) arc (w_arcs w)) w.

(** The flat-record layout in the words of the file's header comment:
    [n] records of a 56-byte file name, a 4-byte file position and a 4-byte
    file length, the integers little-endian. *)
Fixpoint flat_records (n : nat) (bs : list byte) : list UNPKentry :=
  match n with
  | O => []
  | S n' =>
      mkEntry (cstr (take 56 bs)) 0 (-1) (-1)
              (le_Z (take 4 (drop 56 bs))) (le_Z (take 4 (drop 60 bs)))
      :: flat_records n' (drop 64 bs)
  end.

(** The entries of [n] records as the loop of the flat loader makes them
    from iteration [i] on: the name is the C string that starts in the
    name field and, where the field holds no NUL, runs on into
    [behind]. *)
Fixpoint flat_records_read (behind : nat -> list byte) (i n : nat)
    (bs : list byte) : list UNPKentry :=
  match n with
  | O => []
  | S n' =>
      mkEntry (cstr (take 56 bs ++ behind i)) 0 (-1) (-1)
              (le_Z (take 4 (drop 56 bs))) (le_Z (take 4 (drop 60 bs)))
      :: flat_records_read behind (S i) n' (drop 64 bs)
  end.

(** The name field of each of the first [n] records of [bs] holds a
    NUL. *)
Fixpoint names_terminated (n : nat) (bs : list byte) : Prop :=
  match n with
  | O => True
  | S n' => x00 ∈ take 56 bs /\ names_terminated n' (drop 64 bs)
  end.

(** What the second half of [VPK_openArchive] answers with: [NULL] and
    the archives as before the call, or a handle that was free before
    and on which the loader has returned 1. *)
Definition opened `{Host} (def : LoadEntries) (w : world) (p : ptr) (w' : world) : Prop :=
  match p with
  | None => w_arcs w' = w_arcs w
  | Some arc =>
      w_arcs w !! arc = None
      /\ exists count w1,
           w_arcs w1 = <[arc := []]> (w_arcs w)
           /\ vpkLoadEntries def count arc w1 = Some (1, w')
  end.

(** The first two header fields as the stream holds them. *)
Definition stream_magic (w : world) : Z := le_Z (take 4 (io_rest (w_io w))).
Definition stream_version (w : world) : Z :=
  le_Z (take 4 (drop 4 (io_rest (w_io w)))).

(** The last two header fields as the stream holds them: the offset of
    the directory and its length in bytes. *)
Definition stream_offset (w : world) : Z :=
  le_Z (take 4 (drop 8 (io_rest (w_io w)))).
Definition stream_length (w : world) : Z :=
  le_Z (take 4 (drop 12 (io_rest (w_io w)))).

(** The header passes every check of [VPK_openArchive] and the seek to
    the directory is granted: the archive is created and the load
    begins. *)
Definition header_accepted (forWriting : Z) (w : world) : Prop :=
  forWriting = 0
  /\ (16 <= bytes_left w)%nat
  /\ stream_magic w = VPK_SIG
  /\ (stream_version w = 1 \/ stream_version w = 2)
  /\ stream_length w mod 64 = 0
  /\ stream_offset w <= Z.of_nat (length (io_data (w_io w))).

(** The state in which the load then begins: the cursor at the
    directory, [*claimed] set and the new archive [arc] empty. *)
Definition at_directory (arc : nat) (w : world) : world :=
  mkWorld (mkIo (io_data (w_io w)) (Z.to_nat (stream_offset w)))
          (w_err w) 1 (<[arc := []]> (w_arcs w)).

(** The state after [UNPK_abandonArchive(arc)]. *)
Definition abandoned (arc : nat) (w : world) : world :=
  set_arcs (delete arc (w_arcs w)) w.

(** The cases in which [VPK_openArchive] returns before it reaches
    [*claimed = 1]. *)
Definition declined (forWriting : Z) (w : world) : Prop :=
  forWriting <> 0
  \/ (bytes_left w < 8)%nat
  \/ stream_magic w <> VPK_SIG
  \/ (stream_version w <> 1 /\ stream_version w <> 2).

Section Walker.
Import TreeWalk.
(** The variables after the name [s] and the record that follows it
    have been read. *)
Definition locals_after_record `{Host} (l : TreeWalk.locals) (s crc pre arc off sz t : list byte)
    : TreeWalk.locals :=
  let l := set_name (stored_at 0 (s ++ [x00]) (name l)) l in
  let l := set_path (store (snprintf_path 1024 (dir l) (name l) (ext l)) (path l)) l in
  set_entry (mk_vpk_entry (host_Z crc) (host_Z pre) (to_sint16 (host_Z arc))
                          (host_Z off) (host_Z sz) (host_Z t)) l.

(** The three string buffers have their declared size. *)
Definition buffers_ok (l : locals) : Prop :=
  length (ext l) = 256%nat /\ length (dir l) = 256%nat
  /\ length (name l) = 256%nat.

(** A path segment as the format has it: not empty, free of NUL and
    short enough for its buffer together with the terminator. *)
Definition segment (s : list byte) : Prop :=
  s <> [] /\ Forall (fun c => c <> x00) s /\ (length s < 256)%nat.
End Walker.

(** ** The archive of the spec's scenario *)

(** Header [(0x55AA1234, 1, 16, dirLen)] with the four bytes of [dirLen]
    left open, then the tree ["txt" -> "models/props" -> "chair"], the
    record [(crc=0, preload=0, archiveIndex=-1, offset=128, size=64,
    terminator)] with the two bytes of the terminator left open, and the
    three empty strings. *)
Definition chair_record (t0 t1 : byte) : list byte :=
  [x00; x00; x00; x00] ++ [x00; x00] ++ [xff; xff]
  ++ [x80; x00; x00; x00] ++ [x40; x00; x00; x00] ++ [t0; t1].

Definition chair_tree (t0 t1 : byte) : list byte :=
  bytes "txt" ++ [x00] ++ bytes "models/props" ++ [x00]
  ++ bytes "chair" ++ [x00] ++ chair_record t0 t1 ++ [x00; x00; x00].

Definition chair_header (c0 c1 c2 c3 : byte) : list byte :=
  [x34; x12; xaa; x55] ++ [x01; x00; x00; x00] ++ [x10; x00; x00; x00]
  ++ [c0; c1; c2; c3].

Definition chair_archive (c0 c1 c2 c3 t0 t1 : byte) : list byte :=
  chair_header c0 c1 c2 c3 ++ chair_tree t0 t1.

(** The entry the scenario expects in the registry. *)
Definition chair_entry : UNPKentry :=
  mkEntry (bytes "models/props/chair.txt") 0 (-1) (-1) 128 64.

(** A stream at its start, with no error set, nothing claimed and no
    archive open. *)
Definition fresh_world (data : list byte) : world :=
  mkWorld (mkIo data 0) None 0 ∅.

(** What lies behind the name array of the flat loader in the examples:
    six letters in every iteration, with no NUL among them. *)
Definition six_behind : nat -> list byte := fun _ => bytes "behind".

(** Two records of the flat layout, for ["a.txt"] at 128 with 64 bytes and
    ["b.txt"] at 192 with 16 bytes. *)
Definition flat_two : list byte :=
  (bytes "a.txt" ++ replicate 51 x00) ++ [x80; x00; x00; x00] ++ [x40; x00; x00; x00]
  ++ (bytes "b.txt" ++ replicate 51 x00) ++ [xc0; x00; x00; x00] ++ [x10; x00; x00; x00].

(** ** The directory tree, as the walker expects it *)

(** The on-disk tree written out from its contents: every extension holds
    directories, every directory files, every file a name and the five
    fields of its record before the terminator 0xFFFF; each level ends
    with an empty string. *)
Record tree_file := mk_tree_file {
  tf_name : list byte;
  tf_crc : list byte;
  tf_preload : list byte;
  tf_archive : list byte;
  tf_offset : list byte;
  tf_size : list byte
}.

Record tree_dir := mk_tree_dir {
  td_name : list byte;
  td_files : list tree_file
}.

Record tree_ext := mk_tree_ext {
  te_name : list byte;
  te_dirs : list tree_dir
}.

Definition enc_file (f : tree_file) : list byte :=
  tf_name f ++ x00 :: tf_crc f ++ tf_preload f ++ tf_archive f
  ++ tf_offset f ++ tf_size f ++ [xff; xff].

Definition enc_files (fs : list tree_file) : list byte :=
  concat (map enc_file fs).

Definition enc_dir (d : tree_dir) : list byte :=
  td_name d ++ x00 :: enc_files (td_files d) ++ [x00].

Definition enc_dirs (ds : list tree_dir) : list byte :=
  concat (map enc_dir ds).

Definition enc_ext (e : tree_ext) : list byte :=
  te_name e ++ x00 :: enc_dirs (te_dirs e) ++ [x00].

Definition enc_exts (es : list tree_ext) : list byte :=
  concat (map enc_ext es).

Definition enc_tree (es : list tree_ext) : list byte :=
  enc_exts es ++ [x00].

Definition good_file (f : tree_file) : Prop :=
  segment (tf_name f)
  /\ length (tf_crc f) = 4%nat /\ length (tf_preload f) = 2%nat
  /\ length (tf_archive f) = 2%nat /\ length (tf_offset f) = 4%nat
  /\ length (tf_size f) = 4%nat.

Definition good_dir (d : tree_dir) : Prop :=
  segment (td_name d) /\ Forall good_file (td_files d).

Definition good_ext (e : tree_ext) : Prop :=
  segment (te_name e) /\ Forall good_dir (te_dirs e).

(** The scenario's tree in this form. *)
Definition chair_exts : list tree_ext :=
  [mk_tree_ext (bytes "txt")
     [mk_tree_dir (bytes "models/props")
        [mk_tree_file (bytes "chair") [x00; x00; x00; x00] [x00; x00] [xff; xff]
                      [x80; x00; x00; x00] [x40; x00; x00; x00]]]].

(** [head_returns loop r Q w]: entered at [w] with the buffers in place and
    a budget above the number of bytes left, the loop leaves the function
    with [r], in a state that satisfies [Q]. *)
Definition head_returns (loop : nat -> TreeWalk.locals -> C Z TreeWalk.locals)
    (r : Z) (Q : world -> Prop) (w : world) : Prop :=
  forall fuel l,
    buffers_ok l -> (bytes_left w < fuel)%nat ->
    exists w', loop fuel l w = Some (Return r, w') /\ Q w'.

(** The bytes the walker has gone through when it stands at the head of
    one of its loops: whole extensions [es]; then, inside an extension [e],
    whole directories [ds]; then, inside a directory [d], whole files
    [fs]. *)
Inductive loop_head := AtExt | AtDir | AtName.

Definition walked_prefix (h : loop_head) (es : list tree_ext) (e : list byte)
    (ds : list tree_dir) (d : list byte) (fs : list tree_file) : list byte :=
  match h with
  | AtExt => enc_exts es
  | AtDir => enc_exts es ++ e ++ x00 :: enc_dirs ds
  | AtName => enc_exts es ++ e ++ x00 :: enc_dirs ds ++ d ++ x00 :: enc_files fs
  end.

Definition good_prefix (h : loop_head) (es : list tree_ext) (e : list byte)
    (ds : list tree_dir) (d : list byte) (fs : list tree_file) : Prop :=
  match h with
  | AtExt => Forall good_ext es
  | AtDir => Forall good_ext es /\ segment e /\ Forall good_dir ds
  | AtName =>
      Forall good_ext es /\ segment e /\ Forall good_dir ds
      /\ segment d /\ Forall good_file fs
  end.

(** The loop whose head it is. *)
Definition head_loop `{Host} (h : loop_head)
    : nat -> TreeWalk.locals -> C Z TreeWalk.locals :=
  match h with
  | AtExt => TreeWalk.ext_while
  | AtDir => TreeWalk.dir_while
  | AtName => TreeWalk.name_while
  end.

(** ** Closed forms for the further properties *)

(** The index of the first NUL of [bs]. *)
Fixpoint find_nul (bs : list byte) : option nat :=
  match bs with
  | [] => None
  | c :: bs' => if u8 c =? 0 then Some 0%nat else S <$> find_nul bs'
  end.

(** [vpkReadString] in closed form.  The reader looks at the window of the
    next [maxlen] bytes, or what is left of the stream: with a NUL in the
    window it stores and consumes the bytes up to and with the first one
    and answers 1; without, it stores and consumes the whole window and
    answers 0. *)
Definition read_string_spec (dest : list byte) (maxlen : nat) (w : world)
    : (Z * list byte) * world :=
  let window := take maxlen (io_rest (w_io w)) in
  match find_nul window with
  | Some i => ((1, stored_at 0 (take (S i) window) dest), consumed (S i) w)
  | None => ((0, stored_at 0 window dest), consumed (length window) w)
  end.

(** What a loop of the tree walker may do to the error code: nothing
    while it goes on, and nothing or "corrupt" when it leaves the function,
    which it does with 0. *)
Definition error_kept (w : world) (fl : flow Z TreeWalk.locals) (w' : world) : Prop :=
  advanced w w'
  /\ match fl with
     | Next _ => w_err w' = w_err w
     | Return r =>
         r = 0 /\ (w_err w' = w_err w \/ w_err w' = Some PHYSFS_ERR_CORRUPT)
     end.

(** ** Writing a flat-record directory *)

(** The byte with value [z], for [z] in [0 .. 255]. *)
Definition byte_of_Z (z : Z) : byte := default x00 (Byte.of_N (Z.to_N z)).

(** The four bytes of a 32-bit value, least significant first. *)
Definition u32_le (x : Z) : list byte :=
  [byte_of_Z (x mod 256); byte_of_Z (x / 256 mod 256);
   byte_of_Z (x / 65536 mod 256); byte_of_Z (x / 16777216 mod 256)].

(** A file of the flat layout and its 64-byte record: the name padded
    with NULs to 56 bytes, then position and length. *)
Record flat_file := mk_flat_file {
  ff_name : list byte;
  ff_pos : Z;
  ff_size : Z
}.

Definition enc_flat (f : flat_file) : list byte :=
  ff_name f ++ replicate (56 - length (ff_name f)) x00
  ++ u32_le (ff_pos f) ++ u32_le (ff_size f).

Definition enc_flats (fs : list flat_file) : list byte :=
  concat (map enc_flat fs).

(** The name is a C string that leaves room for its terminator in the
    field; position and length fit 32 bits. *)
Definition good_flat (f : flat_file) : Prop :=
  Forall (fun c => c <> x00) (ff_name f) /\ (length (ff_name f) < 56)%nat
  /\ 0 <= ff_pos f < 4294967296 /\ 0 <= ff_size f < 4294967296.

(** The registry entry of a file. *)
Definition flat_entry (f : flat_file) : UNPKentry :=
  mkEntry (ff_name f) 0 (-1) (-1) (ff_pos f) (ff_size f).

(** The scenario's chair and a table in the flat layout. *)
Definition flat_chairs : list flat_file :=
  [mk_flat_file (bytes "models/props/chair.txt") 128 64;
   mk_flat_file (bytes "models/props/table.txt") 192 300000].

(** ** Comparing runs on two hosts *)

(** The variables of the tree walker without the record last read, the
    only part whose contents depend on the byte order of the host. *)
Definition forget_entry (l : TreeWalk.locals) : TreeWalk.locals :=
  TreeWalk.set_entry (TreeWalk.mk_vpk_entry 0 0 0 0 0 0) l.

(** The outcome of a loop of the walker, the record forgotten. *)
Definition forgetting (o : option (flow Z TreeWalk.locals * world))
    : option (flow Z TreeWalk.locals * world) :=
  match o with
  | Some (Next l, w) => Some (Next (forget_entry l), w)
  | other => other
  end.

(** ** The outcomes of the walker's loops *)

(** [bs] begins with a file name and a whole 18-byte record whose
    terminator field is not 0xFFFF; [n] is the length of both. *)
Definition bad_record (bs : list byte) (n : nat) : Prop :=
  exists nm crc pre ar off sz t0 t1 X,
    bs = nm ++ x00 :: crc ++ pre ++ ar ++ off ++ sz ++ t0 :: t1 :: X
    /\ segment nm
    /\ length crc = 4%nat /\ length pre = 2%nat /\ length ar = 2%nat
    /\ length off = 4%nat /\ length sz = 4%nat
    /\ ~ (t0 = xff /\ t1 = xff)
    /\ n = (length nm + 19)%nat.

(** From [w], the bytes [P] and the empty string that ends their level
    have been read. *)
Definition falls_out (w : world) (P : list byte) (w' : world) : Prop :=
  exists R,
    io_rest (w_io w) = P ++ x00 :: R /\ w' = consumed (length P + 1) w.

(** From [w], the bytes [P] and then a record with a wrong terminator
    have been read, and "corrupt" is set behind that record. *)
Definition corrupt_at (w : world) (P : list byte) (w' : world) : Prop :=
  exists B n,
    io_rest (w_io w) = P ++ B /\ bad_record B n
    /\ w' = set_err PHYSFS_ERR_CORRUPT (consumed (length P + n) w).

(** The three ways in which a loop of the walker ends: it falls out
    behind a whole level; it leaves the function with 0 and the error
    code as it was; it leaves the function with 0 and "corrupt" at a
    wrong terminator, after the bytes of a part of its level. *)
Definition loop_outcome (whole part : list byte -> Prop) (w : world)
    (fl : flow Z TreeWalk.locals) (w' : world) : Prop :=
  (exists P l', whole P /\ fl = Next l' /\ buffers_ok l' /\ falls_out w P w')
  \/ (fl = Return 0 /\ w_err w' = w_err w)
  \/ (exists P, part P /\ fl = Return 0 /\ corrupt_at w P w').

Definition whole_files (P : list byte) : Prop :=
  exists fs, Forall good_file fs /\ P = enc_files fs.

Definition whole_dirs (P : list byte) : Prop :=
  exists ds, Forall good_dir ds /\ P = enc_dirs ds.

Definition part_dirs (P : list byte) : Prop :=
  exists ds d fs,
    Forall good_dir ds /\ segment d /\ Forall good_file fs
    /\ P = enc_dirs ds ++ d ++ x00 :: enc_files fs.

Definition whole_exts (P : list byte) : Prop :=
  exists es, Forall good_ext es /\ P = enc_exts es.

Definition part_exts (P : list byte) : Prop :=
  exists es e ds d fs,
    good_prefix AtName es e ds d fs /\ P = walked_prefix AtName es e ds d fs.

(** * Properties *)

(** ** Bytes and integers *)

Lemma u8_range (c : byte) : 0 <= u8 c < 256.
Proof.
  unfold u8. pose proof (Byte.to_N_bounded c). lia.
Qed.

Lemma u8_zero (c : byte) : u8 c = 0 <-> c = x00.
Proof.
  split; [|intros ->; reflexivity].
  unfold u8. intros Hc.
  assert (Byte.to_N c = Byte.to_N x00) as Hn by (simpl; lia).
  apply (f_equal Byte.of_N) in Hn. rewrite !Byte.of_to_N in Hn. congruence.
Qed.

Lemma le_Z_4 (a b c d : byte) :
  le_Z [a; b; c; d] = u8 a + 256 * u8 b + 65536 * u8 c + 16777216 * u8 d.
Proof. simpl. lia. Qed.

Lemma swap32_be_Z (a b c d : byte) :
  PHYSFS_swap32 (be_Z [a; b; c; d]) = le_Z [a; b; c; d].
Proof.
  unfold be_Z. simpl rev. rewrite !le_Z_4. unfold PHYSFS_swap32.
  pose proof (u8_range a). pose proof (u8_range b).
  pose proof (u8_range c). pose proof (u8_range d).
  Z.div_mod_to_equations. lia.
Qed.

(** Converting a raw 32-bit read with [PHYSFS_swapULE32] gives the
    little-endian value of the four bytes on either host. *)
Lemma swapULE32_host `{Host} (bs : list byte) :
  length bs = 4%nat -> PHYSFS_swapULE32 (host_Z bs) = le_Z bs.
Proof.
  intros Hlen.
  destruct bs as [|a [|b [|c [|d [|? ?]]]]]; simpl in Hlen; try lia.
  unfold PHYSFS_swapULE32, host_Z. destruct big_endian; [|reflexivity].
  apply swap32_be_Z.
Qed.

(** A 16-bit object holds 0xFFFF exactly when both of its bytes are 0xFF,
    whatever the byte order. *)
Lemma host_Z_16_ffff `{Host} (t0 t1 : byte) :
  host_Z [t0; t1] = 0xFFFF <-> t0 = xff /\ t1 = xff.
Proof.
  assert (forall c, u8 c = 255 -> c = xff) as Hff.
  { intros c Hc. unfold u8 in Hc.
    assert (Byte.to_N c = Byte.to_N xff) as Hn by (simpl; lia).
    apply (f_equal Byte.of_N) in Hn. rewrite !Byte.of_to_N in Hn. congruence. }
  pose proof (u8_range t0). pose proof (u8_range t1).
  split.
  - unfold host_Z, be_Z. destruct big_endian; simpl; intros Hv;
      split; apply Hff; lia.
  - intros [-> ->]. unfold host_Z, be_Z. destruct big_endian; reflexivity.
Qed.

(** ** The state monad *)

Lemma bind_Next {R A B} (c : C R A) (k : A -> C R B) w a w' :
  c w = Some (Next a, w') -> bind c k w = k a w'.
Proof. unfold bind. intros ->. reflexivity. Qed.

Lemma bind_Return {R A B} (c : C R A) (k : A -> C R B) w r w' :
  c w = Some (Return r, w') -> bind c k w = Some (Return r, w').
Proof. unfold bind. intros ->. reflexivity. Qed.

(** ** The stream *)

Lemma consumed_0 w : consumed 0 w = w.
Proof.
  destruct w as [[d p] e c a]. unfold consumed, set_io, io_advance. simpl.
  by rewrite Nat.add_0_r.
Qed.

Lemma consumed_consumed n m w : consumed m (consumed n w) = consumed (n + m) w.
Proof.
  unfold consumed, set_io, io_advance. simpl. by rewrite Nat.add_assoc.
Qed.

Lemma io_rest_consumed n w :
  io_rest (w_io (consumed n w)) = drop n (io_rest (w_io w)).
Proof. unfold io_rest. simpl. by rewrite drop_drop. Qed.

Lemma readAll_ok {R} (bs rest : list byte) w :
  io_rest (w_io w) = bs ++ rest ->
  __PHYSFS_readAll (R:=R) (length bs) w = Some (Next (1, bs), consumed (length bs) w).
Proof.
  intros Hrest. unfold __PHYSFS_readAll. rewrite Hrest.
  rewrite decide_True by (rewrite length_app; lia).
  by rewrite take_app_length.
Qed.

Lemma readAll_short {R} (len : nat) w :
  (bytes_left w < len)%nat ->
  __PHYSFS_readAll (R:=R) len w
  = Some (Next (0, io_rest (w_io w)), consumed (bytes_left w) w).
Proof.
  intros Hlt. unfold __PHYSFS_readAll, bytes_left in *.
  by rewrite decide_False by lia.
Qed.

(** Every read answers, moves the cursor forward and changes nothing else. *)
Lemma readAll_total {R} (len : nat) w :
  exists rc buf k,
    __PHYSFS_readAll (R:=R) len w = Some (Next (rc, buf), consumed k w)
    /\ (k <= bytes_left w)%nat
    /\ (rc = 0 /\ (bytes_left w < len)%nat
        \/ rc = 1 /\ k = len /\ buf = take len (io_rest (w_io w))).
Proof.
  unfold __PHYSFS_readAll, bytes_left. case_decide.
  - exists 1, (take len (io_rest (w_io w))), len.
    split_and!; [done|done|by right].
  - exists 0, (io_rest (w_io w)), (length (io_rest (w_io w))).
    split_and!; [done|done|left; split; [done|lia]].
Qed.

Lemma bytes_left_consumed k w :
  bytes_left (consumed k w) = (bytes_left w - k)%nat.
Proof.
  unfold bytes_left. rewrite io_rest_consumed. by rewrite length_drop.
Qed.

(** ** [vpkReadString] *)

Lemma stored_at_cons pos c bs (dest : list byte) :
  (pos < length dest)%nat ->
  stored_at (S pos) bs (<[pos := c]> dest) = stored_at pos (c :: bs) dest.
Proof.
  intros Hpos. unfold stored_at.
  rewrite (take_S_r _ pos c) by (by apply list_lookup_insert_eq).
  rewrite take_insert_ge by lia.
  rewrite drop_insert_lt by (simpl; lia).
  rewrite <- app_assoc. simpl.
  by rewrite Nat.add_succ_r.
Qed.

Lemma stored_at_one pos c (dest : list byte) :
  (pos < length dest)%nat ->
  <[pos := c]> dest = stored_at pos [c] dest.
Proof.
  intros Hpos. unfold stored_at. simpl.
  rewrite insert_take_drop by done. by rewrite Nat.add_1_r.
Qed.

(** The loop on a stream that holds [s], free of NUL and shorter than the
    iterations left, and then a NUL. *)
Lemma vpkReadString_while_ok (s : list byte) : forall n pos dest rest w,
  io_rest (w_io w) = s ++ x00 :: rest ->
  Forall (fun c => c <> x00) s ->
  (length s < n)%nat ->
  (pos + length s < length dest)%nat ->
  vpkReadString_while n pos dest w
  = Some (Return (1, stored_at pos (s ++ [x00]) dest), consumed (S (length s)) w).
Proof.
  induction s as [|c s IH]; intros n pos dest rest w Hrest Hnz Hn Hpos;
    (destruct n as [|n]; [simpl in Hn; lia|]); simpl in *.
  - rewrite (bind_Next _ _ _ _ _ (readAll_ok [x00] rest w Hrest)).
    simpl. unfold bind, BAIL_IF_ERRPASS, return_. simpl.
    by rewrite (stored_at_one pos) by lia.
  - rewrite (bind_Next _ _ _ _ _ (readAll_ok [c] (s ++ x00 :: rest) w Hrest)).
    simpl. unfold bind at 1. unfold BAIL_IF_ERRPASS. simpl.
    inversion Hnz as [|? ? Hc Hs]; subst.
    destruct (u8 c =? 0) eqn:Hz.
    { apply Z.eqb_eq, u8_zero in Hz. done. }
    rewrite (IH n (S pos) (<[pos := c]> dest) rest (consumed 1 w)).
    + rewrite consumed_consumed. rewrite stored_at_cons by lia. done.
    + rewrite io_rest_consumed, Hrest. done.
    + done.
    + lia.
    + rewrite length_insert. lia.
Qed.

Lemma vpkReadString_ok (s rest dest : list byte) (maxlen : nat) w :
  io_rest (w_io w) = s ++ x00 :: rest ->
  Forall (fun c => c <> x00) s ->
  (length s < maxlen)%nat ->
  (maxlen <= length dest)%nat ->
  vpkReadString dest maxlen w
  = Some ((1, stored_at 0 (s ++ [x00]) dest), consumed (S (length s)) w).
Proof.
  intros Hrest Hnz Hlen Hcap. unfold vpkReadString, func.
  rewrite (bind_Return _ _ _ _ _
             (vpkReadString_while_ok s maxlen 0%nat dest rest w Hrest Hnz Hlen
                ltac:(lia))).
  done.
Qed.

(** Whatever the stream holds, the loop answers; it only moves the cursor
    forward, and by at least one byte when it reports success. *)
Lemma vpkReadString_while_total : forall n pos dest w,
  exists fl k,
    vpkReadString_while n pos dest w = Some (fl, consumed k w)
    /\ (k <= bytes_left w)%nat
    /\ match fl with
       | Next _ => True
       | Return (rc, _) => rc = 0 \/ rc = 1 /\ (1 <= k)%nat
       end.
Proof.
  induction n as [|n IH]; intros pos dest w; simpl.
  - exists (Next dest), 0%nat. rewrite consumed_0. unfold ret. split_and!; [done|lia|done].
  - destruct (io_rest (w_io w)) as [|c rest] eqn:Hrest.
    + rewrite (bind_Next _ _ _ _ _ (readAll_short 1 w ltac:(unfold bytes_left; rewrite Hrest; simpl; lia))).
      exists (Return (0, dest)), (bytes_left w). split_and!; [done|lia|by left].
    + rewrite (bind_Next _ _ _ _ _ (readAll_ok [c] rest w Hrest)).
      simpl. unfold bind at 1. unfold BAIL_IF_ERRPASS. simpl.
      assert (1 <= bytes_left w)%nat as Hone
        by (unfold bytes_left; rewrite Hrest; simpl; lia).
      destruct (u8 c =? 0).
      * exists (Return (1, <[pos := c]> dest)), 1%nat.
        split_and!; [done|done|right; lia].
      * destruct (IH (S pos) (<[pos := c]> dest) (consumed 1 w))
          as (fl & k & Hrun & Hk & Hfl).
        rewrite consumed_consumed in Hrun.
        rewrite bytes_left_consumed in Hk.
        exists fl, (1 + k)%nat. split_and!; [done|lia|].
        destruct fl as [?|[rc ?]]; [done|]. destruct Hfl; [by left|right; lia].
Qed.

Lemma vpkReadString_total (dest : list byte) (maxlen : nat) w :
  exists rc dest' k,
    vpkReadString dest maxlen w = Some ((rc, dest'), consumed k w)
    /\ (k <= bytes_left w)%nat
    /\ (rc = 0 \/ rc = 1 /\ (1 <= k)%nat).
Proof.
  destruct (vpkReadString_while_total maxlen 0%nat dest w)
    as (fl & k & Hrun & Hk & Hfl).
  unfold vpkReadString, func, bind. rewrite Hrun.
  destruct fl as [d|[rc d]].
  - exists 0, d, k. unfold return_. split_and!; [done|done|by left].
  - exists rc, d, k. done.
Qed.

(** Without a NUL among the bytes the condition admits, the loop never
    returns success: it falls out or returns 0. *)
Lemma vpkReadString_while_no_nul : forall n pos dest w,
  no_nul_within n w ->
  exists fl w',
    vpkReadString_while n pos dest w = Some (fl, w')
    /\ match fl with Next _ => True | Return (rc, _) => rc = 0 end.
Proof.
  unfold no_nul_within.
  induction n as [|n IH]; intros pos dest w Hnn; simpl.
  - by exists (Next dest), w.
  - destruct (io_rest (w_io w)) as [|c rest] eqn:Hrest.
    + rewrite (bind_Next _ _ _ _ _ (readAll_short 1 w ltac:(unfold bytes_left; rewrite Hrest; simpl; lia))).
      by eexists (Return (0, dest)), _.
    + rewrite (bind_Next _ _ _ _ _ (readAll_ok [c] rest w Hrest)).
      simpl. unfold bind at 1. unfold BAIL_IF_ERRPASS. simpl.
      simpl in Hnn. inversion Hnn as [|? ? Hc Hrest']; subst.
      destruct (u8 c =? 0) eqn:Hz.
      { apply Z.eqb_eq, u8_zero in Hz. done. }
      apply IH. rewrite io_rest_consumed, Hrest. simpl. by rewrite drop_0.
Qed.

Lemma vpkReadString_no_nul (dest : list byte) (maxlen : nat) w :
  no_nul_within maxlen w ->
  exists dest' w', vpkReadString dest maxlen w = Some ((0, dest'), w').
Proof.
  intros Hnn.
  destruct (vpkReadString_while_no_nul maxlen 0%nat dest w Hnn)
    as (fl & w' & Hrun & Hfl).
  unfold vpkReadString, func, bind. rewrite Hrun.
  destruct fl as [d|[rc d]]; [by exists d, w'|].
  subst rc. by exists d, w'.
Qed.

(** ** Weakest preconditions *)

Lemma wp_run {R A} (c : C R A) Q w :
  wp c Q w <-> exists fl w', c w = Some (fl, w') /\ Q fl w'.
Proof.
  unfold wp. split.
  - destruct (c w) as [[fl w']|]; [|done]. by exists fl, w'.
  - intros (fl & w' & -> & HQ). done.
Qed.

Lemma wp_mono {R A} (c : C R A) (Q Q' : flow R A -> world -> Prop) w :
  wp c Q w -> (forall fl w', Q fl w' -> Q' fl w') -> wp c Q' w.
Proof. unfold wp. destruct (c w) as [[fl w']|]; [|done]. auto. Qed.

Lemma wp_bind {R A B} (c : C R A) (k : A -> C R B) Q w :
  wp c (fun fl w' =>
          match fl with
          | Next a => wp (k a) Q w'
          | Return r => Q (Return r) w'
          end) w ->
  wp (bind c k) Q w.
Proof.
  unfold wp, bind. destruct (c w) as [[[a|r] w']|]; done.
Qed.

Lemma wp_ret {R A} (a : A) (Q : flow R A -> world -> Prop) w :
  Q (Next a) w -> wp (ret a) Q w.
Proof. done. Qed.

Lemma wp_return {R A} (r : R) (Q : flow R A -> world -> Prop) w :
  Q (Return r) w -> wp (return_ r) Q w.
Proof. done. Qed.

Lemma wp_BAIL_IF_ERRPASS {R} (c : bool) (r : R) Q w :
  (if c then Q (Return r) w else Q (Next tt) w) ->
  wp (BAIL_IF_ERRPASS c r) Q w.
Proof. unfold wp, BAIL_IF_ERRPASS. by destruct c. Qed.

Lemma wp_BAIL_IF {R} (c : bool) e (r : R) Q w :
  (if c then Q (Return r) (set_err e w) else Q (Next tt) w) ->
  wp (BAIL_IF c e r) Q w.
Proof. unfold wp, BAIL_IF. by destruct c. Qed.

Lemma wp_readAll {R} (len : nat) (Q : flow R (Z * list byte) -> world -> Prop) w :
  (forall rc buf k,
      (k <= bytes_left w)%nat ->
      rc = 0 /\ (bytes_left w < len)%nat
      \/ rc = 1 /\ k = len /\ buf = take len (io_rest (w_io w)) ->
      Q (Next (rc, buf)) (consumed k w)) ->
  wp (__PHYSFS_readAll len) Q w.
Proof.
  intros HQ. destruct (readAll_total (R:=R) len w) as (rc & buf & k & Hrun & Hk & Hrc).
  unfold wp. rewrite Hrun. by apply HQ.
Qed.

Lemma wp_call_vpkReadString {R} (dest : list byte) (maxlen : nat)
    (Q : flow R (Z * list byte) -> world -> Prop) w :
  (forall rc dest' k,
      (k <= bytes_left w)%nat -> rc = 0 \/ rc = 1 /\ (1 <= k)%nat ->
      Q (Next (rc, dest')) (consumed k w)) ->
  wp (call (vpkReadString dest maxlen)) Q w.
Proof.
  intros HQ. destruct (vpkReadString_total dest maxlen w)
    as (rc & dest' & k & Hrun & Hk & Hrc).
  unfold wp, call. rewrite Hrun. by apply HQ.
Qed.

(** ** What a loader may change *)

Lemma advanced_refl w : advanced w w.
Proof. by split. Qed.

Lemma advanced_trans w1 w2 w3 : advanced w1 w2 -> advanced w2 w3 -> advanced w1 w3.
Proof.
  intros [] []. split; [congruence|lia|congruence|congruence].
Qed.

Lemma advanced_consumed k w : advanced w (consumed k w).
Proof. split; simpl; [done|lia|done|done]. Qed.

Lemma advanced_set_err e w w' : advanced w w' -> advanced w (set_err e w').
Proof. intros []. by split. Qed.

Lemma advanced_bytes_left w w' : advanced w w' -> (bytes_left w' <= bytes_left w)%nat.
Proof.
  intros [Hd Hp _ _]. unfold bytes_left, io_rest. rewrite !length_drop, Hd. lia.
Qed.

Create HintDb vpk.
#[local] Hint Resolve advanced_refl advanced_consumed advanced_set_err : vpk.

(** ** The tree walker ends *)

Section TreeWalkTotal.
Context `{Host}.
Import TreeWalk.

Lemma walked_trans w1 w2 fl w3 :
  advanced w1 w2 -> walked w2 fl w3 -> walked w1 fl w3.
Proof. intros Hadv [Hadv' Hfl]. split; [by eapply advanced_trans|done]. Qed.

Ltac walk_done :=
  rewrite ?consumed_consumed; split; [auto with vpk|done].

Lemma name_while_total : forall fuel l w,
  (bytes_left w < fuel)%nat -> wp (name_while fuel l) (walked w) w.
Proof.
  induction fuel as [|fuel IH]; intros l w Hfuel; [lia|].
  cbn [name_while].
  apply wp_bind, wp_call_vpkReadString. intros rc d k Hk [-> | [-> Hk1]];
    apply wp_bind, wp_BAIL_IF_ERRPASS; cbn [Z.eqb]; [walk_done|].
  destruct (u8 _ =? 0); [apply wp_ret; walk_done|].
  do 6 (apply wp_bind, wp_readAll; intros ? ? ? ? [[-> _] | [-> [-> _]]];
        apply wp_bind, wp_BAIL_IF_ERRPASS; cbn [Z.eqb]; [walk_done|]).
  apply wp_bind, wp_BAIL_IF.
  destruct (negb _); [walk_done|].
  rewrite ?consumed_consumed.
  eapply wp_mono.
  - apply IH. rewrite ?bytes_left_consumed in *. lia.
  - intros ? w' Hw. eapply walked_trans; [|exact Hw]. auto with vpk.
Qed.

Lemma dir_while_total : forall fuel l w,
  (bytes_left w < fuel)%nat -> wp (dir_while fuel l) (walked w) w.
Proof.
  induction fuel as [|fuel IH]; intros l w Hfuel; [lia|].
  cbn [dir_while].
  apply wp_bind, wp_call_vpkReadString. intros rc d k Hk [-> | [-> Hk1]];
    apply wp_bind, wp_BAIL_IF_ERRPASS; cbn [Z.eqb]; [walk_done|].
  destruct (u8 _ =? 0); [apply wp_ret; walk_done|].
  assert (bytes_left (consumed k w) < fuel)%nat as Hleft
    by (rewrite bytes_left_consumed; lia).
  apply wp_bind. eapply wp_mono; [apply name_while_total, Hleft|].
  intros [l'|r] w' [Hadv Hr].
  - eapply wp_mono.
    + apply IH. apply advanced_bytes_left in Hadv. lia.
    + intros ? w'' Hw. eapply walked_trans; [|exact Hw].
      eauto using advanced_trans with vpk.
  - split; [eauto using advanced_trans with vpk|done].
Qed.

Lemma ext_while_total : forall fuel l w,
  (bytes_left w < fuel)%nat -> wp (ext_while fuel l) (walked w) w.
Proof.
  induction fuel as [|fuel IH]; intros l w Hfuel; [lia|].
  cbn [ext_while].
  apply wp_bind, wp_call_vpkReadString. intros rc d k Hk [-> | [-> Hk1]];
    apply wp_bind, wp_BAIL_IF_ERRPASS; cbn [Z.eqb]; [walk_done|].
  destruct (u8 _ =? 0); [apply wp_ret; walk_done|].
  assert (bytes_left (consumed k w) < fuel)%nat as Hleft
    by (rewrite bytes_left_consumed; lia).
  apply wp_bind. eapply wp_mono; [apply dir_while_total, Hleft|].
  intros [l'|r] w' [Hadv Hr].
  - eapply wp_mono.
    + apply IH. apply advanced_bytes_left in Hadv. lia.
    + intros ? w'' Hw. eapply walked_trans; [|exact Hw].
      eauto using advanced_trans with vpk.
  - split; [eauto using advanced_trans with vpk|done].
Qed.

(** The tree walker always returns, 0 or 1, and changes neither
    [*claimed] nor any archive. *)
Lemma TreeWalk_total (count : Z) (arc : nat) w :
  exists rc w',
    TreeWalk.vpkLoadEntries count arc w = Some (rc, w')
    /\ (rc = 0 \/ rc = 1) /\ advanced w w'.
Proof.
  unfold TreeWalk.vpkLoadEntries, func.
  pose proof (ext_while_total (S (bytes_left w)) locals0 w ltac:(lia)) as Hwp.
  unfold bytes_left in Hwp. apply wp_run in Hwp as (fl & w' & Hrun & Hadv & Hfl).
  unfold bind at 1. rewrite Hrun. destruct fl as [l|r].
  - exists 1, w'. auto.
  - exists r, w'. auto.
Qed.
End TreeWalkTotal.

(** ** The flat-record loader *)

Lemma advanced_loaded arc w w' : advanced w w' -> loaded arc w w'.
Proof. intros []. split; [done|done|done|congruence]. Qed.

Lemma loaded_refl arc w : loaded arc w w.
Proof. by split. Qed.

Lemma loaded_trans arc w1 w2 w3 :
  loaded arc w1 w2 -> loaded arc w2 w3 -> loaded arc w1 w3.
Proof. intros [] []. split; [congruence|lia|congruence|congruence]. Qed.

Lemma loaded_registered arc es w : loaded arc w (registered arc es w).
Proof.
  split; simpl; [done|lia|done|].
  apply map_eq. intros i. destruct (decide (i = arc)) as [->|Hne].
  - by rewrite !lookup_delete_eq.
  - rewrite !lookup_delete_ne by done. by rewrite lookup_alter_ne.
Qed.

Lemma readAll_take {R} (len : nat) w :
  (len <= bytes_left w)%nat ->
  __PHYSFS_readAll (R:=R) len w
  = Some (Next (1, take len (io_rest (w_io w))), consumed len w).
Proof.
  intros Hlen. unfold __PHYSFS_readAll, bytes_left in *.
  by rewrite decide_True by done.
Qed.

Lemma addEntry_live {R} arc es name isdir ctime mtime pos len w :
  w_arcs w !! arc = Some es ->
  UNPK_addEntry (R:=R) arc name isdir ctime mtime pos len w
  = Some (Next (Some arc),
          registered arc [mkEntry (cstr name) isdir ctime mtime pos len] w).
Proof.
  intros Hlive. unfold UNPK_addEntry, registered. rewrite Hlive.
  do 3 f_equal. apply map_eq. intros i. destruct (decide (i = arc)) as [->|Hne].
  - rewrite lookup_insert_eq, lookup_alter_eq, Hlive. done.
  - rewrite lookup_insert_ne, lookup_alter_ne by done. done.
Qed.

Lemma registered_lookup arc es es' w :
  w_arcs w !! arc = Some es ->
  w_arcs (registered arc es' w) !! arc = Some (es ++ es').
Proof. intros Hlive. simpl. by rewrite lookup_alter_eq, Hlive. Qed.

Lemma registered_registered arc es es' w :
  registered arc es' (registered arc es w) = registered arc (es ++ es') w.
Proof.
  unfold registered, set_arcs. simpl. f_equal.
  apply map_eq. intros i. destruct (decide (i = arc)) as [->|Hne].
  - rewrite !lookup_alter_eq. destruct (w_arcs w !! arc); simpl; [|done].
    by rewrite app_assoc.
  - by rewrite !lookup_alter_ne.
Qed.

Lemma registered_consumed arc es k w :
  registered arc es (consumed k w) = consumed k (registered arc es w).
Proof. reflexivity. Qed.

Lemma registered_nil arc w : registered arc [] w = w.
Proof.
  destruct w as [s e c a]. unfold registered, set_arcs. simpl. f_equal.
  apply map_eq. intros i. destruct (decide (i = arc)) as [->|Hne].
  - rewrite lookup_alter_eq. destruct (a !! arc); simpl; [|done].
    by rewrite app_nil_r.
  - by rewrite lookup_alter_ne.
Qed.

(** A name field that holds a NUL gives its C string, whatever lies
    behind it. *)
Lemma cstr_app_terminated (field rest : list byte) :
  x00 ∈ field -> cstr (field ++ rest) = cstr field.
Proof.
  induction field as [|c field IH]; intros Hnul.
  - by apply elem_of_nil in Hnul.
  - simpl. destruct (u8 c =? 0) eqn:Hc; [done|].
    apply elem_of_cons in Hnul as [<- | Hnul]; [done|]. by rewrite IH.
Qed.

Lemma flat_records_read_terminated behind : forall n i (bs : list byte),
  names_terminated n bs ->
  flat_records_read behind i n bs = flat_records n bs.
Proof.
  induction n as [|n IH]; intros i bs Hnul; [done|].
  destruct Hnul as [Hfield Hnul]. cbn [flat_records_read flat_records].
  by rewrite cstr_app_terminated, IH.
Qed.

Lemma length_flat_records_read behind : forall n i (bs : list byte),
  length (flat_records_read behind i n bs) = n.
Proof. induction n as [|n IH]; intros i bs; simpl; [done|]. by rewrite IH. Qed.

Section FlatRecordLoader.
Context `{Host}.
Variable behind : nat -> list byte.
Import FlatRecord.

(** With a live archive and [n] whole records in the stream, the loop
    registers them all and falls out. *)
Lemma entries_for_ok : forall n i arc es w,
  w_arcs w !! arc = Some es ->
  (64 * n <= bytes_left w)%nat ->
  entries_for behind n i arc w
  = Some (Next tt,
          registered arc (flat_records_read behind i n (io_rest (w_io w)))
                     (consumed (64 * n) w)).
Proof.
  induction n as [|n IH]; intros i arc es w Hlive Hlen.
  - simpl. unfold ret. by rewrite registered_nil, consumed_0.
  - cbn [entries_for flat_records_read].
    rewrite (bind_Next _ _ _ _ _ (readAll_take 56 w ltac:(lia))).
    unfold bind at 1. unfold BAIL_IF_ERRPASS at 1. cbn [Z.eqb].
    rewrite (bind_Next _ _ _ _ _
               (readAll_take 4 (consumed 56 w)
                  ltac:(rewrite bytes_left_consumed; lia))).
    unfold bind at 1. unfold BAIL_IF_ERRPASS at 1. cbn [Z.eqb].
    rewrite consumed_consumed.
    rewrite (bind_Next _ _ _ _ _
               (readAll_take 4 (consumed (56 + 4) w)
                  ltac:(rewrite bytes_left_consumed; lia))).
    unfold bind at 1. unfold BAIL_IF_ERRPASS at 1. cbn [Z.eqb].
    rewrite consumed_consumed, !io_rest_consumed.
    change (56 + 4)%nat with 60%nat. change (60 + 4)%nat with 64%nat.
    rewrite !swapULE32_host
      by (rewrite length_take, length_drop; unfold bytes_left in Hlen; lia).
    rewrite (bind_Next _ _ _ _ _
               (addEntry_live arc es _ _ _ _ _ _ (consumed 64 w) Hlive)).
    unfold bind at 1. unfold BAIL_IF_ERRPASS at 1. cbn [is_null].
    rewrite (IH (S i) arc
               (es ++ [mkEntry (cstr (take 56 (io_rest (w_io w)) ++ behind i))
                               0 (-1) (-1)
                               (le_Z (take 4 (drop 56 (io_rest (w_io w)))))
                               (le_Z (take 4 (drop 60 (io_rest (w_io w)))))])).
    + rewrite <- !registered_consumed, registered_registered, consumed_consumed.
      change (w_io (registered ?a ?e ?w)) with (w_io w).
      rewrite io_rest_consumed.
      replace (64 + 64 * n)%nat with (64 * S n)%nat by lia. done.
    + by apply registered_lookup.
    + change (bytes_left (registered arc ?e ?w)) with (bytes_left w).
      rewrite bytes_left_consumed. lia.
Qed.

Lemma entries_for_falls_out n i arc w :
  n = 0%nat \/ is_Some (w_arcs w !! arc) ->
  (64 * n <= bytes_left w)%nat ->
  entries_for behind n i arc w
  = Some (Next tt,
          registered arc (flat_records_read behind i n (io_rest (w_io w)))
                     (consumed (64 * n) w)).
Proof.
  intros [-> | [es Hlive]] Hlen.
  - simpl. unfold ret. by rewrite registered_nil, consumed_0.
  - by apply (entries_for_ok n i arc es).
Qed.

(** The loop always ends; it leaves the function only with 0, and falls
    out only after [n] whole records, registered in a live archive. *)
Lemma entries_for_total : forall n i arc w,
  wp (entries_for behind n i arc)
     (fun fl w' =>
        loaded arc w w'
        /\ match fl with
           | Return r => r = 0
           | Next _ =>
               (64 * n <= bytes_left w)%nat
               /\ (n = 0%nat \/ is_Some (w_arcs w !! arc))
           end) w.
Proof.
  induction n as [|n IH]; intros i arc w.
  - simpl. split; [apply loaded_refl|]. split; [lia|by left].
  - cbn [entries_for].
    do 3 (apply wp_bind, wp_readAll; intros ? ? ? ? [[-> _] | [-> [-> _]]];
          apply wp_bind, wp_BAIL_IF_ERRPASS; cbn [Z.eqb];
          [rewrite ?consumed_consumed;
           split; [apply advanced_loaded; auto with vpk|done] |]).
    rewrite ?consumed_consumed, ?bytes_left_consumed in *.
    apply wp_bind. unfold wp at 1, UNPK_addEntry.
    change (w_arcs (consumed ?k ?w)) with (w_arcs w).
    destruct (w_arcs w !! arc) as [es|] eqn:Hlive.
    + apply wp_bind, wp_BAIL_IF_ERRPASS. cbn [is_null].
      eapply wp_mono; [apply IH|].
      intros fl w' [Hld Hfl]. split.
      * eapply loaded_trans; [|exact Hld].
        split; simpl; [done|lia|done|].
        by rewrite delete_insert_eq.
      * destruct fl as [[]|r]; [|done].
        destruct Hfl as [Hlen _]. split; [|right; eauto].
        unfold bytes_left, io_rest in *. simpl in Hlen.
        rewrite !length_drop in *. lia.
    + apply wp_bind, wp_BAIL_IF_ERRPASS. cbn [is_null].
      split; [apply advanced_loaded; auto with vpk|done].
Qed.

(** The flat-record loader always returns, 0 or 1. *)
Lemma FlatRecord_total (count : Z) (arc : nat) w :
  exists rc w',
    FlatRecord.vpkLoadEntries behind count arc w = Some (rc, w')
    /\ (rc = 0 \/ rc = 1) /\ loaded arc w w'.
Proof.
  unfold FlatRecord.vpkLoadEntries, func.
  pose proof (entries_for_total (Z.to_nat count) 0 arc w) as Hwp.
  apply wp_run in Hwp as (fl & w' & Hrun & Hld & Hfl).
  unfold bind at 1. rewrite Hrun. destruct fl as [[]|r].
  - exists 1, w'. auto.
  - exists r, w'. auto.
Qed.
End FlatRecordLoader.

(** ** [VPK_openArchive] *)

Section OpenArchiveFacts.
Context `{Host}.

(** Either definition of [vpkLoadEntries] returns, 0 or 1, and touches no
    archive but its own. *)
Lemma vpkLoadEntries_total (def : LoadEntries) (count : Z) (arc : nat) w :
  exists rc w',
    vpkLoadEntries def count arc w = Some (rc, w')
    /\ (rc = 0 \/ rc = 1) /\ loaded arc w w'.
Proof.
  destruct def; simpl.
  - destruct (TreeWalk_total count arc w) as (rc & w' & Hrun & Hrc & Hadv).
    exists rc, w'. auto using advanced_loaded.
  - apply FlatRecord_total.
Qed.

Lemma VPK_openArchive_load_opened (def : LoadEntries) (pos count : Z) w :
  wp (VPK_openArchive_load def pos count)
     (fun fl w' =>
        w_claimed w' = w_claimed w
        /\ exists p, fl = Return p /\ opened def w p w') w.
Proof.
  unfold VPK_openArchive_load.
  apply wp_bind. unfold wp at 1, io_seek. case_decide as Hpos.
  - apply wp_bind, wp_BAIL_IF_ERRPASS. cbn [Z.eqb].
    apply wp_bind. unfold wp at 1, UNPK_openArchive.
    apply wp_bind, wp_BAIL_IF_ERRPASS. cbn [is_null].
    set (arc := fresh (dom (w_arcs _))).
    set (w1 := set_arcs _ _).
    assert (w_arcs w !! arc = None) as Hfree.
    { apply not_elem_of_dom. apply is_fresh. }
    destruct (vpkLoadEntries_total def count arc w1)
      as (rc & w2 & Hrun & Hrc & Hld).
    apply wp_bind. unfold wp at 1, call. rewrite Hrun.
    destruct Hrc as [-> | ->]; cbn [Z.eqb].
    + apply wp_bind. unfold wp at 1, UNPK_abandonArchive.
      apply wp_return. destruct Hld as [_ _ Hcl Harcs]. split; [done|].
      exists NULL. split; [done|]. simpl. rewrite Harcs.
      subst w1. simpl. by rewrite delete_insert_id.
    + apply wp_return. destruct Hld as [_ _ Hcl Harcs]. split; [done|].
      exists (Some arc). split; [done|]. split; [done|].
      by exists count, w1.
  - apply wp_bind, wp_BAIL_IF_ERRPASS. cbn [Z.eqb].
    split; [done|]. by exists NULL.
Qed.
End OpenArchiveFacts.

Lemma wp_readAll_app {R} (len : nat) (bs rest : list byte)
    (Q : flow R (Z * list byte) -> world -> Prop) w :
  io_rest (w_io w) = bs ++ rest -> length bs = len ->
  Q (Next (1, bs)) (consumed len w) ->
  wp (__PHYSFS_readAll len) Q w.
Proof.
  intros Hrest <- HQ. unfold wp. by rewrite (readAll_ok bs rest w Hrest).
Qed.

Lemma readAll_app {R} (len : nat) (bs rest : list byte) w :
  io_rest (w_io w) = bs ++ rest -> length bs = len ->
  __PHYSFS_readAll (R:=R) len w = Some (Next (1, bs), consumed len w).
Proof. intros Hrest <-. by apply (readAll_ok bs rest). Qed.

Lemma io_rest_consumed_app (bs rest : list byte) (n : nat) w :
  io_rest (w_io w) = bs ++ rest -> length bs = n ->
  io_rest (w_io (consumed n w)) = rest.
Proof.
  intros Hrest <-. rewrite io_rest_consumed, Hrest. by rewrite drop_app_length.
Qed.

Lemma func_returns {R} (body : C R R) (r : R) w w1 :
  wp body (fun fl w' => fl = Return r /\ w' = w1) w ->
  func body w = Some (r, w1).
Proof.
  intros Hwp. apply wp_run in Hwp as (fl & w' & Hrun & -> & ->).
  unfold func. by rewrite Hrun.
Qed.

Section Header.
Context `{Host}.

(** A successful 4-byte read followed by its bail and conversion. *)
Ltac read_u32 Hrest Hlen :=
  eapply wp_bind, wp_readAll_app; [exact Hrest | exact Hlen |];
  apply wp_bind, wp_BAIL_IF_ERRPASS; cbn [Z.eqb];
  rewrite (swapULE32_host _ Hlen).

Lemma open_for_writing def name forWriting w :
  forWriting <> 0 ->
  VPK_openArchive def name forWriting w
  = Some (NULL, set_err PHYSFS_ERR_READ_ONLY w).
Proof.
  intros Hfw. apply func_returns.
  apply wp_bind, wp_BAIL_IF.
  apply Z.eqb_neq in Hfw. rewrite Hfw. done.
Qed.

Lemma open_magic_mismatch def name w (m rest : list byte) :
  io_rest (w_io w) = m ++ rest -> length m = 4%nat -> le_Z m <> VPK_SIG ->
  VPK_openArchive def name 0 w
  = Some (NULL, set_err PHYSFS_ERR_UNSUPPORTED (consumed 4 w)).
Proof.
  intros Hrest Hm Hsig. apply func_returns.
  apply wp_bind, wp_BAIL_IF. cbn [Z.eqb negb].
  read_u32 Hrest Hm.
  apply Z.eqb_neq in Hsig. rewrite Hsig. done.
Qed.

Lemma open_version_mismatch def name w (m v rest : list byte) :
  io_rest (w_io w) = m ++ v ++ rest ->
  length m = 4%nat -> length v = 4%nat ->
  le_Z m = VPK_SIG -> le_Z v <> 1 -> le_Z v <> 2 ->
  VPK_openArchive def name 0 w
  = Some (NULL, set_err PHYSFS_ERR_UNSUPPORTED (consumed 8 w)).
Proof.
  intros Hrest Hm Hv Hsig Hv1 Hv2. apply func_returns.
  apply wp_bind, wp_BAIL_IF. cbn [Z.eqb negb].
  read_u32 Hrest Hm. rewrite Hsig, Z.eqb_refl. cbn [negb].
  pose proof (io_rest_consumed_app _ _ _ _ Hrest Hm) as Hrest1.
  read_u32 Hrest1 Hv.
  apply Z.eqb_neq in Hv1, Hv2. rewrite Hv1, Hv2. cbn [negb andb].
  rewrite consumed_consumed. done.
Qed.

(** With the signature and a version 1 or 2 in place, the function sets
    [*claimed], reads the offset and the length of the directory and is
    left with the length check and the loading. *)
Lemma open_header def name w (m v o c rest : list byte) :
  io_rest (w_io w) = m ++ v ++ o ++ c ++ rest ->
  length m = 4%nat -> length v = 4%nat ->
  length o = 4%nat -> length c = 4%nat ->
  le_Z m = VPK_SIG -> le_Z v = 1 \/ le_Z v = 2 ->
  VPK_openArchive def name 0 w
  = func (exec BAIL_IF (negb (le_Z c mod 64 =? 0)) PHYSFS_ERR_CORRUPT NULL in
          VPK_openArchive_load def (le_Z o) (le_Z c / 64))
         (set_claimed 1 (consumed 16 w)).
Proof.
  intros Hrest Hm Hv Ho Hc Hsig Hver.
  pose proof (io_rest_consumed_app _ _ _ _ Hrest Hm) as Hrest1.
  pose proof (io_rest_consumed_app _ _ _ _ Hrest1 Hv) as Hrest2.
  pose proof (io_rest_consumed_app _ _ _ _ Hrest2 Ho) as Hrest3.
  unfold VPK_openArchive, func.
  match goal with
  | |- match ?a with _ => _ end = match ?b with _ => _ end =>
      enough (a = b) as -> by done
  end.
  unfold bind at 1. unfold BAIL_IF at 1. cbn [Z.eqb negb].
  rewrite (bind_Next _ _ _ _ _ (readAll_app 4 m _ w Hrest Hm)).
  unfold bind at 1. unfold BAIL_IF_ERRPASS at 1. cbn [Z.eqb].
  rewrite (swapULE32_host _ Hm), Hsig, Z.eqb_refl. cbn [negb].
  rewrite (bind_Next _ _ _ _ _ (readAll_app 4 v _ _ Hrest1 Hv)).
  unfold bind at 1. unfold BAIL_IF_ERRPASS at 1. cbn [Z.eqb].
  rewrite (swapULE32_host _ Hv).
  replace (negb (le_Z v =? 1) && negb (le_Z v =? 2)) with false
    by (destruct Hver as [-> | ->]; reflexivity).
  unfold bind at 1, store_claimed.
  rewrite (bind_Next _ _ _ _ _
             (readAll_app 4 o _ (set_claimed 1 _) Hrest2 Ho)).
  unfold bind at 1. unfold BAIL_IF_ERRPASS at 1. cbn [Z.eqb].
  rewrite (bind_Next _ _ _ _ _
             (readAll_app 4 c _ (consumed 4 (set_claimed 1 _)) Hrest3 Hc)).
  unfold bind at 1. unfold BAIL_IF_ERRPASS at 1. cbn [Z.eqb].
  rewrite (swapULE32_host _ Ho), (swapULE32_host _ Hc).
  change (consumed 4 (consumed 4 (set_claimed 1 ?w')))
    with (set_claimed 1 (consumed 4 (consumed 4 w'))).
  by rewrite !consumed_consumed.
Qed.
End Header.

Lemma func_returning {R} (body : C R R) (P : R -> world -> Prop) w :
  wp body (fun fl w' => exists r, fl = Return r /\ P r w') w ->
  exists r w', func body w = Some (r, w') /\ P r w'.
Proof.
  intros Hwp. apply wp_run in Hwp as (fl & w' & Hrun & r & -> & HP).
  exists r, w'. unfold func. by rewrite Hrun.
Qed.

Section Outcome.
Context `{Host}.

(** Every call of [VPK_openArchive] returns.  It answers [NULL] with the
    archives as they were, or a handle on which the loader returned 1;
    it sets [*claimed] exactly when it is opened for reading on a stream
    that holds the signature and a version 1 or 2. *)
Lemma VPK_openArchive_outcome def name forWriting w :
  exists p w',
    VPK_openArchive def name forWriting w = Some (p, w')
    /\ opened def w p w'
    /\ (declined forWriting w /\ p = NULL /\ w_claimed w' = w_claimed w
        \/ ~ declined forWriting w /\ w_claimed w' = 1).
Proof.
  unfold VPK_openArchive.
  apply (func_returning _
           (fun p w' =>
              opened def w p w'
              /\ (declined forWriting w /\ p = NULL
                    /\ w_claimed w' = w_claimed w
                  \/ ~ declined forWriting w /\ w_claimed w' = 1))).
  match goal with |- wp _ ?q _ => set (Q := q) end.
  assert (forall w', w_arcs w' = w_arcs w -> w_claimed w' = w_claimed w ->
                     declined forWriting w -> Q (Return NULL) w') as Hdecl.
  { intros w' Ha Hc Hd. exists NULL. split_and!; [done|done|]. by left. }
  apply wp_bind, wp_BAIL_IF.
  destruct (forWriting =? 0) eqn:Hfw; cbn [negb];
    [apply Z.eqb_eq in Hfw | apply Z.eqb_neq in Hfw;
                              apply Hdecl; [done|done|by left]].
  apply wp_bind, wp_readAll. intros rc m k Hk [[-> Hshort] | (-> & -> & ->)];
    apply wp_bind, wp_BAIL_IF_ERRPASS; cbn [Z.eqb].
  { apply Hdecl; [done|done|]. right; left. lia. }
  rewrite swapULE32_host by (rewrite length_take; unfold bytes_left in Hk; lia).
  fold (stream_magic w).
  destruct (stream_magic w =? VPK_SIG) eqn:Hsig; cbn [negb];
    [apply Z.eqb_eq in Hsig | apply Z.eqb_neq in Hsig;
                               apply Hdecl; [done|done|by right; right; left]].
  apply wp_bind, wp_readAll. intros rc v k' Hk' [[-> Hshort] | (-> & -> & ->)];
    apply wp_bind, wp_BAIL_IF_ERRPASS; cbn [Z.eqb].
  { apply Hdecl; [done|done|]. right; left.
    rewrite bytes_left_consumed in Hshort. lia. }
  rewrite bytes_left_consumed in Hk'.
  rewrite swapULE32_host
    by (rewrite length_take, io_rest_consumed, length_drop;
        unfold bytes_left in Hk'; lia).
  rewrite io_rest_consumed. fold (stream_version w).
  destruct (negb (stream_version w =? 1) && negb (stream_version w =? 2)) eqn:Hver.
  { apply andb_true_iff in Hver as [Hv1 Hv2].
    apply negb_true_iff, Z.eqb_neq in Hv1, Hv2.
    apply Hdecl; [done|done|]. by right; right; right. }
  assert (~ declined forWriting w) as Hclaim.
  { intros [?|[?|[?|[Hv1 Hv2]]]]; [done|lia|done|].
    apply Z.eqb_neq in Hv1, Hv2. rewrite Hv1, Hv2 in Hver. done. }
  assert (forall w', w_arcs w' = w_arcs w -> w_claimed w' = 1 ->
                     Q (Return NULL) w') as Hlate.
  { intros w' Ha Hc. exists NULL. split_and!; [done|done|]. by right. }
  apply wp_bind. unfold wp at 1, store_claimed.
  do 2 (apply wp_bind, wp_readAll; intros ? ? ? ? [[-> _] | (-> & -> & ->)];
        apply wp_bind, wp_BAIL_IF_ERRPASS; cbn [Z.eqb];
        [by apply Hlate|]).
  apply wp_bind, wp_BAIL_IF.
  match goal with |- if ?c then _ else _ => destruct c end;
    [by apply Hlate|].
  eapply wp_mono; [apply VPK_openArchive_load_opened|].
  intros fl w' (Hcl & p & -> & Hop). exists p. split_and!; [done|exact Hop|].
  right. split; [done|]. exact Hcl.
Qed.
End Outcome.

(** ** [VPK_openArchive], case by case *)

Lemma le_Z_nonneg (bs : list byte) : 0 <= le_Z bs.
Proof.
  induction bs as [|b bs IH]; simpl; [lia|]. pose proof (u8_range b). lia.
Qed.

Lemma wp_readAll_short {R} (len : nat)
    (Q : flow R (Z * list byte) -> world -> Prop) w :
  (bytes_left w < len)%nat ->
  Q (Next (0, io_rest (w_io w))) (consumed (bytes_left w) w) ->
  wp (__PHYSFS_readAll len) Q w.
Proof. intros Hlt HQ. unfold wp. by rewrite readAll_short. Qed.

Lemma wp_readAll_take {R} (len : nat)
    (Q : flow R (Z * list byte) -> world -> Prop) w :
  (len <= bytes_left w)%nat ->
  Q (Next (1, take len (io_rest (w_io w)))) (consumed len w) ->
  wp (__PHYSFS_readAll len) Q w.
Proof. intros Hle HQ. unfold wp. by rewrite readAll_take. Qed.

Lemma consumed_to_end (n : nat) w :
  (n <= bytes_left w)%nat ->
  consumed (bytes_left (consumed n w)) (consumed n w) = consumed (bytes_left w) w.
Proof.
  intros Hn. rewrite consumed_consumed, bytes_left_consumed.
  f_equal. lia.
Qed.

(** A stream that ends inside the header. *)
Lemma open_truncated `{Host} (def : LoadEntries) (name : list byte)
    (w : world) :
  (bytes_left w < 16)%nat ->
  ((4 <= bytes_left w)%nat -> stream_magic w = VPK_SIG) ->
  ((8 <= bytes_left w)%nat -> stream_version w = 1 \/ stream_version w = 2) ->
  VPK_openArchive def name 0 w
  = Some (NULL,
          if decide (8 <= bytes_left w)%nat
          then set_claimed 1 (consumed (bytes_left w) w)
          else consumed (bytes_left w) w).
Proof.
  intros Hshort Hsig Hver. apply func_returns.
  apply wp_bind, wp_BAIL_IF. cbn [Z.eqb negb].
  apply wp_bind.
  destruct (decide (4 <= bytes_left w)%nat) as [H4|H4].
  2: { apply wp_readAll_short; [lia|].
       apply wp_bind, wp_BAIL_IF_ERRPASS. cbn [Z.eqb].
       by rewrite decide_False by lia. }
  apply wp_readAll_take; [done|].
  apply wp_bind, wp_BAIL_IF_ERRPASS. cbn [Z.eqb].
  rewrite swapULE32_host by (rewrite length_take; unfold bytes_left in H4; lia).
  fold (stream_magic w). rewrite (Hsig H4), Z.eqb_refl. cbn [negb].
  apply wp_bind.
  destruct (decide (8 <= bytes_left w)%nat) as [H8|H8].
  2: { apply wp_readAll_short; [rewrite bytes_left_consumed; lia|].
       apply wp_bind, wp_BAIL_IF_ERRPASS. cbn [Z.eqb].
       split; [done|]. by apply consumed_to_end. }
  apply wp_readAll_take; [rewrite bytes_left_consumed; lia|].
  apply wp_bind, wp_BAIL_IF_ERRPASS. cbn [Z.eqb].
  rewrite swapULE32_host
    by (rewrite length_take, io_rest_consumed, length_drop;
        unfold bytes_left in H8; lia).
  rewrite io_rest_consumed. fold (stream_version w).
  assert (negb (stream_version w =? 1) && negb (stream_version w =? 2) = false)
    as -> by (destruct (Hver H8) as [-> | ->]; reflexivity).
  apply wp_bind. unfold wp at 1, store_claimed.
  rewrite consumed_consumed. change (4 + 4)%nat with 8%nat.
  apply wp_bind.
  destruct (decide (12 <= bytes_left w)%nat) as [H12|H12].
  2: { apply wp_readAll_short.
       { change (bytes_left (set_claimed 1 ?w0)) with (bytes_left w0).
         rewrite bytes_left_consumed. lia. }
       apply wp_bind, wp_BAIL_IF_ERRPASS. cbn [Z.eqb].
       split; [done|].
       change (bytes_left (set_claimed 1 ?w0)) with (bytes_left w0).
       change (consumed ?k (set_claimed 1 ?w0)) with (set_claimed 1 (consumed k w0)).
       by rewrite consumed_to_end by lia. }
  apply wp_readAll_take.
  { change (bytes_left (set_claimed 1 ?w0)) with (bytes_left w0).
    rewrite bytes_left_consumed. lia. }
  apply wp_bind, wp_BAIL_IF_ERRPASS. cbn [Z.eqb].
  change (consumed ?k (set_claimed 1 ?w0)) with (set_claimed 1 (consumed k w0)).
  rewrite consumed_consumed. change (8 + 4)%nat with 12%nat.
  apply wp_bind. apply wp_readAll_short.
  { change (bytes_left (set_claimed 1 ?w0)) with (bytes_left w0).
    rewrite bytes_left_consumed. lia. }
  apply wp_bind, wp_BAIL_IF_ERRPASS. cbn [Z.eqb].
  split; [done|].
  change (bytes_left (set_claimed 1 ?w0)) with (bytes_left w0).
  change (consumed ?k (set_claimed 1 ?w0)) with (set_claimed 1 (consumed k w0)).
  by rewrite consumed_to_end by lia.
Qed.

(** A directory offset that the seek refuses. *)
Lemma open_seek_refused `{Host} (def : LoadEntries) (name : list byte)
    (w : world) (m v o c rest : list byte) :
  io_rest (w_io w) = m ++ v ++ o ++ c ++ rest ->
  length m = 4%nat -> length v = 4%nat ->
  length o = 4%nat -> length c = 4%nat ->
  le_Z m = VPK_SIG -> le_Z v = 1 \/ le_Z v = 2 ->
  le_Z c mod 64 = 0 ->
  Z.of_nat (length (io_data (w_io w))) < le_Z o ->
  VPK_openArchive def name 0 w = Some (NULL, set_claimed 1 (consumed 16 w)).
Proof.
  intros Hrest Hm Hv Ho Hc Hsig Hver Hmod Hpast.
  rewrite (open_header def name w m v o c rest) by done.
  apply func_returns.
  apply wp_bind, wp_BAIL_IF. apply Z.eqb_eq in Hmod. rewrite Hmod. cbn [negb].
  unfold VPK_openArchive_load.
  apply wp_bind. unfold wp at 1, io_seek.
  rewrite decide_False by (simpl; lia).
  apply wp_bind, wp_BAIL_IF_ERRPASS. cbn [Z.eqb]. done.
Qed.

Lemma header_split w :
  (16 <= bytes_left w)%nat ->
  io_rest (w_io w)
  = take 4 (io_rest (w_io w)) ++ take 4 (drop 4 (io_rest (w_io w)))
    ++ take 4 (drop 8 (io_rest (w_io w))) ++ take 4 (drop 12 (io_rest (w_io w)))
    ++ drop 16 (io_rest (w_io w)).
Proof.
  intros _. generalize (io_rest (w_io w)). intros r.
  rewrite <- (take_drop 4 r) at 1.
  rewrite <- (take_drop 4 (drop 4 r)) at 1.
  rewrite <- (take_drop 4 (drop 4 (drop 4 r))) at 1.
  rewrite <- (take_drop 4 (drop 4 (drop 4 (drop 4 r)))) at 1.
  by rewrite !drop_drop.
Qed.

Section Cases.
Context `{Host}.

(** A directory length that is no multiple of 64. *)
Lemma open_bad_length def name w (m v o c rest : list byte) :
  io_rest (w_io w) = m ++ v ++ o ++ c ++ rest ->
  length m = 4%nat -> length v = 4%nat ->
  length o = 4%nat -> length c = 4%nat ->
  le_Z m = VPK_SIG -> le_Z v = 1 \/ le_Z v = 2 ->
  le_Z c mod 64 <> 0 ->
  VPK_openArchive def name 0 w
  = Some (NULL, set_err PHYSFS_ERR_CORRUPT (set_claimed 1 (consumed 16 w))).
Proof.
  intros Hrest Hm Hv Ho Hc Hsig Hver Hmod.
  rewrite (open_header def name w m v o c rest) by done.
  unfold func, bind, BAIL_IF. apply Z.eqb_neq in Hmod. by rewrite Hmod.
Qed.

(** An accepted header: the archive is created, the load runs from the
    directory with the count the header announces, and its result decides
    between the handle and the abandoned archive. *)
Lemma open_accepted def name w :
  header_accepted 0 w ->
  VPK_openArchive def name 0 w
  = match vpkLoadEntries def (stream_length w / 64) (fresh (dom (w_arcs w)))
                         (at_directory (fresh (dom (w_arcs w))) w) with
    | Some (rc, w2) =>
        if rc =? 0 then Some (NULL, abandoned (fresh (dom (w_arcs w))) w2)
        else Some (Some (fresh (dom (w_arcs w))), w2)
    | None => None
    end.
Proof.
  intros (_ & H16 & Hsig & Hver & Hmod & Hpos).
  pose proof (header_split w H16) as Hrest.
  assert (forall k, (k + 4 <= 16)%nat ->
                    length (take 4 (drop k (io_rest (w_io w)))) = 4%nat) as Hlen.
  { intros k Hk. rewrite length_take, length_drop. unfold bytes_left in H16. lia. }
  rewrite (open_header def name w _ _ _ _ _ Hrest);
    [|rewrite <- (drop_0 (io_rest (w_io w))); apply (Hlen 0%nat); lia
     |apply Hlen; lia|apply Hlen; lia|apply Hlen; lia|exact Hsig|exact Hver].
  fold (stream_length w). fold (stream_offset w).
  unfold func, bind at 1, BAIL_IF. apply Z.eqb_eq in Hmod. rewrite Hmod.
  cbn [negb]. unfold VPK_openArchive_load.
  unfold bind at 1, io_seek. rewrite decide_True; cycle 1.
  { split; [apply le_Z_nonneg|exact Hpos]. }
  unfold bind at 1, BAIL_IF_ERRPASS at 1. cbn [Z.eqb].
  unfold bind at 1, UNPK_openArchive. unfold bind at 1, BAIL_IF_ERRPASS at 1.
  cbn [is_null]. unfold bind at 1, call.
  change (set_arcs _ (set_io _ (set_claimed 1 (consumed 16 w))))
    with (at_directory (fresh (dom (w_arcs w))) w).
  change (fresh (dom (w_arcs (set_io _ (set_claimed 1 (consumed 16 w))))))
    with (fresh (dom (w_arcs w))).
  destruct (vpkLoadEntries def (stream_length w / 64) (fresh (dom (w_arcs w)))
              (at_directory (fresh (dom (w_arcs w))) w)) as [[rc w2]|]; [|done].
  destruct (rc =? 0); reflexivity.
Qed.

(** Every call of [VPK_openArchive] falls under exactly one of nine
    cases, each with its result. *)
Lemma VPK_openArchive_cases def name forWriting w :
  exists p w',
    VPK_openArchive def name forWriting w = Some (p, w')
    /\ (forWriting <> 0 /\ p = NULL /\ w' = set_err PHYSFS_ERR_READ_ONLY w
        \/ forWriting = 0
           /\ ((bytes_left w < 4)%nat
               /\ p = NULL /\ w' = consumed (bytes_left w) w
               \/ (4 <= bytes_left w)%nat /\ stream_magic w <> VPK_SIG
                  /\ p = NULL
                  /\ w' = set_err PHYSFS_ERR_UNSUPPORTED (consumed 4 w)
               \/ (4 <= bytes_left w < 8)%nat /\ stream_magic w = VPK_SIG
                  /\ p = NULL /\ w' = consumed (bytes_left w) w
               \/ (8 <= bytes_left w)%nat /\ stream_magic w = VPK_SIG
                  /\ ~ (stream_version w = 1 \/ stream_version w = 2)
                  /\ p = NULL
                  /\ w' = set_err PHYSFS_ERR_UNSUPPORTED (consumed 8 w)
               \/ (8 <= bytes_left w < 16)%nat /\ stream_magic w = VPK_SIG
                  /\ (stream_version w = 1 \/ stream_version w = 2)
                  /\ p = NULL
                  /\ w' = set_claimed 1 (consumed (bytes_left w) w)
               \/ (16 <= bytes_left w)%nat /\ stream_magic w = VPK_SIG
                  /\ (stream_version w = 1 \/ stream_version w = 2)
                  /\ stream_length w mod 64 <> 0
                  /\ p = NULL
                  /\ w' = set_err PHYSFS_ERR_CORRUPT
                            (set_claimed 1 (consumed 16 w))
               \/ (16 <= bytes_left w)%nat /\ stream_magic w = VPK_SIG
                  /\ (stream_version w = 1 \/ stream_version w = 2)
                  /\ stream_length w mod 64 = 0
                  /\ Z.of_nat (length (io_data (w_io w))) < stream_offset w
                  /\ p = NULL /\ w' = set_claimed 1 (consumed 16 w)
               \/ header_accepted forWriting w
                  /\ exists rc w2,
                       vpkLoadEntries def (stream_length w / 64)
                                      (fresh (dom (w_arcs w)))
                                      (at_directory (fresh (dom (w_arcs w))) w)
                       = Some (rc, w2)
                       /\ loaded (fresh (dom (w_arcs w)))
                                 (at_directory (fresh (dom (w_arcs w))) w) w2
                       /\ (rc = 0 /\ p = NULL
                           /\ w' = abandoned (fresh (dom (w_arcs w))) w2
                           \/ rc = 1 /\ p = Some (fresh (dom (w_arcs w)))
                              /\ w' = w2))).
Proof.
  destruct (decide (forWriting = 0)) as [->|Hfw]; cycle 1.
  { eexists _, _. split; [by apply open_for_writing|]. left. done. }
  assert (forall k, (k + 4 <= bytes_left w)%nat ->
                    length (take 4 (drop k (io_rest (w_io w)))) = 4%nat) as Hlen.
  { intros k Hk. rewrite length_take, length_drop. unfold bytes_left in Hk. lia. }
  assert (forall k, (k <= 16)%nat -> (bytes_left w < 16)%nat ->
            ((4 <= bytes_left w)%nat -> stream_magic w = VPK_SIG) ->
            ((8 <= bytes_left w)%nat ->
             stream_version w = 1 \/ stream_version w = 2) ->
            VPK_openArchive def name 0 w
            = Some (NULL,
                    if decide (8 <= bytes_left w)%nat
                    then set_claimed 1 (consumed (bytes_left w) w)
                    else consumed (bytes_left w) w)) as Hcut
    by (intros ? _; apply open_truncated).
  destruct (decide (4 <= bytes_left w)%nat) as [H4|H4]; cycle 1.
  { eexists _, _. split; [apply (Hcut 0%nat); [lia|lia|lia|lia]|].
    rewrite decide_False by lia. right. split; [done|]. left.
    split; [lia|done]. }
  destruct (decide (stream_magic w = VPK_SIG)) as [Hsig|Hsig]; cycle 1.
  { eexists _, _. split.
    - apply (open_magic_mismatch def name w (take 4 (io_rest (w_io w)))
               (drop 4 (io_rest (w_io w)))); [by rewrite take_drop| |exact Hsig].
      rewrite <- (drop_0 (io_rest (w_io w))). apply (Hlen 0%nat). lia.
    - right. split; [done|]. right; left. done. }
  destruct (le_lt_dec 8 (bytes_left w)) as [H8|H8]; cycle 1.
  { eexists _, _. split; [apply (Hcut 0%nat); [lia|lia|done|lia]|].
    rewrite decide_False by lia. right. split; [done|].
    right; right; left. split; [lia|done]. }
  destruct (decide (stream_version w = 1 \/ stream_version w = 2))
    as [Hver|Hver]; cycle 1.
  { eexists _, _. split.
    - apply (open_version_mismatch def name w (take 4 (io_rest (w_io w)))
               (take 4 (drop 4 (io_rest (w_io w))))
               (drop 4 (drop 4 (io_rest (w_io w)))));
        [by rewrite !take_drop| |apply Hlen; lia|exact Hsig
        |intros ?; apply Hver; by left|intros ?; apply Hver; by right].
      rewrite <- (drop_0 (io_rest (w_io w))). apply (Hlen 0%nat). lia.
    - right. split; [done|]. do 3 right; left. done. }
  destruct (decide (16 <= bytes_left w)%nat) as [H16|H16]; cycle 1.
  { eexists _, _. split; [apply (Hcut 0%nat); [lia|lia|done|done]|].
    rewrite decide_True by lia. right. split; [done|].
    do 4 right; left. split; [lia|done]. }
  pose proof (header_split w H16) as Hrest.
  destruct (decide (stream_length w mod 64 = 0)) as [Hmod|Hmod]; cycle 1.
  { eexists _, _. split.
    - apply (open_bad_length def name w _ _ _ _ _ Hrest);
        [|apply Hlen; lia|apply Hlen; lia|apply Hlen; lia|exact Hsig|exact Hver
         |exact Hmod].
      rewrite <- (drop_0 (io_rest (w_io w))). apply (Hlen 0%nat). lia.
    - right. split; [done|]. do 5 right; left. done. }
  destruct (decide (stream_offset w <= Z.of_nat (length (io_data (w_io w)))))
    as [Hpos|Hpos]; cycle 1.
  { eexists _, _. split.
    - apply (open_seek_refused def name w _ _ _ _ _ Hrest);
        [|apply Hlen; lia|apply Hlen; lia|apply Hlen; lia|exact Hsig|exact Hver
         |exact Hmod|fold (stream_offset w); lia].
      rewrite <- (drop_0 (io_rest (w_io w))). apply (Hlen 0%nat). lia.
    - right. split; [done|]. do 6 right; left. split_and!; try done. lia. }
  assert (header_accepted 0 w) as Hacc by done.
  rewrite (open_accepted def name w Hacc).
  destruct (vpkLoadEntries_total def (stream_length w / 64)
              (fresh (dom (w_arcs w))) (at_directory (fresh (dom (w_arcs w))) w))
    as (rc & w2 & Hrun & Hrc & Hld).
  rewrite Hrun. destruct Hrc as [-> | ->]; cbn [Z.eqb].
  - eexists _, _. split; [reflexivity|]. right. split; [done|]. do 7 right.
    split; [done|]. exists 0, w2. split; [done|]. split; [done|]. by left.
  - eexists _, _. split; [reflexivity|]. right. split; [done|]. do 7 right.
    split; [done|]. exists 1, w2. split; [done|]. split; [done|]. by right.
Qed.

(** The archive that the load began with is gone once it is abandoned,
    and the others never changed. *)
Lemma abandoned_restores w w2 :
  loaded (fresh (dom (w_arcs w))) (at_directory (fresh (dom (w_arcs w))) w) w2 ->
  w_arcs (abandoned (fresh (dom (w_arcs w))) w2) = w_arcs w.
Proof.
  intros [_ _ _ Harcs]. cbn [abandoned set_arcs w_arcs]. rewrite Harcs.
  cbn [at_directory w_arcs]. apply delete_insert_id.
  apply not_elem_of_dom, is_fresh.
Qed.
End Cases.

(** ** The tree walker, step by step *)

Lemma call_returns {R A} (f : fn A) (a : A) w w' :
  f w = Some (a, w') -> call (R:=R) f w = Some (Next a, w').
Proof. unfold call. by intros ->. Qed.

Lemma io_rest_after_string (s rest : list byte) w :
  io_rest (w_io w) = s ++ x00 :: rest ->
  io_rest (w_io (consumed (S (length s)) w)) = rest.
Proof.
  intros Hrest. apply (io_rest_consumed_app (s ++ [x00]) rest).
  - by rewrite <- app_assoc.
  - rewrite length_app. simpl. lia.
Qed.

Lemma hd_stored_nonzero (s dest : list byte) :
  s <> [] -> Forall (fun c => c <> x00) s ->
  (u8 (hd x00 (stored_at 0 (s ++ [x00]) dest)) =? 0) = false.
Proof.
  intros Hne Hnz. destruct s as [|c s]; [done|].
  simpl. apply Z.eqb_neq. rewrite u8_zero. by inversion Hnz.
Qed.

Lemma TreeWalk_buffers_ok_locals0 : buffers_ok TreeWalk.locals0.
Proof. done. Qed.

Section TreeWalkSteps.
Context `{Host}.
Import TreeWalk.

(** One iteration of the name loop over a name and its 18-byte record:
    the loop goes on when the terminator field holds 0xFFFF and bails
    with "corrupt" otherwise. *)
Lemma name_while_record fuel l w (s crc pre arc off sz rest : list byte) (t0 t1 : byte) :
  io_rest (w_io w)
  = s ++ x00 :: crc ++ pre ++ arc ++ off ++ sz ++ t0 :: t1 :: rest ->
  s <> [] -> Forall (fun c => c <> x00) s -> (length s < 256)%nat ->
  (256 <= length (name l))%nat ->
  length crc = 4%nat -> length pre = 2%nat -> length arc = 2%nat ->
  length off = 4%nat -> length sz = 4%nat ->
  name_while (S fuel) l w
  = if decide (t0 = xff /\ t1 = xff)
    then name_while fuel (locals_after_record l s crc pre arc off sz [t0; t1])
                    (consumed (length s + 19) w)
    else Some (Return 0,
               set_err PHYSFS_ERR_CORRUPT (consumed (length s + 19) w)).
Proof.
  intros Hrest Hne Hnz Hlen Hcap Hcrc Hpre Harc Hoff Hsz.
  cbn [name_while].
  rewrite (bind_Next _ _ _ _ _
             (call_returns _ _ _ _
                (vpkReadString_ok s _ (name l) 256 w Hrest Hnz Hlen Hcap))).
  unfold bind at 1. unfold BAIL_IF_ERRPASS at 1. cbn [Z.eqb].
  cbn [name set_name]. rewrite hd_stored_nonzero by done.
  pose proof (io_rest_after_string _ _ _ Hrest) as Hr1.
  pose proof (io_rest_consumed_app _ _ _ _ Hr1 Hcrc) as Hr2.
  pose proof (io_rest_consumed_app _ _ _ _ Hr2 Hpre) as Hr3.
  pose proof (io_rest_consumed_app _ _ _ _ Hr3 Harc) as Hr4.
  pose proof (io_rest_consumed_app _ _ _ _ Hr4 Hoff) as Hr5.
  pose proof (io_rest_consumed_app _ _ _ _ Hr5 Hsz) as Hr6.
  rewrite (bind_Next _ _ _ _ _ (readAll_app 4 crc _ _ Hr1 Hcrc)).
  unfold bind at 1. unfold BAIL_IF_ERRPASS at 1. cbn [Z.eqb].
  rewrite (bind_Next _ _ _ _ _ (readAll_app 2 pre _ _ Hr2 Hpre)).
  unfold bind at 1. unfold BAIL_IF_ERRPASS at 1. cbn [Z.eqb].
  rewrite (bind_Next _ _ _ _ _ (readAll_app 2 arc _ _ Hr3 Harc)).
  unfold bind at 1. unfold BAIL_IF_ERRPASS at 1. cbn [Z.eqb].
  rewrite (bind_Next _ _ _ _ _ (readAll_app 4 off _ _ Hr4 Hoff)).
  unfold bind at 1. unfold BAIL_IF_ERRPASS at 1. cbn [Z.eqb].
  rewrite (bind_Next _ _ _ _ _ (readAll_app 4 sz _ _ Hr5 Hsz)).
  unfold bind at 1. unfold BAIL_IF_ERRPASS at 1. cbn [Z.eqb].
  rewrite (bind_Next _ _ _ _ _
             (readAll_app 2 [t0; t1] rest _ Hr6 eq_refl)).
  unfold bind at 1. unfold BAIL_IF_ERRPASS at 1. cbn [Z.eqb].
  rewrite !consumed_consumed.
  replace (S (length s) + (4 + (2 + (2 + (4 + (4 + 2))))))%nat
    with (length s + 19)%nat by lia.
  unfold bind at 1. unfold BAIL_IF at 1.
  cbn [entry set_entry terminator set_terminator].
  destruct (host_Z [t0; t1] =? 0xFFFF) eqn:Hv; cbn [negb].
  - apply Z.eqb_eq, host_Z_16_ffff in Hv. rewrite decide_True by done. reflexivity.
  - rewrite decide_False; [done|].
    intros Ht. apply host_Z_16_ffff in Ht. rewrite Ht in Hv. done.
Qed.

Lemma read_segment (s rest dest : list byte) w :
  io_rest (w_io w) = s ++ x00 :: rest -> segment s ->
  length dest = 256%nat ->
  call (R:=Z) (vpkReadString dest 256) w
  = Some (Next (1, stored_at 0 (s ++ [x00]) dest), consumed (S (length s)) w)
  /\ (u8 (hd x00 (stored_at 0 (s ++ [x00]) dest)) =? 0) = false.
Proof.
  intros Hrest (Hne & Hnz & Hlen) Hcap. split.
  - apply call_returns, (vpkReadString_ok s rest); [done|done|done|lia].
  - by apply hd_stored_nonzero.
Qed.

Lemma read_sentinel (rest dest : list byte) w :
  io_rest (w_io w) = x00 :: rest ->
  length dest = 256%nat ->
  call (R:=Z) (vpkReadString dest 256) w
  = Some (Next (1, stored_at 0 [x00] dest), consumed 1 w).
Proof.
  intros Hrest Hcap.
  apply call_returns, (vpkReadString_ok [] rest); [done|done|simpl; lia|lia].
Qed.

Lemma length_stored_at_0 (bs dest : list byte) :
  (length bs <= length dest)%nat ->
  length (stored_at 0 bs dest) = length dest.
Proof.
  intros Hlen. unfold stored_at. simpl.
  rewrite length_app, length_drop. lia.
Qed.

Lemma buffers_ok_after_record l s crc pre arc off sz t :
  buffers_ok l -> (length s < 256)%nat ->
  buffers_ok (locals_after_record l s crc pre arc off sz t).
Proof.
  intros (He & Hd & Hn) Hlen. split_and!; [done|done|].
  simpl. rewrite length_stored_at_0; [done|].
  rewrite length_app. simpl. lia.
Qed.
End TreeWalkSteps.

(** ** The tree walker on a whole tree *)

Lemma length_enc_file (f : tree_file) :
  good_file f -> length (enc_file f) = (length (tf_name f) + 19)%nat.
Proof.
  intros (_ & Hc & Hp & Ha & Ho & Hs). unfold enc_file.
  rewrite length_app. simpl. rewrite !length_app, Hc, Hp, Ha, Ho, Hs. simpl. lia.
Qed.

Lemma length_enc_files (fs : list tree_file) :
  Forall good_file fs -> (length fs <= length (enc_files fs))%nat.
Proof.
  induction 1 as [|f fs Hf Hfs IH]; [done|].
  unfold enc_files in *. simpl. rewrite length_app, length_enc_file by done. lia.
Qed.

Lemma length_enc_dirs (ds : list tree_dir) :
  (length ds <= length (enc_dirs ds))%nat.
Proof.
  induction ds as [|d ds IH]; [done|].
  unfold enc_dirs, enc_dir in *. simpl. rewrite !length_app. simpl. lia.
Qed.

Section TreeWalkTree.
Context `{Host}.
Import TreeWalk.

Lemma buffers_ok_set_name (s : list byte) l :
buffers_ok l -> (length s <= 256)%nat ->
buffers_ok (set_name (stored_at 0 s (name l)) l).
Proof.
intros (He & Hd & Hn) Hs. split_and!; [done|done|].
simpl. rewrite length_stored_at_0; lia.
Qed.

Lemma buffers_ok_set_dir (s : list byte) l :
buffers_ok l -> (length s <= 256)%nat ->
buffers_ok (set_dir (stored_at 0 s (dir l)) l).
Proof.
intros (He & Hd & Hn) Hs. split_and!; [done| |done].
simpl. rewrite length_stored_at_0; lia.
Qed.

Lemma buffers_ok_set_ext (s : list byte) l :
buffers_ok l -> (length s <= 256)%nat ->
buffers_ok (set_ext (stored_at 0 s (ext l)) l).
Proof.
intros (He & Hd & Hn) Hs. split_and!; [|done|done].
simpl. rewrite length_stored_at_0; lia.
Qed.

Lemma length_segment_nul (s : list byte) :
segment s -> (length (s ++ [x00]) <= 256)%nat.
Proof. intros (_ & _ & Hlen). rewrite length_app. simpl. lia. Qed.

(** The name loop over the files of a directory and the empty name that
  ends them. *)
Lemma name_while_files : forall fs fuel l w X,
Forall good_file fs -> buffers_ok l -> (length fs < fuel)%nat ->
io_rest (w_io w) = enc_files fs ++ x00 :: X ->
exists l',
  buffers_ok l'
  /\ name_while fuel l w
     = Some (Next l', consumed (length (enc_files fs) + 1) w).
Proof.
induction fs as [|f fs IH]; intros fuel l w X Hfs Hl Hfuel Hrest;
  (destruct fuel as [|fuel]; [simpl in Hfuel; lia|]).
- exists (set_name (stored_at 0 [x00] (name l)) l).
  split; [apply buffers_ok_set_name; [done|simpl; lia]|].
  cbn [name_while].
  destruct Hl as (He & Hd & Hn).
  by rewrite (bind_Next _ _ _ _ _ (read_sentinel X (name l) w Hrest Hn)).
- inversion Hfs as [|? ? Hf Hfs']; subst.
  pose proof Hf as (Hs & Hc & Hp & Ha & Ho & Hz).
  assert (io_rest (w_io w)
          = tf_name f ++ x00 :: tf_crc f ++ tf_preload f ++ tf_archive f
            ++ tf_offset f ++ tf_size f ++ xff :: xff :: enc_files fs ++ x00 :: X)
    as Hrest'.
  { rewrite Hrest. unfold enc_files, enc_file. simpl.
    rewrite <- !app_assoc. simpl. by rewrite <- !app_assoc. }
  destruct Hs as (Hne & Hnz & Hlen). destruct Hl as (He & Hd & Hn).
  rewrite (name_while_record fuel l w _ _ _ _ _ _ _ xff xff Hrest')
    by (done || lia).
  rewrite decide_True by done.
  destruct (IH fuel
              (locals_after_record l (tf_name f) (tf_crc f) (tf_preload f)
                 (tf_archive f) (tf_offset f) (tf_size f) [xff; xff])
              (consumed (length (tf_name f) + 19) w) X)
    as (l' & Hl' & Hrun).
  + done.
  + by apply buffers_ok_after_record.
  + simpl in Hfuel. lia.
  + apply (io_rest_consumed_app (enc_file f)).
    * rewrite Hrest. unfold enc_files. simpl. by rewrite <- app_assoc.
    * by apply length_enc_file.
  + exists l'. split; [done|]. rewrite Hrun, consumed_consumed.
    do 3 f_equal. unfold enc_files. simpl.
    rewrite length_app, length_enc_file by done. lia.
Qed.

(** The directory loop over the directories of an extension and the empty
  string that ends them. *)
Lemma dir_while_dirs : forall ds fuel l w X,
Forall good_dir ds -> buffers_ok l -> (length (enc_dirs ds) < fuel)%nat ->
io_rest (w_io w) = enc_dirs ds ++ x00 :: X ->
exists l',
  buffers_ok l'
  /\ dir_while fuel l w
     = Some (Next l', consumed (length (enc_dirs ds) + 1) w).
Proof.
induction ds as [|d ds IH]; intros fuel l w X Hds Hl Hfuel Hrest;
  (destruct fuel as [|fuel]; [simpl in Hfuel; lia|]).
- exists (set_dir (stored_at 0 [x00] (dir l)) l).
  split; [apply buffers_ok_set_dir; [done|simpl; lia]|].
  cbn [dir_while].
  destruct Hl as (He & Hd & Hn).
  by rewrite (bind_Next _ _ _ _ _ (read_sentinel X (dir l) w Hrest Hd)).
- inversion Hds as [|? ? [Hs Hfs] Hds']; subst.
  assert (length (enc_dirs (d :: ds))
          = (length (td_name d) + 1 + (length (enc_files (td_files d)) + 1)
             + length (enc_dirs ds))%nat) as Hlen.
  { unfold enc_dirs, enc_dir. simpl. rewrite !length_app. simpl.
    rewrite length_app. simpl. lia. }
  assert (io_rest (w_io w)
          = td_name d ++ x00 :: enc_files (td_files d)
            ++ x00 :: enc_dirs ds ++ x00 :: X) as Hrest'.
  { rewrite Hrest. unfold enc_dirs, enc_dir. simpl.
    rewrite <- !app_assoc. simpl. by rewrite <- !app_assoc. }
  pose proof Hl as (He & Hd & Hn).
  destruct (read_segment _ _ (dir l) w Hrest' Hs Hd) as [Hread Hhd].
  cbn [dir_while]. rewrite (bind_Next _ _ _ _ _ Hread).
  unfold bind at 1. unfold BAIL_IF_ERRPASS at 1. cbn [Z.eqb dir set_dir].
  rewrite Hhd.
  pose proof (length_enc_files _ Hfs) as Hcount.
  destruct (name_while_files (td_files d) fuel
              (set_dir (stored_at 0 (td_name d ++ [x00]) (dir l)) l)
              (consumed (S (length (td_name d))) w)
              (enc_dirs ds ++ x00 :: X))
    as (l1 & Hl1 & Hrun1).
  + done.
  + apply buffers_ok_set_dir; [done|by apply length_segment_nul].
  + lia.
  + by apply (io_rest_after_string _ _ _ Hrest').
  + rewrite (bind_Next _ _ _ _ _ Hrun1), consumed_consumed.
    destruct (IH fuel l1
                (consumed (S (length (td_name d))
                           + (length (enc_files (td_files d)) + 1)) w) X)
      as (l2 & Hl2 & Hrun2).
    * done.
    * done.
    * lia.
    * apply (io_rest_consumed_app
               (td_name d ++ x00 :: enc_files (td_files d) ++ [x00])).
      -- rewrite Hrest'. rewrite <- !app_assoc. simpl.
         by rewrite <- !app_assoc.
      -- rewrite length_app. simpl. rewrite length_app. simpl. lia.
    * exists l2. split; [done|]. rewrite Hrun2, consumed_consumed.
      do 3 f_equal. lia.
Qed.

(** The extension loop over a whole tree. *)
Lemma ext_while_exts : forall es fuel l w X,
Forall good_ext es -> buffers_ok l -> (length (enc_exts es) < fuel)%nat ->
io_rest (w_io w) = enc_exts es ++ x00 :: X ->
exists l',
  buffers_ok l'
  /\ ext_while fuel l w
     = Some (Next l', consumed (length (enc_exts es) + 1) w).
Proof.
induction es as [|e es IH]; intros fuel l w X Hes Hl Hfuel Hrest;
  (destruct fuel as [|fuel]; [simpl in Hfuel; lia|]).
- exists (set_ext (stored_at 0 [x00] (ext l)) l).
  split; [apply buffers_ok_set_ext; [done|simpl; lia]|].
  cbn [ext_while].
  destruct Hl as (He & Hd & Hn).
  by rewrite (bind_Next _ _ _ _ _ (read_sentinel X (ext l) w Hrest He)).
- inversion Hes as [|? ? [Hs Hds] Hes']; subst.
  assert (length (enc_exts (e :: es))
          = (length (te_name e) + 1 + (length (enc_dirs (te_dirs e)) + 1)
             + length (enc_exts es))%nat) as Hlen.
  { unfold enc_exts, enc_ext. simpl. rewrite !length_app. simpl.
    rewrite length_app. simpl. lia. }
  assert (io_rest (w_io w)
          = te_name e ++ x00 :: enc_dirs (te_dirs e)
            ++ x00 :: enc_exts es ++ x00 :: X) as Hrest'.
  { rewrite Hrest. unfold enc_exts, enc_ext. simpl.
    rewrite <- !app_assoc. simpl. by rewrite <- !app_assoc. }
  pose proof Hl as (He & Hd & Hn).
  destruct (read_segment _ _ (ext l) w Hrest' Hs He) as [Hread Hhd].
  cbn [ext_while]. rewrite (bind_Next _ _ _ _ _ Hread).
  unfold bind at 1. unfold BAIL_IF_ERRPASS at 1. cbn [Z.eqb ext set_ext].
  rewrite Hhd.
  destruct (dir_while_dirs (te_dirs e) fuel
              (set_ext (stored_at 0 (te_name e ++ [x00]) (ext l)) l)
              (consumed (S (length (te_name e))) w)
              (enc_exts es ++ x00 :: X))
    as (l1 & Hl1 & Hrun1).
  + done.
  + apply buffers_ok_set_ext; [done|by apply length_segment_nul].
  + lia.
  + by apply (io_rest_after_string _ _ _ Hrest').
  + rewrite (bind_Next _ _ _ _ _ Hrun1), consumed_consumed.
    destruct (IH fuel l1
                (consumed (S (length (te_name e))
                           + (length (enc_dirs (te_dirs e)) + 1)) w) X)
      as (l2 & Hl2 & Hrun2).
    * done.
    * done.
    * lia.
    * apply (io_rest_consumed_app
               (te_name e ++ x00 :: enc_dirs (te_dirs e) ++ [x00])).
      -- rewrite Hrest'. rewrite <- !app_assoc. simpl.
         by rewrite <- !app_assoc.
      -- rewrite length_app. simpl. rewrite length_app. simpl. lia.
    * exists l2. split; [done|]. rewrite Hrun2, consumed_consumed.
      do 3 f_equal. lia.
Qed.

(** *** Failures inside a tree *)

(** A failure at the head of the name loop, after whole files. *)
Lemma skip_files r Q : forall fs w R,
Forall good_file fs ->
io_rest (w_io w) = enc_files fs ++ R ->
head_returns name_while r Q (consumed (length (enc_files fs)) w) ->
head_returns name_while r Q w.
Proof.
induction fs as [|f fs IH]; intros w R Hfs Hrest Htail.
- by rewrite consumed_0 in Htail.
- intros fuel l Hl Hfuel. destruct fuel as [|fuel]; [lia|].
  inversion Hfs as [|? ? Hf Hfs']; subst.
  pose proof Hf as (Hs & Hc & Hp & Ha & Ho & Hz).
  assert (io_rest (w_io w)
          = tf_name f ++ x00 :: tf_crc f ++ tf_preload f ++ tf_archive f
            ++ tf_offset f ++ tf_size f ++ xff :: xff :: enc_files fs ++ R)
    as Hrest'.
  { rewrite Hrest. unfold enc_files, enc_file. simpl.
    rewrite <- !app_assoc. simpl. by rewrite <- !app_assoc. }
  pose proof Hs as (Hne & Hnz & Hlen). pose proof Hl as (He & Hd & Hn).
  rewrite (name_while_record fuel l w _ _ _ _ _ _ _ xff xff Hrest')
    by (done || lia).
  rewrite decide_True by done.
  assert (length (enc_files (f :: fs))
          = (length (tf_name f) + 19 + length (enc_files fs))%nat) as Hlen'.
  { unfold enc_files. simpl. by rewrite length_app, length_enc_file. }
  assert (length (tf_name f) + 19 <= bytes_left w)%nat as Hfits.
  { unfold bytes_left. rewrite Hrest, length_app, Hlen'. lia. }
  apply (IH (consumed (length (tf_name f) + 19) w) R).
  + done.
  + apply (io_rest_consumed_app (enc_file f)).
    * rewrite Hrest. unfold enc_files. simpl. by rewrite <- app_assoc.
    * by apply length_enc_file.
  + by rewrite consumed_consumed, <- Hlen'.
  + by apply buffers_ok_after_record.
  + rewrite bytes_left_consumed. lia.
Qed.

(** A failure at the head of the name loop, seen from the directory loop
  that enters it. *)
Lemma enter_dir r Q (d R : list byte) w :
segment d ->
io_rest (w_io w) = d ++ x00 :: R ->
head_returns name_while r Q (consumed (S (length d)) w) ->
head_returns dir_while r Q w.
Proof.
intros Hs Hrest Htail fuel l Hl Hfuel. destruct fuel as [|fuel]; [lia|].
pose proof Hl as (He & Hd & Hn).
destruct (read_segment _ _ (dir l) w Hrest Hs Hd) as [Hread Hhd].
cbn [dir_while]. rewrite (bind_Next _ _ _ _ _ Hread).
unfold bind at 1. unfold BAIL_IF_ERRPASS at 1. cbn [Z.eqb dir set_dir].
rewrite Hhd.
assert (S (length d) <= bytes_left w)%nat as Hfits.
{ unfold bytes_left. rewrite Hrest, length_app. simpl. lia. }
destruct (Htail fuel (set_dir (stored_at 0 (d ++ [x00]) (dir l)) l))
  as (w' & Hrun & HQ).
- apply buffers_ok_set_dir; [done|by apply length_segment_nul].
- rewrite bytes_left_consumed. lia.
- exists w'. by rewrite (bind_Return _ _ _ _ _ Hrun).
Qed.

(** A failure at the head of the directory loop, after whole
  directories. *)
Lemma skip_dirs r Q : forall ds w R,
Forall good_dir ds ->
io_rest (w_io w) = enc_dirs ds ++ R ->
head_returns dir_while r Q (consumed (length (enc_dirs ds)) w) ->
head_returns dir_while r Q w.
Proof.
induction ds as [|d ds IH]; intros w R Hds Hrest Htail.
- by rewrite consumed_0 in Htail.
- intros fuel l Hl Hfuel. destruct fuel as [|fuel]; [lia|].
  inversion Hds as [|? ? [Hs Hfs] Hds']; subst.
  assert (length (enc_dirs (d :: ds))
          = (length (td_name d) + 1 + (length (enc_files (td_files d)) + 1)
             + length (enc_dirs ds))%nat) as Hlen.
  { unfold enc_dirs, enc_dir. simpl. rewrite !length_app. simpl.
    rewrite length_app. simpl. lia. }
  assert (io_rest (w_io w)
          = td_name d ++ x00 :: enc_files (td_files d)
            ++ x00 :: enc_dirs ds ++ R) as Hrest'.
  { rewrite Hrest. unfold enc_dirs, enc_dir. simpl.
    rewrite <- !app_assoc. simpl. by rewrite <- !app_assoc. }
  assert (length (enc_dirs (d :: ds)) <= bytes_left w)%nat as Hfits.
  { unfold bytes_left. rewrite Hrest, length_app. lia. }
  pose proof Hl as (He & Hd & Hn).
  destruct (read_segment _ _ (dir l) w Hrest' Hs Hd) as [Hread Hhd].
  cbn [dir_while]. rewrite (bind_Next _ _ _ _ _ Hread).
  unfold bind at 1. unfold BAIL_IF_ERRPASS at 1. cbn [Z.eqb dir set_dir].
  rewrite Hhd.
  pose proof (length_enc_files _ Hfs) as Hcount.
  destruct (name_while_files (td_files d) fuel
              (set_dir (stored_at 0 (td_name d ++ [x00]) (dir l)) l)
              (consumed (S (length (td_name d))) w)
              (enc_dirs ds ++ R))
    as (l1 & Hl1 & Hrun1).
  + done.
  + apply buffers_ok_set_dir; [done|by apply length_segment_nul].
  + lia.
  + by apply (io_rest_after_string _ _ _ Hrest').
  + rewrite (bind_Next _ _ _ _ _ Hrun1), consumed_consumed.
    apply (IH (consumed (S (length (td_name d))
                         + (length (enc_files (td_files d)) + 1)) w) R).
    * done.
    * apply (io_rest_consumed_app
               (td_name d ++ x00 :: enc_files (td_files d) ++ [x00])).
      -- rewrite Hrest'. rewrite <- !app_assoc. simpl.
         by rewrite <- !app_assoc.
      -- rewrite length_app. simpl. rewrite length_app. simpl. lia.
    * rewrite consumed_consumed.
      by replace (S (length (td_name d))
                  + (length (enc_files (td_files d)) + 1)
                  + length (enc_dirs ds))%nat
           with (length (enc_dirs (d :: ds))) by lia.
    * done.
    * rewrite bytes_left_consumed. lia.
Qed.

(** A failure at the head of the directory loop, seen from the extension
  loop that enters it. *)
Lemma enter_ext r Q (e R : list byte) w :
segment e ->
io_rest (w_io w) = e ++ x00 :: R ->
head_returns dir_while r Q (consumed (S (length e)) w) ->
head_returns ext_while r Q w.
Proof.
intros Hs Hrest Htail fuel l Hl Hfuel. destruct fuel as [|fuel]; [lia|].
pose proof Hl as (He & Hd & Hn).
destruct (read_segment _ _ (ext l) w Hrest Hs He) as [Hread Hhd].
cbn [ext_while]. rewrite (bind_Next _ _ _ _ _ Hread).
unfold bind at 1. unfold BAIL_IF_ERRPASS at 1. cbn [Z.eqb ext set_ext].
rewrite Hhd.
assert (S (length e) <= bytes_left w)%nat as Hfits.
{ unfold bytes_left. rewrite Hrest, length_app. simpl. lia. }
destruct (Htail fuel (set_ext (stored_at 0 (e ++ [x00]) (ext l)) l))
  as (w' & Hrun & HQ).
- apply buffers_ok_set_ext; [done|by apply length_segment_nul].
- rewrite bytes_left_consumed. lia.
- exists w'. by rewrite (bind_Return _ _ _ _ _ Hrun).
Qed.

(** A failure at the head of the extension loop, after whole
  extensions. *)
Lemma skip_exts r Q : forall es w R,
Forall good_ext es ->
io_rest (w_io w) = enc_exts es ++ R ->
head_returns ext_while r Q (consumed (length (enc_exts es)) w) ->
head_returns ext_while r Q w.
Proof.
induction es as [|e es IH]; intros w R Hes Hrest Htail.
- by rewrite consumed_0 in Htail.
- intros fuel l Hl Hfuel. destruct fuel as [|fuel]; [lia|].
  inversion Hes as [|? ? [Hs Hds] Hes']; subst.
  assert (length (enc_exts (e :: es))
          = (length (te_name e) + 1 + (length (enc_dirs (te_dirs e)) + 1)
             + length (enc_exts es))%nat) as Hlen.
  { unfold enc_exts, enc_ext. simpl. rewrite !length_app. simpl.
    rewrite length_app. simpl. lia. }
  assert (io_rest (w_io w)
          = te_name e ++ x00 :: enc_dirs (te_dirs e)
            ++ x00 :: enc_exts es ++ R) as Hrest'.
  { rewrite Hrest. unfold enc_exts, enc_ext. simpl.
    rewrite <- !app_assoc. simpl. by rewrite <- !app_assoc. }
  assert (length (enc_exts (e :: es)) <= bytes_left w)%nat as Hfits.
  { unfold bytes_left. rewrite Hrest, length_app. lia. }
  pose proof Hl as (He & Hd & Hn).
  destruct (read_segment _ _ (ext l) w Hrest' Hs He) as [Hread Hhd].
  cbn [ext_while]. rewrite (bind_Next _ _ _ _ _ Hread).
  unfold bind at 1. unfold BAIL_IF_ERRPASS at 1. cbn [Z.eqb ext set_ext].
  rewrite Hhd.
  destruct (dir_while_dirs (te_dirs e) fuel
              (set_ext (stored_at 0 (te_name e ++ [x00]) (ext l)) l)
              (consumed (S (length (te_name e))) w)
              (enc_exts es ++ R))
    as (l1 & Hl1 & Hrun1).
  + done.
  + apply buffers_ok_set_ext; [done|by apply length_segment_nul].
  + lia.
  + by apply (io_rest_after_string _ _ _ Hrest').
  + rewrite (bind_Next _ _ _ _ _ Hrun1), consumed_consumed.
    apply (IH (consumed (S (length (te_name e))
                         + (length (enc_dirs (te_dirs e)) + 1)) w) R).
    * done.
    * apply (io_rest_consumed_app
               (te_name e ++ x00 :: enc_dirs (te_dirs e) ++ [x00])).
      -- rewrite Hrest'. rewrite <- !app_assoc. simpl.
         by rewrite <- !app_assoc.
      -- rewrite length_app. simpl. rewrite length_app. simpl. lia.
    * rewrite consumed_consumed.
      by replace (S (length (te_name e))
                  + (length (enc_dirs (te_dirs e)) + 1)
                  + length (enc_exts es))%nat
           with (length (enc_exts (e :: es))) by lia.
    * done.
    * rewrite bytes_left_consumed. lia.
Qed.

(** A failure at the head of the extension loop is the function's. *)
Lemma load_returns r Q (count : Z) (arc : nat) w :
head_returns ext_while r Q w ->
exists w', TreeWalk.vpkLoadEntries count arc w = Some (r, w') /\ Q w'.
Proof.
intros Htail.
destruct (Htail (S (bytes_left w)) locals0 TreeWalk_buffers_ok_locals0
            ltac:(lia)) as (w' & Hrun & HQ).
exists w'. split; [|done].
unfold TreeWalk.vpkLoadEntries, func. fold (bytes_left w).
by rewrite (bind_Return _ _ _ _ _ Hrun).
Qed.

(** On every well-formed tree the walker returns 1 at the end of the tree,
  and the archives are as they were: nothing is registered. *)
Lemma TreeWalk_decodes_tree (es : list tree_ext) (count : Z) (arc : nat) w X :
Forall good_ext es ->
io_rest (w_io w) = enc_tree es ++ X ->
TreeWalk.vpkLoadEntries count arc w
= Some (1, consumed (length (enc_tree es)) w).
Proof.
intros Hes Hrest. unfold enc_tree in *. rewrite <- app_assoc in Hrest.
destruct (ext_while_exts es (S (bytes_left w)) locals0 w X Hes
            TreeWalk_buffers_ok_locals0) as (l' & _ & Hrun).
- unfold bytes_left. rewrite Hrest, length_app. lia.
- done.
- unfold TreeWalk.vpkLoadEntries, func. unfold bind at 1.
  fold (bytes_left w). rewrite Hrun. by rewrite length_app.
Qed.
End TreeWalkTree.

Example chair_tree_is_enc_tree : chair_tree xff xff = enc_tree chair_exts.
Proof. reflexivity. Qed.

(** With the tree-walking loader, an archive whose header passes the
    checks and whose offset points at a well-formed tree is opened, and
    its registry is empty however many files the tree names. *)
Lemma tree_archive_opens_empty `{Host} (name : list byte) (w : world)
    (m v o c rest X : list byte) (es : list tree_ext) :
  io_rest (w_io w) = m ++ v ++ o ++ c ++ rest ->
  length m = 4%nat -> length v = 4%nat ->
  length o = 4%nat -> length c = 4%nat ->
  le_Z m = VPK_SIG -> le_Z v = 1 \/ le_Z v = 2 ->
  le_Z c mod 64 = 0 ->
  drop (Z.to_nat (le_Z o)) (io_data (w_io w)) = enc_tree es ++ X ->
  Forall good_ext es ->
  VPK_openArchive UseTreeWalk name 0 w
  = Some (Some (fresh (dom (w_arcs w))),
          mkWorld (mkIo (io_data (w_io w))
                        (Z.to_nat (le_Z o) + length (enc_tree es)))
                  (w_err w) 1
                  (<[fresh (dom (w_arcs w)) := []]> (w_arcs w))).
Proof.
  intros Hrest Hm Hv Ho Hc Hsig Hver Hmod Htree Hes.
  rewrite (open_header UseTreeWalk name w m v o c rest) by done.
  unfold func, bind at 1, BAIL_IF. apply Z.eqb_eq in Hmod. rewrite Hmod.
  cbn [negb]. unfold VPK_openArchive_load.
  unfold bind at 1, io_seek. rewrite decide_True; cycle 1.
  { split; [apply le_Z_nonneg|]. cbn [w_io set_claimed consumed set_io io_advance io_data].
    assert (Z.to_nat (le_Z o) < length (io_data (w_io w)))%nat; [|lia].
    apply Nat.nle_gt. intros Hge. rewrite drop_ge in Htree by done.
    unfold enc_tree in Htree. by destruct (enc_exts es). }
  unfold bind at 1, BAIL_IF_ERRPASS at 1. cbn [Z.eqb].
  unfold bind at 1, UNPK_openArchive. unfold bind at 1, BAIL_IF_ERRPASS at 1.
  cbn [is_null]. unfold bind at 1, call, vpkLoadEntries.
  erewrite (TreeWalk_decodes_tree es); [|done|exact Htree].
  reflexivity.
Qed.

Section Unterminated.
Context `{Host}.
Import TreeWalk.

Lemma call_read_no_nul (dest : list byte) w :
  no_nul_within 256 w ->
  exists dest' w',
    call (R:=Z) (vpkReadString dest 256) w = Some (Next (0, dest'), w').
Proof.
  intros Hnn. destruct (vpkReadString_no_nul dest 256 w Hnn) as (d & w' & Hrun).
  exists d, w'. by apply call_returns.
Qed.

Lemma name_while_no_nul fuel l w :
  no_nul_within 256 w ->
  exists w', name_while (S fuel) l w = Some (Return 0, w').
Proof.
  intros Hnn. destruct (call_read_no_nul (name l) w Hnn) as (d & w' & Hrun).
  exists w'. cbn [name_while]. by rewrite (bind_Next _ _ _ _ _ Hrun).
Qed.

Lemma dir_while_no_nul fuel l w :
  no_nul_within 256 w ->
  exists w', dir_while (S fuel) l w = Some (Return 0, w').
Proof.
  intros Hnn. destruct (call_read_no_nul (dir l) w Hnn) as (d & w' & Hrun).
  exists w'. cbn [dir_while]. by rewrite (bind_Next _ _ _ _ _ Hrun).
Qed.

Lemma ext_while_no_nul fuel l w :
  no_nul_within 256 w ->
  exists w', ext_while (S fuel) l w = Some (Return 0, w').
Proof.
  intros Hnn. destruct (call_read_no_nul (ext l) w Hnn) as (d & w' & Hrun).
  exists w'. cbn [ext_while]. by rewrite (bind_Next _ _ _ _ _ Hrun).
Qed.
End Unterminated.

Section TreeWalkFailures.
Context `{Host}.
Import TreeWalk.

Ltac same_position Htail :=
match goal with
| |- head_returns _ _ _ (consumed ?a ?w) =>
    match type of Htail with
    | head_returns _ _ _ (consumed ?b w) =>
        replace a with b by lia; exact Htail
    end
end.

(** A failure at the head of any loop, reached over a well-formed prefix,
  is the failure of the whole load. *)
Lemma failure_at_head (h : loop_head) es e ds d fs (R : list byte) r Q
  (count : Z) (arc : nat) w :
good_prefix h es e ds d fs ->
io_rest (w_io w) = walked_prefix h es e ds d fs ++ R ->
head_returns (head_loop h) r Q
             (consumed (length (walked_prefix h es e ds d fs)) w) ->
exists w', TreeWalk.vpkLoadEntries count arc w = Some (r, w') /\ Q w'.
Proof.
intros Hgood Hrest Htail. apply load_returns.
destruct h; simpl in Hgood, Hrest, Htail.
- by apply (skip_exts r Q es w R).
- destruct Hgood as (Hes & He & Hds).
  repeat first [rewrite <- app_assoc in Hrest | progress simpl in Hrest].
  apply (skip_exts r Q es w _ Hes Hrest).
  pose proof (io_rest_consumed_app _ _ _ _ Hrest eq_refl) as Hrest1.
  apply (enter_ext r Q e _ _ He Hrest1).
  pose proof (io_rest_after_string _ _ _ Hrest1) as Hrest2.
  apply (skip_dirs r Q ds _ R Hds Hrest2).
  rewrite !consumed_consumed.
  rewrite !length_app in Htail. simpl in Htail.
  same_position Htail.
- destruct Hgood as (Hes & He & Hds & Hd & Hfs).
  repeat first [rewrite <- app_assoc in Hrest | progress simpl in Hrest].
  apply (skip_exts r Q es w _ Hes Hrest).
  pose proof (io_rest_consumed_app _ _ _ _ Hrest eq_refl) as Hrest1.
  apply (enter_ext r Q e _ _ He Hrest1).
  pose proof (io_rest_after_string _ _ _ Hrest1) as Hrest2.
  apply (skip_dirs r Q ds _ _ Hds Hrest2).
  pose proof (io_rest_consumed_app _ _ _ _ Hrest2 eq_refl) as Hrest3.
  apply (enter_dir r Q d _ _ Hd Hrest3).
  pose proof (io_rest_after_string _ _ _ Hrest3) as Hrest4.
  apply (skip_files r Q fs _ R Hfs Hrest4).
  rewrite !consumed_consumed.
  rewrite !length_app in Htail. simpl in Htail.
  rewrite !length_app in Htail. simpl in Htail.
  same_position Htail.
Qed.

(** A record with a wrong terminator fails the name loop. *)
Lemma bad_record_returns w (s crc pre arc off sz rest : list byte) (t0 t1 : byte) :
io_rest (w_io w)
= s ++ x00 :: crc ++ pre ++ arc ++ off ++ sz ++ t0 :: t1 :: rest ->
segment s ->
length crc = 4%nat -> length pre = 2%nat -> length arc = 2%nat ->
length off = 4%nat -> length sz = 4%nat ->
~ (t0 = xff /\ t1 = xff) ->
head_returns name_while 0
  (fun w' => w' = set_err PHYSFS_ERR_CORRUPT (consumed (length s + 19) w)) w.
Proof.
intros Hrest (Hne & Hnz & Hlen) Hcrc Hpre Harc Hoff Hsz Hterm fuel l
       (He & Hd & Hn) Hfuel.
destruct fuel as [|fuel]; [lia|].
rewrite (name_while_record fuel l w s crc pre arc off sz rest t0 t1)
  by (done || lia).
rewrite decide_False by done. eauto.
Qed.

(** A string without terminator fails whichever loop reads it. *)
Lemma unterminated_returns (h : loop_head) w :
no_nul_within 256 w ->
head_returns (head_loop h) 0 (fun _ => True) w.
Proof.
intros Hnn fuel l Hl Hfuel. destruct fuel as [|fuel]; [lia|].
destruct h; simpl.
- destruct (ext_while_no_nul fuel l w Hnn) as (w' & Hrun). eauto.
- destruct (dir_while_no_nul fuel l w Hnn) as (w' & Hrun). eauto.
- destruct (name_while_no_nul fuel l w Hnn) as (w' & Hrun). eauto.
Qed.
End TreeWalkFailures.

(** * The claims *)

(** The path the walker assembles for the scenario's file, which it then
    leaves unused. *)
Example chair_path_assembled :
  TreeWalk.snprintf_path 1024 (bytes "models/props" ++ [x00])
                         (bytes "chair" ++ [x00]) (bytes "txt" ++ [x00])
  = bytes "models/props/chair.txt" ++ [x00].
Proof. reflexivity. Qed.

(** C9: with a nonzero write-intent flag [VPK_openArchive] returns [NULL]
    with the read-only error at once: the stream, [*claimed] and the
    archives are as they were, whatever the stream holds. *)
Theorem write_intent_rejected `{Host} (def : LoadEntries) (name : list byte)
    (forWriting : Z) (w : world) :
  forWriting <> 0 ->
  exists w',
    VPK_openArchive def name forWriting w = Some (NULL, w')
    /\ w_err w' = Some PHYSFS_ERR_READ_ONLY
    /\ w_io w' = w_io w
    /\ w_claimed w' = w_claimed w
    /\ w_arcs w' = w_arcs w.
Proof.
  intros Hfw. exists (set_err PHYSFS_ERR_READ_ONLY w).
  split; [by apply open_for_writing|done].
Qed.

Lemma write_intent_rejected_witness :
  1 <> 0
  /\ exists w',
       VPK_openArchive (H:=little_endian_host) UseTreeWalk (bytes "pak01_dir.vpk") 1
                       (fresh_world (chair_archive x00 x00 x00 x00 xff xff))
       = Some (NULL, w')
       /\ w_err w' = Some PHYSFS_ERR_READ_ONLY
       /\ w_io w' = w_io (fresh_world (chair_archive x00 x00 x00 x00 xff xff))
       /\ w_claimed w' = w_claimed (fresh_world (chair_archive x00 x00 x00 x00 xff xff))
       /\ w_arcs w' = w_arcs (fresh_world (chair_archive x00 x00 x00 x00 xff xff)).
Proof.
  split; [lia|].
  apply (write_intent_rejected (H:=little_endian_host)). lia.
Defined.

(** C6: when the first four bytes of the stream do not decode,
    little-endian, to 0x55AA1234, [VPK_openArchive] returns [NULL], never with
    the "corrupt" error and without touching [*claimed]; opened for reading
    the error is "unsupported". *)
Theorem magic_mismatch_is_unsupported `{Host} (def : LoadEntries)
    (name : list byte) (forWriting : Z) (w : world) (m rest : list byte) :
  io_rest (w_io w) = m ++ rest -> length m = 4%nat -> le_Z m <> VPK_SIG ->
  exists w',
    VPK_openArchive def name forWriting w = Some (NULL, w')
    /\ (forWriting = 0 -> w_err w' = Some PHYSFS_ERR_UNSUPPORTED)
    /\ w_err w' <> Some PHYSFS_ERR_CORRUPT
    /\ w_claimed w' = w_claimed w
    /\ w_arcs w' = w_arcs w.
Proof.
  intros Hrest Hm Hsig. destruct (decide (forWriting = 0)) as [->|Hfw].
  - exists (set_err PHYSFS_ERR_UNSUPPORTED (consumed 4 w)).
    split; [by apply (open_magic_mismatch def name w m rest)|done].
  - exists (set_err PHYSFS_ERR_READ_ONLY w).
    split; [by apply open_for_writing|done].
Qed.

Lemma magic_mismatch_is_unsupported_witness :
  let w := fresh_world (bytes "PK" ++ [x03; x04; x14; x00]) in
  io_rest (w_io w) = (bytes "PK" ++ [x03; x04]) ++ [x14; x00]
  /\ length (bytes "PK" ++ [x03; x04]) = 4%nat
  /\ le_Z (bytes "PK" ++ [x03; x04]) <> VPK_SIG
  /\ exists w',
       VPK_openArchive (H:=little_endian_host) UseTreeWalk (bytes "a.zip") 0 w
       = Some (NULL, w')
       /\ (0 = 0 -> w_err w' = Some PHYSFS_ERR_UNSUPPORTED)
       /\ w_err w' <> Some PHYSFS_ERR_CORRUPT
       /\ w_claimed w' = w_claimed w
       /\ w_arcs w' = w_arcs w.
Proof.
  assert (le_Z (bytes "PK" ++ [x03; x04]) <> VPK_SIG) as Hsig
    by (vm_compute; discriminate).
  split_and!; [reflexivity|reflexivity|exact Hsig|].
  apply (magic_mismatch_is_unsupported (H:=little_endian_host) UseTreeWalk
           (bytes "a.zip") 0 _ (bytes "PK" ++ [x03; x04]) [x14; x00]);
    [reflexivity|reflexivity|exact Hsig].
Defined.

(** C3, as the code has it: on a stream that starts with the signature and
    is opened for reading, [VPK_openArchive] sets [*claimed] when the next
    four bytes hold version 1 or 2, whatever happens afterwards; with any
    other version it returns [NULL] with "unsupported" and leaves
    [*claimed] as it was. *)
Theorem claimed_after_version_check `{Host} (def : LoadEntries)
    (name : list byte) (w : world) (m v rest : list byte) :
  io_rest (w_io w) = m ++ v ++ rest ->
  length m = 4%nat -> length v = 4%nat -> le_Z m = VPK_SIG ->
  exists p w',
    VPK_openArchive def name 0 w = Some (p, w')
    /\ if decide (le_Z v = 1 \/ le_Z v = 2)
       then w_claimed w' = 1
       else p = NULL /\ w_err w' = Some PHYSFS_ERR_UNSUPPORTED
            /\ w_claimed w' = w_claimed w.
Proof.
  intros Hrest Hm Hv Hsig. case_decide as Hver.
  - destruct (VPK_openArchive_outcome def name 0 w)
      as (p & w' & Hrun & _ & [(Hdecl & _) | (_ & Hcl)]).
    + exfalso. unfold declined, stream_magic, stream_version, bytes_left in Hdecl.
      rewrite Hrest in Hdecl.
      rewrite take_app_length' in Hdecl by done.
      rewrite drop_app_length' in Hdecl by done.
      rewrite take_app_length' in Hdecl by done.
      rewrite !length_app in Hdecl.
      destruct Hdecl as [?|[?|[?|[? ?]]]]; [done|lia|done|].
      destruct Hver; done.
    + by exists p, w'.
  - exists NULL, (set_err PHYSFS_ERR_UNSUPPORTED (consumed 8 w)). split; [|done].
    apply (open_version_mismatch def name w m v rest); try done.
    + intros ?. apply Hver. by left.
    + intros ?. apply Hver. by right.
Qed.

Lemma claimed_after_version_check_witness :
  let w := fresh_world (chair_archive x00 x00 x00 x00 xff xff) in
  io_rest (w_io w)
  = [x34; x12; xaa; x55] ++ [x01; x00; x00; x00]
    ++ ([x10; x00; x00; x00] ++ [x00; x00; x00; x00] ++ chair_tree xff xff)
  /\ length [x34; x12; xaa; x55] = 4%nat
  /\ length [x01; x00; x00; x00] = 4%nat
  /\ le_Z [x34; x12; xaa; x55] = VPK_SIG
  /\ exists p w',
       VPK_openArchive (H:=little_endian_host) UseTreeWalk (bytes "pak01_dir.vpk") 0 w
       = Some (p, w')
       /\ if decide (le_Z [x01; x00; x00; x00] = 1 \/ le_Z [x01; x00; x00; x00] = 2)
          then w_claimed w' = 1
          else p = NULL /\ w_err w' = Some PHYSFS_ERR_UNSUPPORTED
               /\ w_claimed w' = w_claimed w.
Proof.
  split_and!; [reflexivity|reflexivity|reflexivity|reflexivity|].
  apply (claimed_after_version_check (H:=little_endian_host) UseTreeWalk
           (bytes "pak01_dir.vpk") _ [x34; x12; xaa; x55] [x01; x00; x00; x00]
           ([x10; x00; x00; x00] ++ [x00; x00; x00; x00] ++ chair_tree xff xff));
    reflexivity.
Defined.

(** C3 as stated fails: this stream starts with the signature 0x55AA1234
    and goes on with version 3; [VPK_openArchive] returns [NULL] with
    "unsupported" after eight bytes and [*claimed] is still 0. *)
Lemma claimed_once_magic_matches_counterexample :
  le_Z (take 4 [x34; x12; xaa; x55; x03; x00; x00; x00]) = VPK_SIG
  /\ VPK_openArchive (H:=little_endian_host) UseTreeWalk (bytes "pak01_dir.vpk") 0
       (fresh_world [x34; x12; xaa; x55; x03; x00; x00; x00])
     = Some (NULL,
             mkWorld (mkIo [x34; x12; xaa; x55; x03; x00; x00; x00] 8)
                     (Some PHYSFS_ERR_UNSUPPORTED) 0 ∅).
Proof. split; reflexivity. Qed.

(** C2, as the code has it: once the signature and a version 1 or 2 are
    accepted and the offset and the length of the directory are read,
    [VPK_openArchive] returns [NULL] with "corrupt" exactly when the length
    is not a multiple of 64, the size of a record in the layout of the
    file's header comment; otherwise it goes on to seek and load with the
    length divided by 64 as the entry count. *)
Theorem directory_length_multiple_of_64 `{Host} (def : LoadEntries)
    (name : list byte) (w : world) (m v o c rest : list byte) :
  io_rest (w_io w) = m ++ v ++ o ++ c ++ rest ->
  length m = 4%nat -> length v = 4%nat ->
  length o = 4%nat -> length c = 4%nat ->
  le_Z m = VPK_SIG -> le_Z v = 1 \/ le_Z v = 2 ->
  (le_Z c mod 64 <> 0 ->
   VPK_openArchive def name 0 w
   = Some (NULL, set_err PHYSFS_ERR_CORRUPT (set_claimed 1 (consumed 16 w))))
  /\ (le_Z c mod 64 = 0 ->
      VPK_openArchive def name 0 w
      = func (VPK_openArchive_load def (le_Z o) (le_Z c / 64))
             (set_claimed 1 (consumed 16 w))).
Proof.
  intros Hrest Hm Hv Ho Hc Hsig Hver.
  rewrite (open_header def name w m v o c rest) by done.
  unfold func at 1 2. unfold bind, BAIL_IF. split; intros Hmod.
  - apply Z.eqb_neq in Hmod. by rewrite Hmod.
  - apply Z.eqb_eq in Hmod. by rewrite Hmod.
Qed.

Lemma directory_length_multiple_of_64_witness :
  let w := fresh_world (chair_archive x40 x00 x00 x00 xff xff) in
  let m := [x34; x12; xaa; x55] in
  let v := [x01; x00; x00; x00] in
  let o := [x10; x00; x00; x00] in
  let c := [x40; x00; x00; x00] in
  io_rest (w_io w) = m ++ v ++ o ++ c ++ chair_tree xff xff
  /\ length m = 4%nat /\ length v = 4%nat /\ length o = 4%nat /\ length c = 4%nat
  /\ le_Z m = VPK_SIG /\ (le_Z v = 1 \/ le_Z v = 2)
  /\ (le_Z c mod 64 <> 0 ->
      VPK_openArchive (H:=little_endian_host) (UseFlatRecord six_behind)
                      (bytes "pak01_dir.vpk") 0 w
      = Some (NULL, set_err PHYSFS_ERR_CORRUPT (set_claimed 1 (consumed 16 w))))
  /\ (le_Z c mod 64 = 0 ->
      VPK_openArchive (H:=little_endian_host) (UseFlatRecord six_behind)
                      (bytes "pak01_dir.vpk") 0 w
      = func (VPK_openArchive_load (H:=little_endian_host)
                (UseFlatRecord six_behind) (le_Z o) (le_Z c / 64))
             (set_claimed 1 (consumed 16 w))).
Proof.
  intros w m v o c.
  split_and!; [reflexivity|reflexivity|reflexivity|reflexivity|reflexivity
              |reflexivity|left; reflexivity| |];
    apply (directory_length_multiple_of_64 (H:=little_endian_host)
             (UseFlatRecord six_behind)
             (bytes "pak01_dir.vpk") w m v o c (chair_tree xff xff));
    first [reflexivity | left; reflexivity].
Defined.

(** C2 as stated fails in both directions.  A directory length of 18 is a
    multiple of 18, yet the archive is refused as corrupt right after the
    header; a length of 64 is not a multiple of 18, yet the archive (here
    with an empty tree) is opened. *)
Lemma directory_length_multiple_of_18_counterexample :
  18 mod 18 = 0
  /\ VPK_openArchive (H:=little_endian_host) UseTreeWalk (bytes "pak01_dir.vpk") 0
       (fresh_world (chair_archive x12 x00 x00 x00 xff xff))
     = Some (NULL,
             mkWorld (mkIo (chair_archive x12 x00 x00 x00 xff xff) 16)
                     (Some PHYSFS_ERR_CORRUPT) 1 ∅)
  /\ 64 mod 18 <> 0
  /\ VPK_openArchive (H:=little_endian_host) UseTreeWalk (bytes "pak01_dir.vpk") 0
       (fresh_world ([x34; x12; xaa; x55] ++ [x01; x00; x00; x00]
                     ++ [x10; x00; x00; x00] ++ [x40; x00; x00; x00] ++ [x00]))
     = Some (Some 0%nat,
             mkWorld (mkIo ([x34; x12; xaa; x55] ++ [x01; x00; x00; x00]
                            ++ [x10; x00; x00; x00] ++ [x40; x00; x00; x00]
                            ++ [x00]) 17)
                     None 1 {[ 0%nat := [] ]}).
Proof. split_and!; [reflexivity|reflexivity|discriminate|reflexivity]. Qed.

Lemma cstr_app_nul (s t : list byte) :
  Forall (fun c => c <> x00) s -> cstr (s ++ x00 :: t) = s.
Proof.
  induction 1 as [|c s Hc Hs IH]; [reflexivity|].
  simpl. destruct (u8 c =? 0) eqn:Hz.
  - apply Z.eqb_eq, u8_zero in Hz. done.
  - by rewrite IH.
Qed.

(** C4, as the code has it: when the stream holds [n] bytes free of NUL
    and then a NUL, [n] below [maxlen], [vpkReadString] returns the flag 1;
    the [n + 1] bytes it consumed show only in the cursor, and the buffer
    holds the string and its terminator. *)
Theorem read_string_returns_flag (s rest dest : list byte) (maxlen : nat)
    (w : world) :
  io_rest (w_io w) = s ++ x00 :: rest ->
  Forall (fun c => c <> x00) s ->
  (length s < maxlen)%nat ->
  (maxlen <= length dest)%nat ->
  exists dest' w',
    vpkReadString dest maxlen w = Some ((1, dest'), w')
    /\ io_pos (w_io w') = (io_pos (w_io w) + (length s + 1))%nat
    /\ io_data (w_io w') = io_data (w_io w)
    /\ take (length s + 1) dest' = s ++ [x00]
    /\ cstr dest' = s.
Proof.
  intros Hrest Hnz Hlen Hcap.
  exists (stored_at 0 (s ++ [x00]) dest), (consumed (S (length s)) w).
  split; [by apply (vpkReadString_ok s rest)|].
  split; [simpl; lia|]. split; [done|].
  unfold stored_at. rewrite take_0, app_nil_l. split.
  - rewrite take_app_length'; [done|]. rewrite length_app. simpl. lia.
  - rewrite <- app_assoc. by apply cstr_app_nul.
Qed.

Lemma read_string_returns_flag_witness :
  let w := fresh_world (bytes "txt" ++ x00 :: bytes "models") in
  io_rest (w_io w) = bytes "txt" ++ x00 :: bytes "models"
  /\ Forall (fun c => c <> x00) (bytes "txt")
  /\ (length (bytes "txt") < 256)%nat
  /\ (256 <= length (replicate 256 x00))%nat
  /\ exists dest' w',
       vpkReadString (replicate 256 x00) 256 w = Some ((1, dest'), w')
       /\ io_pos (w_io w') = (io_pos (w_io w) + (length (bytes "txt") + 1))%nat
       /\ io_data (w_io w') = io_data (w_io w)
       /\ take (length (bytes "txt") + 1) dest' = bytes "txt" ++ [x00]
       /\ cstr dest' = bytes "txt".
Proof.
  intros w.
  assert (Forall (fun c => c <> x00) (bytes "txt")) as Hnz
    by (repeat constructor; discriminate).
  split_and!; [reflexivity|exact Hnz|simpl; lia|simpl; lia|].
  apply (read_string_returns_flag (bytes "txt") (bytes "models")
           (replicate 256 x00) 256 w);
    [reflexivity|exact Hnz|simpl; lia|simpl; lia].
Defined.

(** C4 as stated fails: on the string "ab" and its terminator the reader
    consumes three bytes and returns 1, not 3. *)
Lemma read_string_returns_count_counterexample :
  match vpkReadString (replicate 256 x00) 256 (fresh_world (bytes "ab" ++ [x00])) with
  | Some ((rc, _), w') => Some (rc, io_pos (w_io w'))
  | None => None
  end = Some (1, 3%nat).
Proof. reflexivity. Qed.

(** C5: when the walker, after any well-formed part of the tree, stands at
    the head of the name loop inside a directory [d] of an extension [e]
    and the stream holds a name and then an 18-byte record whose
    terminator field is not 0xFFFF, [vpkLoadEntries] returns 0 with the
    "corrupt" error at the end of that record, whatever the other five
    fields hold and on either byte order. *)
Theorem bad_terminator_is_corrupt `{Host} (count : Z) (arc : nat) (w : world)
    (es : list tree_ext) (e : list byte) (ds : list tree_dir) (d : list byte)
    (fs : list tree_file) (nm crc pre ar off sz X : list byte) (t0 t1 : byte) :
  good_prefix AtName es e ds d fs ->
  io_rest (w_io w)
  = walked_prefix AtName es e ds d fs
    ++ nm ++ x00 :: crc ++ pre ++ ar ++ off ++ sz ++ t0 :: t1 :: X ->
  segment nm ->
  length crc = 4%nat -> length pre = 2%nat -> length ar = 2%nat ->
  length off = 4%nat -> length sz = 4%nat ->
  le_Z [t0; t1] <> 0xFFFF ->
  TreeWalk.vpkLoadEntries count arc w
  = Some (0,
          set_err PHYSFS_ERR_CORRUPT
            (consumed (length (walked_prefix AtName es e ds d fs)
                       + (length nm + 19)) w)).
Proof.
  intros Hgood Hrest Hnm Hcrc Hpre Har Hoff Hsz Hterm.
  assert (~ (t0 = xff /\ t1 = xff)) as Hff.
  { intros Hff. apply Hterm.
    by apply (host_Z_16_ffff (H:=little_endian_host)). }
  pose proof (io_rest_consumed_app _ _ _ _ Hrest eq_refl) as Hat.
  destruct (failure_at_head AtName es e ds d fs _ 0 _ count arc w Hgood Hrest
              (bad_record_returns _ nm crc pre ar off sz X t0 t1 Hat Hnm
                 Hcrc Hpre Har Hoff Hsz Hff))
    as (w' & Hrun & ->).
  by rewrite Hrun, consumed_consumed.
Qed.

Lemma bad_terminator_is_corrupt_witness :
  let w := mkWorld (mkIo (chair_archive x40 x00 x00 x00 x00 x00) 16) None 1
                   {[ 0%nat := [] ]} in
  let e := bytes "txt" in
  let d := bytes "models/props" in
  let nm := bytes "chair" in
  good_prefix AtName [] e [] d []
  /\ io_rest (w_io w)
     = walked_prefix AtName [] e [] d []
       ++ nm ++ x00 :: [x00; x00; x00; x00] ++ [x00; x00] ++ [xff; xff]
       ++ [x80; x00; x00; x00] ++ [x40; x00; x00; x00]
       ++ x00 :: x00 :: [x00; x00; x00]
  /\ segment nm
  /\ le_Z [x00; x00] <> 0xFFFF
  /\ TreeWalk.vpkLoadEntries (H:=little_endian_host) 1 0 w
     = Some (0,
             set_err PHYSFS_ERR_CORRUPT
               (consumed (length (walked_prefix AtName [] e [] d [])
                          + (length nm + 19)) w)).
Proof.
  intros w e d nm.
  assert (forall s, s <> [] -> (length s < 256)%nat ->
                    Forall (fun c => c <> x00) s -> segment s) as Hseg
    by (by intros s ? ? ?).
  assert (segment e) as He
    by (apply Hseg; [discriminate|simpl; lia|compute_done]).
  assert (segment d) as Hd
    by (apply Hseg; [discriminate|simpl; lia|compute_done]).
  assert (segment nm) as Hnm
    by (apply Hseg; [discriminate|simpl; lia|compute_done]).
  assert (good_prefix AtName [] e [] d []) as Hgood.
  { split; [constructor|]. split; [exact He|]. split; [constructor|].
    split; [exact Hd|constructor]. }
  assert (le_Z [x00; x00] <> 0xFFFF) as Ht by (vm_compute; discriminate).
  split; [exact Hgood|]. split; [reflexivity|]. split; [exact Hnm|].
  split; [exact Ht|].
  apply (bad_terminator_is_corrupt (H:=little_endian_host) 1 0 w [] e [] d []
           nm [x00; x00; x00; x00] [x00; x00] [xff; xff]
           [x80; x00; x00; x00] [x40; x00; x00; x00] [x00; x00; x00] x00 x00);
    [exact Hgood|reflexivity|exact Hnm|reflexivity|reflexivity|reflexivity
    |reflexivity|reflexivity|exact Ht].
Defined.

(** The spec's scenario with the terminator 0x0000: the archive is refused
    as corrupt and no archive is left behind. *)
Example chair_archive_bad_terminator `{Host} :
  VPK_openArchive UseTreeWalk (bytes "pak01_dir.vpk") 0
                  (fresh_world (chair_archive x40 x00 x00 x00 x00 x00))
  = Some (NULL,
          mkWorld (mkIo (chair_archive x40 x00 x00 x00 x00 x00) 57)
                  (Some PHYSFS_ERR_CORRUPT) 1 ∅).
Proof. destruct H as [[|]]; reflexivity. Qed.

(** C7: when the next [maxlen] bytes of the stream hold no NUL,
    [vpkReadString] returns 0; and when that position is the head of one
    of the three loops of the walker, which reads with [maxlen] 256,
    reached from [w0] over any well-formed part of the tree,
    [vpkLoadEntries] returns 0 as well. *)
Theorem unterminated_string_fails `{Host} (maxlen : nat) (dest : list byte)
    (w : world) :
  no_nul_within maxlen w ->
  (exists dest' w', vpkReadString dest maxlen w = Some ((0, dest'), w'))
  /\ (maxlen = 256%nat ->
      forall h es e ds d fs R count arc w0,
        good_prefix h es e ds d fs ->
        io_rest (w_io w0) = walked_prefix h es e ds d fs ++ R ->
        w = consumed (length (walked_prefix h es e ds d fs)) w0 ->
        exists w', TreeWalk.vpkLoadEntries count arc w0 = Some (0, w')).
Proof.
  intros Hnn. split; [by apply vpkReadString_no_nul|].
  intros -> h es e ds d fs R count arc w0 Hgood Hrest ->.
  destruct (failure_at_head h es e ds d fs R 0 _ count arc w0 Hgood Hrest
              (unterminated_returns h _ Hnn)) as (w' & Hrun & _).
  by exists w'.
Qed.

Lemma unterminated_string_fails_witness :
  let w := fresh_world (replicate 256 "a"%byte ++ [x00]) in
  no_nul_within 256 w
  /\ (exists dest' w',
        vpkReadString (replicate 256 x00) 256 w = Some ((0, dest'), w'))
  /\ (256%nat = 256%nat ->
      forall h es e ds d fs R count arc w0,
        good_prefix h es e ds d fs ->
        io_rest (w_io w0) = walked_prefix h es e ds d fs ++ R ->
        w = consumed (length (walked_prefix h es e ds d fs)) w0 ->
        exists w',
          TreeWalk.vpkLoadEntries (H:=little_endian_host) count arc w0
          = Some (0, w')).
Proof.
  intros w.
  assert (no_nul_within 256 w) as Hnn by (unfold no_nul_within; compute_done).
  split; [exact Hnn|].
  apply (unterminated_string_fails (H:=little_endian_host) 256 (replicate 256 x00) w).
  exact Hnn.
Defined.

(** A name of 256 bytes without terminator in the scenario's directory:
    the archive is refused and no archive is left behind. *)
Example chair_archive_unterminated_name `{Host} :
  VPK_openArchive UseTreeWalk (bytes "pak01_dir.vpk") 0
    (fresh_world (chair_header x40 x00 x00 x00 ++ bytes "txt" ++ [x00]
                  ++ bytes "models/props" ++ [x00] ++ replicate 256 "a"%byte))
  = Some (NULL,
          mkWorld (mkIo (chair_header x40 x00 x00 x00 ++ bytes "txt" ++ [x00]
                         ++ bytes "models/props" ++ [x00]
                         ++ replicate 256 "a"%byte) 289)
                  None 1 ∅).
Proof. destruct H as [[|]]; reflexivity. Qed.

(** C8: every call of [VPK_openArchive] returns, and in one of three
    ways.  The header is not accepted: the answer is [NULL] and the
    archives of the unpacking layer are as before the call.  The header
    is accepted and the load, run from the directory on the fresh archive
    with the count that the header announces, returns 0: the answer is
    [NULL], the archive has been abandoned with whatever the load had
    registered in it, and the archives are as before the call.  The
    header is accepted and that load returns 1: the answer is the handle
    of the fresh archive, in the state in which the load left it.  No
    handle is answered in any other way. *)
Theorem open_is_all_or_nothing `{Host} (def : LoadEntries) (name : list byte)
    (forWriting : Z) (w : world) :
  exists p w',
    VPK_openArchive def name forWriting w = Some (p, w')
    /\ w_arcs w !! fresh (dom (w_arcs w)) = None
    /\ (~ header_accepted forWriting w
        /\ p = NULL /\ w_arcs w' = w_arcs w
        \/ header_accepted forWriting w
           /\ (exists w2,
                 vpkLoadEntries def (stream_length w / 64)
                                (fresh (dom (w_arcs w)))
                                (at_directory (fresh (dom (w_arcs w))) w)
                 = Some (0, w2)
                 /\ w' = abandoned (fresh (dom (w_arcs w))) w2)
           /\ p = NULL /\ w_arcs w' = w_arcs w
        \/ header_accepted forWriting w
           /\ vpkLoadEntries def (stream_length w / 64)
                             (fresh (dom (w_arcs w)))
                             (at_directory (fresh (dom (w_arcs w))) w)
              = Some (1, w')
           /\ p = Some (fresh (dom (w_arcs w)))).
Proof.
  destruct (VPK_openArchive_cases def name forWriting w)
    as (p & w' & Hrun & Hcase).
  exists p, w'. split; [exact Hrun|].
  split; [apply not_elem_of_dom, is_fresh|].
  destruct Hcase as [(Hfw & -> & ->) | (-> & Hcase)].
  { left. split; [|done]. by intros (? & _). }
  destruct Hcase
    as [(H4 & -> & ->)
       |[(H4 & Hsig & -> & ->)
        |[(H8 & Hsig & -> & ->)
         |[(H8 & Hsig & Hver & -> & ->)
          |[(H16 & Hsig & Hver & -> & ->)
           |[(H16 & Hsig & Hver & Hmod & -> & ->)
            |[(H16 & Hsig & Hver & Hmod & Hpos & -> & ->)
             |(Hacc & rc & w2 & Hload & Hld & Hres)]]]]]]].
  - left. split; [|done]. intros (_ & ? & _). lia.
  - left. split; [|done]. by intros (_ & _ & ? & _).
  - left. split; [|done]. intros (_ & ? & _). lia.
  - left. split; [|done]. by intros (_ & _ & _ & ? & _).
  - left. split; [|done]. intros (_ & ? & _). lia.
  - left. split; [|done]. by intros (_ & _ & _ & _ & ? & _).
  - left. split; [|done]. intros (_ & _ & _ & _ & _ & ?). lia.
  - destruct Hres as [(-> & -> & ->) | (-> & -> & ->)].
    + right; left. split; [exact Hacc|]. split; [by exists w2|].
      split; [done|]. by apply abandoned_restores.
    + right; right. done.
Qed.

(** A flat-record archive that announces two records and holds one and a
    half: the first record is registered, the second read fails, and the
    call returns [NULL] with no archive left. *)
Example partial_registry_abandoned `{Host} (behind : nat -> list byte) :
  VPK_openArchive (UseFlatRecord behind) (bytes "pak01_dir.vpk") 0
                  (fresh_world (chair_header x80 x00 x00 x00 ++ take 100 flat_two))
  = Some (NULL,
          mkWorld (mkIo (chair_header x80 x00 x00 x00 ++ take 100 flat_two) 116)
                  None 1 ∅).
Proof. destruct H as [[|]]; reflexivity. Qed.

(** C10 on the code: when the flat-record [vpkLoadEntries] returns nonzero
    it has consumed [count] records of 64 bytes and appended to the
    registry of [arc], in stream order, one entry per record; position and
    size are the little-endian values of the two groups of four bytes
    behind the name field, on either host.  The name of an entry is the C
    string that starts in the name field: the string in the field, as the
    claim has it, where the field holds a NUL; where it holds none,
    nothing ends the string at the 56th byte and the name runs on into
    what lies behind the array. *)
Theorem flat_loader_registers_count_records `{Host} (behind : nat -> list byte)
    (count : Z) (arc : nat) (w : world) (rc : Z) (w' : world) :
  FlatRecord.vpkLoadEntries behind count arc w = Some (rc, w') ->
  rc <> 0 ->
  let n := Z.to_nat count in
  let es := flat_records_read behind 0 n (io_rest (w_io w)) in
  rc = 1
  /\ (64 * n <= bytes_left w)%nat
  /\ length es = n
  /\ w' = registered arc es (consumed (64 * n) w)
  /\ (forall old, w_arcs w !! arc = Some old ->
                  w_arcs w' !! arc = Some (old ++ es))
  /\ ((0 < n)%nat -> is_Some (w_arcs w !! arc))
  /\ (names_terminated n (io_rest (w_io w)) ->
      es = flat_records n (io_rest (w_io w))).
Proof.
  intros Hrun Hrc n es.
  assert (length es = n) as Hes by apply length_flat_records_read.
  pose proof (entries_for_total behind n 0 arc w) as Hwp.
  apply wp_run in Hwp as (fl & w1 & Hloop & _ & Hfl).
  unfold FlatRecord.vpkLoadEntries, func in Hrun. fold n in Hrun.
  unfold bind at 1 in Hrun. rewrite Hloop in Hrun.
  destruct fl as [[]|r]; [|simplify_eq/=].
  destruct Hfl as [Hlen Hlive]. injection Hrun as <- <-.
  assert (w1 = registered arc es (consumed (64 * n) w)) as ->.
  { rewrite (entries_for_falls_out behind n 0 arc w Hlive Hlen) in Hloop.
    by injection Hloop as <-. }
  split_and!; [done|done|done|done| | |].
  - intros old Hold. by apply registered_lookup.
  - intros Hn. destruct Hlive as [?|?]; [lia|done].
  - apply flat_records_read_terminated.
Qed.

Lemma flat_loader_registers_count_records_witness :
  let w := mkWorld (mkIo flat_two 0) None 1 {[ 0%nat := [] ]} in
  let w' := mkWorld (mkIo flat_two 128) None 1
              {[ 0%nat := [mkEntry (bytes "a.txt") 0 (-1) (-1) 128 64;
                           mkEntry (bytes "b.txt") 0 (-1) (-1) 192 16] ]} in
  let es := flat_records_read six_behind 0 (Z.to_nat 2) (io_rest (w_io w)) in
  FlatRecord.vpkLoadEntries (H:=little_endian_host) six_behind 2 0 w
  = Some (1, w')
  /\ 1 <> 0
  /\ 1 = 1
  /\ (64 * Z.to_nat 2 <= bytes_left w)%nat
  /\ length es = Z.to_nat 2
  /\ w' = registered 0 es (consumed (64 * Z.to_nat 2) w)
  /\ (forall old, w_arcs w !! 0%nat = Some old ->
                  w_arcs w' !! 0%nat = Some (old ++ es))
  /\ ((0 < Z.to_nat 2)%nat -> is_Some (w_arcs w !! 0%nat))
  /\ (names_terminated (Z.to_nat 2) (io_rest (w_io w)) ->
      es = flat_records (Z.to_nat 2) (io_rest (w_io w))).
Proof.
  intros w w' es.
  assert (FlatRecord.vpkLoadEntries (H:=little_endian_host) six_behind 2 0 w
          = Some (1, w'))
    as Hrun by reflexivity.
  split; [exact Hrun|]. split; [lia|].
  apply (flat_loader_registers_count_records (H:=little_endian_host)
           six_behind 2 0 w 1 w');
    [exact Hrun|lia].
Defined.

(** A record whose name field is 56 letters with no NUL among them, for a
    file at 128 with 64 bytes. *)
Example unterminated_name_reads_behind `{Host} :
  let field := replicate 56 "A"%byte in
  let w := mkWorld (mkIo (field ++ [x80; x00; x00; x00] ++ [x40; x00; x00; x00]) 0)
                   None 1 {[ 0%nat := [] ]} in
  FlatRecord.vpkLoadEntries six_behind 1 0 w
  = Some (1, mkWorld (mkIo (io_data (w_io w)) 64) None 1
                     {[ 0%nat := [mkEntry (field ++ bytes "behind")
                                          0 (-1) (-1) 128 64] ]})
  /\ length (field ++ bytes "behind") = 62%nat
  /\ flat_records 1 (io_data (w_io w)) = [mkEntry field 0 (-1) (-1) 128 64].
Proof. destruct H as [[|]]; split_and!; reflexivity. Qed.

(** C1 on the code: for the scenario's archive, whatever directory length
    its header gives and whichever definition of [vpkLoadEntries] is
    called, [VPK_openArchive] returns without a single entry in any
    registry.  It answers [NULL] when the length is not a multiple of 64
    or the flat loader runs out of stream; otherwise it answers a handle
    whose registry is empty: the tree walker reads the record and the path
    is assembled, but [UNPK_addEntry] is never called (for any well-formed
    tree: [tree_archive_opens_empty]). *)
Theorem chair_archive_registers_nothing `{Host} (def : LoadEntries)
    (name : list byte) (c0 c1 c2 c3 : byte) :
  exists p w',
    VPK_openArchive def name 0 (fresh_world (chair_archive c0 c1 c2 c3 xff xff))
    = Some (p, w')
    /\ (forall arc es, w_arcs w' !! arc = Some es -> es = [])
    /\ (forall arc, w_arcs w' !! arc <> Some [chair_entry])
    /\ (def = UseTreeWalk -> le_Z [c0; c1; c2; c3] mod 64 = 0 ->
        p = Some 0%nat /\ w_arcs w' !! 0%nat = Some []).
Proof.
  enough (exists p w',
             VPK_openArchive def name 0
               (fresh_world (chair_archive c0 c1 c2 c3 xff xff)) = Some (p, w')
             /\ (forall arc es, w_arcs w' !! arc = Some es -> es = [])
             /\ (def = UseTreeWalk -> le_Z [c0; c1; c2; c3] mod 64 = 0 ->
                 p = Some 0%nat /\ w_arcs w' !! 0%nat = Some []))
    as (p & w' & Hrun & Hnone & Htree).
  { exists p, w'. split_and!; [done|done| |done].
    intros arc Harc. by apply Hnone in Harc. }
  set (data := chair_archive c0 c1 c2 c3 xff xff).
  rewrite (open_header def name (fresh_world data)
             [x34; x12; xaa; x55] [x01; x00; x00; x00] [x10; x00; x00; x00]
             [c0; c1; c2; c3] (chair_tree xff xff));
    [|reflexivity|reflexivity|reflexivity|reflexivity|reflexivity|reflexivity
     |left; reflexivity].
  unfold func, bind, BAIL_IF.
  destruct (le_Z [c0; c1; c2; c3] mod 64 =? 0) eqn:Hmod; cbn [negb].
  - generalize (le_Z [c0; c1; c2; c3] / 64). intros count.
    apply Z.eqb_eq in Hmod. destruct def.
    + exists (Some 0%nat), (mkWorld (mkIo data 60) None 1 {[ 0%nat := [] ]}).
      split; [destruct H as [[|]]; reflexivity|]. split.
      * intros arc es Hl. cbn [w_arcs] in Hl. apply lookup_singleton_Some in Hl as [_ <-]. done.
      * intros _ _. split; [done|]. cbn [w_arcs]. apply lookup_singleton_eq.
    + unfold VPK_openArchive_load, vpkLoadEntries, FlatRecord.vpkLoadEntries.
      destruct (Z.to_nat count) as [|n].
      * exists (Some 0%nat), (mkWorld (mkIo data 16) None 1 {[ 0%nat := [] ]}).
        split; [reflexivity|]. split; [|done].
        intros arc es Hl. cbn [w_arcs] in Hl. apply lookup_singleton_Some in Hl as [_ <-]. done.
      * exists NULL, (mkWorld (mkIo data 60) None 1 ∅).
        split; [reflexivity|]. split; [|done].
        intros arc es Hl. cbn [w_arcs] in Hl. by rewrite lookup_empty in Hl.
  - exists NULL, (mkWorld (mkIo data 16) (Some PHYSFS_ERR_CORRUPT) 1 ∅).
    split; [reflexivity|]. split.
    + intros arc es Hl. cbn [w_arcs] in Hl. by rewrite lookup_empty in Hl.
    + intros _ Hz. apply Z.eqb_neq in Hmod. done.
Qed.

(** The scenario with its true directory length, the 44 bytes of the tree:
    the header check refuses the archive as corrupt. *)
Example chair_archive_true_length `{Host} (def : LoadEntries) :
  length (chair_tree xff xff) = 44%nat
  /\ VPK_openArchive def (bytes "pak01_dir.vpk") 0
       (fresh_world (chair_archive x2c x00 x00 x00 xff xff))
     = Some (NULL,
             mkWorld (mkIo (chair_archive x2c x00 x00 x00 xff xff) 16)
                     (Some PHYSFS_ERR_CORRUPT) 1 ∅).
Proof. split; [reflexivity|]. destruct H as [[|]]; reflexivity. Qed.

(** * Further properties *)

(** ** The string reader in closed form *)

Lemma stored_at_nil (pos : nat) (dest : list byte) : stored_at pos [] dest = dest.
Proof.
  unfold stored_at. simpl. by rewrite Nat.add_0_r, take_drop.
Qed.

Lemma find_nul_lt (bs : list byte) (i : nat) :
  find_nul bs = Some i -> (i < length bs)%nat.
Proof.
  revert i. induction bs as [|c bs IH]; intros i; simpl; [done|].
  destruct (u8 c =? 0); [intros [= <-]; lia|].
  destruct (find_nul bs) as [j|]; simpl; [|done].
  intros [= <-]. specialize (IH j eq_refl). lia.
Qed.

(** The loop in closed form, from any index [pos] with room for the
    iterations left. *)
Lemma vpkReadString_while_closed : forall n pos dest w,
  (pos + n <= length dest)%nat ->
  vpkReadString_while n pos dest w
  = Some (match find_nul (take n (io_rest (w_io w))) with
          | Some i =>
              (Return (1, stored_at pos (take (S i) (io_rest (w_io w))) dest),
               consumed (S i) w)
          | None =>
              if decide (n <= bytes_left w)%nat
              then (Next (stored_at pos (take n (io_rest (w_io w))) dest),
                    consumed n w)
              else (Return (0, stored_at pos (io_rest (w_io w)) dest),
                    consumed (bytes_left w) w)
          end).
Proof.
  induction n as [|n IH]; intros pos dest w Hcap.
  - cbn [vpkReadString_while]. rewrite take_0. cbn [find_nul].
    rewrite decide_True by lia. by rewrite stored_at_nil, consumed_0.
  - cbn [vpkReadString_while].
    destruct (io_rest (w_io w)) as [|c rest] eqn:Hrest.
    + rewrite (bind_Next _ _ _ _ _
                 (readAll_short 1 w
                    ltac:(unfold bytes_left; rewrite Hrest; simpl; lia))).
      rewrite Hrest. simpl.
      rewrite decide_False by (unfold bytes_left; rewrite Hrest; simpl; lia).
      by rewrite stored_at_nil.
    + rewrite (bind_Next _ _ _ _ _ (readAll_ok [c] rest w Hrest)).
      unfold bind at 1, BAIL_IF_ERRPASS at 1. cbn [Z.eqb hd length].
      simpl take. cbn [find_nul]. destruct (u8 c =? 0) eqn:Hz.
      * unfold return_. rewrite take_0. by rewrite (stored_at_one pos) by lia.
      * rewrite (IH (S pos) (<[pos := c]> dest) (consumed 1 w))
          by (rewrite length_insert; lia).
        rewrite io_rest_consumed, Hrest. simpl drop. rewrite drop_0.
        assert (bytes_left w = S (length rest)) as Hleft
          by (unfold bytes_left; by rewrite Hrest).
        rewrite bytes_left_consumed, Hleft.
        replace (S (length rest) - 1)%nat with (length rest) by lia.
        destruct (find_nul (take n rest)) as [i|] eqn:Hfind; simpl.
        -- rewrite consumed_consumed, stored_at_cons by lia. done.
        -- destruct (decide (n <= length rest)%nat).
           ++ rewrite decide_True by lia.
              rewrite consumed_consumed, stored_at_cons by lia. done.
           ++ rewrite decide_False by lia.
              rewrite consumed_consumed, stored_at_cons by lia. done.
Qed.

Lemma vpkReadString_is_spec (dest : list byte) (maxlen : nat) (w : world) :
  (maxlen <= length dest)%nat ->
  vpkReadString dest maxlen w = Some (read_string_spec dest maxlen w).
Proof.
  intros Hcap. unfold vpkReadString, func, read_string_spec.
  unfold bind. rewrite (vpkReadString_while_closed maxlen 0 dest w) by lia.
  destruct (find_nul (take maxlen (io_rest (w_io w)))) as [i|] eqn:Hfind.
  - apply find_nul_lt in Hfind as Hi. rewrite length_take in Hi.
    rewrite take_take. by replace (S i `min` maxlen)%nat with (S i) by lia.
  - case_decide as Hlen.
    + unfold return_. rewrite length_take. unfold bytes_left in Hlen.
      by replace (maxlen `min` length (io_rest (w_io w)))%nat with maxlen by lia.
    + rewrite take_ge by (unfold bytes_left in Hlen; lia). done.
Qed.

(** X1: with a buffer of at least [maxlen] bytes, [vpkReadString] is its
    closed form: it returns 1 exactly when a NUL stands among the next
    [maxlen] bytes of the stream, then having stored and consumed the bytes
    up to and with the first NUL; otherwise it returns 0 having stored and
    consumed all of those bytes that the stream still had.  The cursor is
    not moved back on failure. *)
Theorem vpkReadString_closed_form (dest : list byte) (maxlen : nat) (w : world) :
  (maxlen <= length dest)%nat ->
  vpkReadString dest maxlen w = Some (read_string_spec dest maxlen w).
Proof. apply vpkReadString_is_spec. Qed.

Lemma vpkReadString_closed_form_witness :
  let w := fresh_world (bytes "txt" ++ x00 :: bytes "models") in
  (256 <= length (replicate 256 x00))%nat
  /\ vpkReadString (replicate 256 x00) 256 w
     = Some (read_string_spec (replicate 256 x00) 256 w).
Proof.
  intros w. split; [simpl; lia|].
  apply (vpkReadString_closed_form (replicate 256 x00) 256 w). simpl. lia.
Defined.

Lemma cstr_find_nul (bs t : list byte) (i : nat) :
  find_nul bs = Some i -> cstr (take (S i) bs ++ t) = take i bs.
Proof.
  revert i. induction bs as [|c bs IH]; intros i; simpl; [done|].
  destruct (u8 c =? 0) eqn:Hz.
  - by intros [= <-].
  - destruct (find_nul bs) as [j|]; simpl; [|done].
    intros [= <-]. simpl. by rewrite (IH j).
Qed.

Lemma stored_at_0_bounds (bs dest : list byte) (maxlen : nat) :
  (length bs <= maxlen)%nat -> (maxlen <= length dest)%nat ->
  length (stored_at 0 bs dest) = length dest
  /\ drop maxlen (stored_at 0 bs dest) = drop maxlen dest.
Proof.
  intros Hbs Hcap. unfold stored_at. simpl. split.
  - rewrite length_app, length_drop. lia.
  - rewrite drop_app_ge by done. rewrite drop_drop. f_equal. lia.
Qed.

(** X2: [vpkReadString] stays within its bounds.  It consumes at most
    [maxlen] bytes and never more than the stream has, it leaves the buffer
    from index [maxlen] on untouched, and when it returns 1 the buffer
    holds a C string of fewer than [maxlen] characters. *)
Theorem vpkReadString_in_bounds (dest : list byte) (maxlen : nat) (w : world) :
  (maxlen <= length dest)%nat ->
  exists rc dest' k,
    vpkReadString dest maxlen w = Some ((rc, dest'), consumed k w)
    /\ (k <= maxlen)%nat /\ (k <= bytes_left w)%nat
    /\ length dest' = length dest
    /\ drop maxlen dest' = drop maxlen dest
    /\ (rc = 0 \/ rc = 1 /\ (length (cstr dest') < maxlen)%nat).
Proof.
  intros Hcap. rewrite vpkReadString_is_spec by done. unfold read_string_spec.
  set (window := take maxlen (io_rest (w_io w))).
  assert (length window <= maxlen)%nat as Hwin
    by (subst window; rewrite length_take; lia).
  assert (length window <= bytes_left w)%nat as Hleft
    by (subst window; unfold bytes_left; rewrite length_take; lia).
  destruct (find_nul window) as [i|] eqn:Hfind.
  - apply find_nul_lt in Hfind as Hi.
    assert (length (take (S i) window) = S i) as Hlen
      by (rewrite length_take; lia).
    destruct (stored_at_0_bounds (take (S i) window) dest maxlen) as [Hl Hd];
      [lia|done|].
    eexists 1, _, (S i). split; [reflexivity|].
    split_and!; [lia|lia|done|done|]. right. split; [done|].
    unfold stored_at. simpl. rewrite (cstr_find_nul window _ i Hfind).
    rewrite length_take. lia.
  - destruct (stored_at_0_bounds window dest maxlen) as [Hl Hd]; [done|done|].
    eexists 0, _, (length window). split; [reflexivity|].
    split_and!; [done|done|done|done|by left].
Qed.

Lemma vpkReadString_in_bounds_witness :
  let w := fresh_world (bytes "txt" ++ x00 :: bytes "models") in
  (4 <= length (replicate 8 xff))%nat
  /\ exists rc dest' k,
       vpkReadString (replicate 8 xff) 4 w = Some ((rc, dest'), consumed k w)
       /\ (k <= 4)%nat /\ (k <= bytes_left w)%nat
       /\ length dest' = length (replicate 8 xff)
       /\ drop 4 dest' = drop 4 (replicate 8 xff)
       /\ (rc = 0 \/ rc = 1 /\ (length (cstr dest') < 4)%nat).
Proof.
  intros w. split; [simpl; lia|].
  apply (vpkReadString_in_bounds (replicate 8 xff) 4 w). simpl. lia.
Defined.

(** ** The tree walker on every stream *)

(** X3: the tree-walking [vpkLoadEntries] ends on every stream, whatever
    it holds: its three [while (1)] loops leave within one iteration per
    byte left, the function returns 0 or 1, and the cursor has only moved
    forward over the same data. *)
Theorem tree_walk_terminates `{Host} (count : Z) (arc : nat) (w : world) :
  exists rc w',
    TreeWalk.vpkLoadEntries count arc w = Some (rc, w')
    /\ (rc = 0 \/ rc = 1)
    /\ io_data (w_io w') = io_data (w_io w)
    /\ (io_pos (w_io w) <= io_pos (w_io w'))%nat.
Proof.
  destruct (TreeWalk_total count arc w) as (rc & w' & Hrun & Hrc & [Hd Hp _ _]).
  by exists rc, w'.
Qed.



Section TreeWalkErrors.
Context `{Host}.
Import TreeWalk.

Lemma error_kept_trans w1 w2 fl w3 :
  advanced w1 w2 -> w_err w2 = w_err w1 -> error_kept w2 fl w3 ->
  error_kept w1 fl w3.
Proof.
  intros Hadv Herr [Hadv' Hfl]. split; [by eapply advanced_trans|].
  destruct fl as [?|r]; [congruence|].
  destruct Hfl as [-> [?|?]]; split; [done|left; congruence|done|by right].
Qed.

Ltac kept_done :=
  rewrite ?consumed_consumed;
  split; [auto using advanced_consumed, advanced_set_err|];
  first [done | split; [done|by left] | split; [done|by right]].

Lemma name_while_error_kept : forall fuel l w,
  (bytes_left w < fuel)%nat -> wp (name_while fuel l) (error_kept w) w.
Proof.
  induction fuel as [|fuel IH]; intros l w Hfuel; [lia|].
  cbn [name_while].
  apply wp_bind, wp_call_vpkReadString. intros rc d k Hk [-> | [-> Hk1]];
    apply wp_bind, wp_BAIL_IF_ERRPASS; cbn [Z.eqb]; [kept_done|].
  destruct (u8 _ =? 0); [apply wp_ret; kept_done|].
  do 6 (apply wp_bind, wp_readAll; intros ? ? ? ? [[-> _] | [-> [-> _]]];
        apply wp_bind, wp_BAIL_IF_ERRPASS; cbn [Z.eqb]; [kept_done|]).
  apply wp_bind, wp_BAIL_IF.
  destruct (negb _); [kept_done|].
  rewrite ?consumed_consumed.
  eapply wp_mono.
  - apply IH. rewrite ?bytes_left_consumed in *. lia.
  - intros ? w' Hw. eapply error_kept_trans; [| |exact Hw];
      [apply advanced_consumed|done].
Qed.

Lemma dir_while_error_kept : forall fuel l w,
  (bytes_left w < fuel)%nat -> wp (dir_while fuel l) (error_kept w) w.
Proof.
  induction fuel as [|fuel IH]; intros l w Hfuel; [lia|].
  cbn [dir_while].
  apply wp_bind, wp_call_vpkReadString. intros rc d k Hk [-> | [-> Hk1]];
    apply wp_bind, wp_BAIL_IF_ERRPASS; cbn [Z.eqb]; [kept_done|].
  destruct (u8 _ =? 0); [apply wp_ret; kept_done|].
  assert (bytes_left (consumed k w) < fuel)%nat as Hleft
    by (rewrite bytes_left_consumed; lia).
  apply wp_bind. eapply wp_mono; [apply name_while_error_kept, Hleft|].
  intros [l'|r] w' Hw.
  - destruct Hw as [Hadv Herr]. eapply wp_mono.
    + apply IH. apply advanced_bytes_left in Hadv. lia.
    + intros ? w'' Hw'. eapply error_kept_trans; [| |exact Hw'].
      * eapply advanced_trans; [apply advanced_consumed|exact Hadv].
      * rewrite Herr. done.
  - eapply error_kept_trans; [| |exact Hw]; [apply advanced_consumed|done].
Qed.

Lemma ext_while_error_kept : forall fuel l w,
  (bytes_left w < fuel)%nat -> wp (ext_while fuel l) (error_kept w) w.
Proof.
  induction fuel as [|fuel IH]; intros l w Hfuel; [lia|].
  cbn [ext_while].
  apply wp_bind, wp_call_vpkReadString. intros rc d k Hk [-> | [-> Hk1]];
    apply wp_bind, wp_BAIL_IF_ERRPASS; cbn [Z.eqb]; [kept_done|].
  destruct (u8 _ =? 0); [apply wp_ret; kept_done|].
  assert (bytes_left (consumed k w) < fuel)%nat as Hleft
    by (rewrite bytes_left_consumed; lia).
  apply wp_bind. eapply wp_mono; [apply dir_while_error_kept, Hleft|].
  intros [l'|r] w' Hw.
  - destruct Hw as [Hadv Herr]. eapply wp_mono.
    + apply IH. apply advanced_bytes_left in Hadv. lia.
    + intros ? w'' Hw'. eapply error_kept_trans; [| |exact Hw'].
      * eapply advanced_trans; [apply advanced_consumed|exact Hadv].
      * rewrite Herr. done.
  - eapply error_kept_trans; [| |exact Hw]; [apply advanced_consumed|done].
Qed.

Lemma TreeWalk_error_kept (count : Z) (arc : nat) w rc w' :
  TreeWalk.vpkLoadEntries count arc w = Some (rc, w') ->
  (rc = 1 /\ w_err w' = w_err w)
  \/ (rc = 0 /\ (w_err w' = w_err w \/ w_err w' = Some PHYSFS_ERR_CORRUPT)).
Proof.
  unfold TreeWalk.vpkLoadEntries, func.
  pose proof (ext_while_error_kept (S (bytes_left w)) locals0 w ltac:(lia)) as Hwp.
  unfold bytes_left in Hwp. apply wp_run in Hwp as (fl & w1 & Hrun & _ & Hfl).
  unfold bind at 1. rewrite Hrun. destruct fl as [l|r].
  - intros [= <- <-]. by left.
  - intros [= <- <-]. by right.
Qed.
End TreeWalkErrors.

(** ** The tree walker on well-formed trees *)

Lemma segment_intro (s : list byte) :
  s <> [] -> (length s < 256)%nat -> Forall (fun c => c <> x00) s -> segment s.
Proof. by intros ? ? ?. Qed.

Lemma chair_exts_good : Forall good_ext chair_exts.
Proof.
  assert (forall s, s <> [] -> (length s < 256)%nat ->
                    Forall (fun c => c <> x00) s -> segment s) as Hseg
    by apply segment_intro.
  apply Forall_cons_2; [|apply Forall_nil_2].
  split; [apply Hseg; [discriminate|simpl; lia|compute_done]|].
  apply Forall_cons_2; [|apply Forall_nil_2].
  split; [apply Hseg; [discriminate|simpl; lia|compute_done]|].
  apply Forall_cons_2; [|apply Forall_nil_2].
  split; [apply Hseg; [discriminate|simpl; lia|compute_done]|].
  by split_and!.
Qed.

(** X6: on a stream that holds a well-formed tree (extensions holding
    directories holding files, every name a non-empty string of at most
    255 bytes, every record closed by 0xFFFF, every level closed by an
    empty string) the tree-walking [vpkLoadEntries] returns 1 with the
    cursor right behind the tree, whatever follows it in the stream, and
    changes nothing else. *)
Theorem tree_walk_accepts_tree `{Host} (es : list tree_ext) (count : Z)
    (arc : nat) (w : world) (X : list byte) :
  Forall good_ext es ->
  io_rest (w_io w) = enc_tree es ++ X ->
  TreeWalk.vpkLoadEntries count arc w
  = Some (1, consumed (length (enc_tree es)) w).
Proof. apply TreeWalk_decodes_tree. Qed.

Lemma tree_walk_accepts_tree_witness :
  let w := fresh_world (chair_tree xff xff ++ bytes "trailer") in
  Forall good_ext chair_exts
  /\ io_rest (w_io w) = enc_tree chair_exts ++ bytes "trailer"
  /\ TreeWalk.vpkLoadEntries (H:=little_endian_host) 1 0 w
     = Some (1, consumed (length (enc_tree chair_exts)) w).
Proof.
  intros w. split; [exact chair_exts_good|]. split; [reflexivity|].
  apply (tree_walk_accepts_tree (H:=little_endian_host) chair_exts 1 0 w
           (bytes "trailer")); [exact chair_exts_good|reflexivity].
Defined.

(** X7: with the tree-walking loader, [VPK_openArchive] opens every archive
    whose header holds the signature, version 1 or 2 and a directory
    length that is a multiple of 64, and whose directory offset points at
    a well-formed tree: it returns a fresh handle, sets [*claimed], leaves
    the error code alone and the cursor behind the tree, and the new
    registry is empty however many files the tree names. *)
Theorem tree_loader_opens_archive `{Host} (name : list byte) (w : world)
    (m v o c rest X : list byte) (es : list tree_ext) :
  io_rest (w_io w) = m ++ v ++ o ++ c ++ rest ->
  length m = 4%nat -> length v = 4%nat ->
  length o = 4%nat -> length c = 4%nat ->
  le_Z m = VPK_SIG -> le_Z v = 1 \/ le_Z v = 2 ->
  le_Z c mod 64 = 0 ->
  drop (Z.to_nat (le_Z o)) (io_data (w_io w)) = enc_tree es ++ X ->
  Forall good_ext es ->
  VPK_openArchive UseTreeWalk name 0 w
  = Some (Some (fresh (dom (w_arcs w))),
          mkWorld (mkIo (io_data (w_io w))
                        (Z.to_nat (le_Z o) + length (enc_tree es)))
                  (w_err w) 1
                  (<[fresh (dom (w_arcs w)) := []]> (w_arcs w))).
Proof. apply tree_archive_opens_empty. Qed.

Lemma tree_loader_opens_archive_witness :
  let w := fresh_world (chair_archive x40 x00 x00 x00 xff xff) in
  let m := [x34; x12; xaa; x55] in
  let v := [x02; x00; x00; x00] in
  let o := [x10; x00; x00; x00] in
  let c := [x40; x00; x00; x00] in
  let w2 := fresh_world (m ++ v ++ o ++ c ++ chair_tree xff xff) in
  io_rest (w_io w2) = m ++ v ++ o ++ c ++ chair_tree xff xff
  /\ le_Z m = VPK_SIG /\ (le_Z v = 1 \/ le_Z v = 2) /\ le_Z c mod 64 = 0
  /\ drop (Z.to_nat (le_Z o)) (io_data (w_io w2)) = enc_tree chair_exts ++ []
  /\ Forall good_ext chair_exts
  /\ VPK_openArchive (H:=little_endian_host) UseTreeWalk (bytes "pak01_dir.vpk") 0 w2
     = Some (Some (fresh (dom (w_arcs w2))),
             mkWorld (mkIo (io_data (w_io w2))
                           (Z.to_nat (le_Z o) + length (enc_tree chair_exts)))
                     (w_err w2) 1
                     (<[fresh (dom (w_arcs w2)) := []]> (w_arcs w2))).
Proof.
  intros w m v o c w2.
  split; [reflexivity|]. split; [reflexivity|]. split; [right; reflexivity|].
  split; [reflexivity|]. split; [reflexivity|]. split; [exact chair_exts_good|].
  apply (tree_loader_opens_archive (H:=little_endian_host) (bytes "pak01_dir.vpk") w2
           m v o c (chair_tree xff xff) [] chair_exts);
    first [reflexivity | right; reflexivity | exact chair_exts_good].
Defined.

(** ** The path the walker assembles *)





(** ** The flat-record loader: success, failure, round trip *)

Section FlatRecordMore.
Context `{Host}.
Variable behind : nat -> list byte.
Import FlatRecord.

(** One whole record at the cursor: the loop registers it and goes on. *)
Lemma entries_for_step n i arc old w :
  w_arcs w !! arc = Some old ->
  (64 <= bytes_left w)%nat ->
  entries_for behind (S n) i arc w
  = entries_for behind n (S i) arc
      (registered arc (flat_records_read behind i 1 (io_rest (w_io w)))
                  (consumed 64 w)).
Proof.
  intros Hlive Hlen. cbn [entries_for flat_records_read].
  rewrite (bind_Next _ _ _ _ _ (readAll_take 56 w ltac:(lia))).
  unfold bind at 1. unfold BAIL_IF_ERRPASS at 1. cbn [Z.eqb].
  rewrite (bind_Next _ _ _ _ _
             (readAll_take 4 (consumed 56 w)
                ltac:(rewrite bytes_left_consumed; lia))).
  unfold bind at 1. unfold BAIL_IF_ERRPASS at 1. cbn [Z.eqb].
  rewrite consumed_consumed.
  rewrite (bind_Next _ _ _ _ _
             (readAll_take 4 (consumed (56 + 4) w)
                ltac:(rewrite bytes_left_consumed; lia))).
  unfold bind at 1. unfold BAIL_IF_ERRPASS at 1. cbn [Z.eqb].
  rewrite consumed_consumed, !io_rest_consumed.
  change (56 + 4)%nat with 60%nat. change (60 + 4)%nat with 64%nat.
  rewrite !swapULE32_host
    by (rewrite length_take, length_drop; unfold bytes_left in Hlen; lia).
  rewrite (bind_Next _ _ _ _ _
             (addEntry_live arc old _ _ _ _ _ _ (consumed 64 w) Hlive)).
  unfold bind at 1. unfold BAIL_IF_ERRPASS at 1. cbn [is_null].
  reflexivity.
Qed.

(** Less than one record at the cursor: the loop returns 0 at the end of
    the stream. *)
Lemma entries_for_stub n i arc w :
  (bytes_left w < 64)%nat ->
  entries_for behind (S n) i arc w
  = Some (Return 0, consumed (bytes_left w) w).
Proof.
  intros Hlen. cbn [entries_for].
  destruct (decide (56 <= bytes_left w)%nat) as [H56|H56]; cycle 1.
  { by rewrite (bind_Next _ _ _ _ _ (readAll_short 56 w ltac:(lia))). }
  rewrite (bind_Next _ _ _ _ _ (readAll_take 56 w H56)).
  unfold bind at 1. unfold BAIL_IF_ERRPASS at 1. cbn [Z.eqb].
  destruct (decide (60 <= bytes_left w)%nat) as [H60|H60]; cycle 1.
  { rewrite (bind_Next _ _ _ _ _
               (readAll_short 4 (consumed 56 w)
                  ltac:(rewrite bytes_left_consumed; lia))).
    unfold bind at 1. unfold BAIL_IF_ERRPASS at 1. cbn [Z.eqb].
    rewrite consumed_consumed, bytes_left_consumed.
    by replace (56 + (bytes_left w - 56))%nat with (bytes_left w) by lia. }
  rewrite (bind_Next _ _ _ _ _
             (readAll_take 4 (consumed 56 w)
                ltac:(rewrite bytes_left_consumed; lia))).
  unfold bind at 1. unfold BAIL_IF_ERRPASS at 1. cbn [Z.eqb].
  rewrite consumed_consumed.
  rewrite (bind_Next _ _ _ _ _
             (readAll_short 4 (consumed (56 + 4) w)
                ltac:(rewrite bytes_left_consumed; lia))).
  unfold bind at 1. unfold BAIL_IF_ERRPASS at 1. cbn [Z.eqb].
  rewrite consumed_consumed, bytes_left_consumed.
  by replace (56 + 4 + (bytes_left w - (56 + 4)))%nat with (bytes_left w) by lia.
Qed.

Lemma flat_records_read_S i k (bs : list byte) :
  flat_records_read behind i (S k) bs
  = flat_records_read behind i 1 bs
    ++ flat_records_read behind (S i) k (drop 64 bs).
Proof. reflexivity. Qed.

(** The loop on a stream too short for [n] records. *)
Lemma entries_for_short : forall n i arc old w,
  w_arcs w !! arc = Some old ->
  (bytes_left w < 64 * n)%nat ->
  entries_for behind n i arc w
  = Some (Return 0,
          registered arc
            (flat_records_read behind i (bytes_left w / 64) (io_rest (w_io w)))
            (consumed (bytes_left w) w)).
Proof.
  induction n as [|n IH]; intros i arc old w Hlive Hlen; [lia|].
  destruct (decide (64 <= bytes_left w)%nat) as [H64|H64].
  - rewrite (entries_for_step n i arc old w Hlive H64).
    set (w1 := registered arc (flat_records_read behind i 1 (io_rest (w_io w)))
                          (consumed 64 w)).
    assert (bytes_left w1 = (bytes_left w - 64)%nat) as Hleft
      by (subst w1; apply bytes_left_consumed).
    rewrite (IH (S i) arc
               (old ++ flat_records_read behind i 1 (io_rest (w_io w))) w1);
      [|by apply registered_lookup|lia].
    rewrite Hleft. subst w1.
    change (io_rest (w_io (registered ?a ?e ?w'))) with (io_rest (w_io w')).
    rewrite io_rest_consumed.
    rewrite <- registered_consumed, registered_registered, consumed_consumed.
    replace (64 + (bytes_left w - 64))%nat with (bytes_left w) by lia.
    replace (bytes_left w / 64)%nat with (S ((bytes_left w - 64) / 64)); [done|].
    replace (bytes_left w) with (1 * 64 + (bytes_left w - 64))%nat at 2 by lia.
    rewrite Nat.div_add_l by lia. lia.
  - rewrite entries_for_stub by lia.
    rewrite Nat.div_small by lia. by rewrite registered_nil.
Qed.

(** The loop sets no error code. *)
Lemma entries_for_err : forall n i arc w,
  wp (entries_for behind n i arc) (fun _ w' => w_err w' = w_err w) w.
Proof.
  induction n as [|n IH]; intros i arc w; [done|].
  cbn [entries_for].
  do 3 (apply wp_bind, wp_readAll; intros ? ? ? ? _;
        apply wp_bind, wp_BAIL_IF_ERRPASS;
        match goal with |- if ?c then _ else _ => destruct c end; [done|]).
  apply wp_bind. unfold wp at 1, UNPK_addEntry.
  match goal with |- match (match ?m with _ => _ end) with _ => _ end =>
    destruct m end.
  - apply wp_bind, wp_BAIL_IF_ERRPASS. cbn [is_null].
    eapply wp_mono; [apply IH|]. intros fl w' Herr. exact Herr.
  - apply wp_bind, wp_BAIL_IF_ERRPASS. cbn [is_null]. done.
Qed.

Lemma FlatRecord_err (count : Z) (arc : nat) w rc w' :
  FlatRecord.vpkLoadEntries behind count arc w = Some (rc, w') ->
  w_err w' = w_err w.
Proof.
  unfold FlatRecord.vpkLoadEntries, func.
  pose proof (entries_for_err (Z.to_nat count) 0 arc w) as Hwp.
  apply wp_run in Hwp as (fl & w1 & Hrun & Herr).
  unfold bind at 1. rewrite Hrun. destruct fl as [[]|r]; by intros [= <- <-].
Qed.

(** What a return of 1 takes: [n] whole records, read to the last
    byte. *)
Lemma FlatRecord_success (count : Z) (arc : nat) w w' :
  FlatRecord.vpkLoadEntries behind count arc w = Some (1, w') ->
  (64 * Z.to_nat count <= bytes_left w)%nat
  /\ io_pos (w_io w') = (io_pos (w_io w) + 64 * Z.to_nat count)%nat.
Proof.
  unfold FlatRecord.vpkLoadEntries, func.
  pose proof (entries_for_total behind (Z.to_nat count) 0 arc w) as Hwp.
  apply wp_run in Hwp as (fl & w1 & Hloop & _ & Hfl).
  unfold bind at 1. rewrite Hloop. destruct fl as [[]|r].
  - destruct Hfl as [Hlen Hlive]. intros [= <-]. split; [done|].
    rewrite (entries_for_falls_out behind _ 0 arc w Hlive Hlen) in Hloop.
    by injection Hloop as <-.
  - intros [= -> <-]. done.
Qed.
End FlatRecordMore.

(** X9: the flat-record [vpkLoadEntries] returns on every stream, with 0
    or 1.  It sets no error code of its own and leaves [*claimed], the
    data of the stream and every archive but [arc] as they were.  It
    returns 1 only when the stream held [64 * count] bytes, and has then
    moved the cursor by exactly that many; whenever the stream holds
    fewer, it returns 0. *)
Theorem flat_loader_returns `{Host} (behind : nat -> list byte) (count : Z)
    (arc : nat) (w : world) :
  exists rc w',
    FlatRecord.vpkLoadEntries behind count arc w = Some (rc, w')
    /\ (rc = 0 \/ rc = 1)
    /\ w_err w' = w_err w
    /\ w_claimed w' = w_claimed w
    /\ io_data (w_io w') = io_data (w_io w)
    /\ delete arc (w_arcs w') = delete arc (w_arcs w)
    /\ (rc = 1 ->
        (64 * Z.to_nat count <= bytes_left w)%nat
        /\ io_pos (w_io w') = (io_pos (w_io w) + 64 * Z.to_nat count)%nat)
    /\ ((bytes_left w < 64 * Z.to_nat count)%nat -> rc = 0).
Proof.
  destruct (FlatRecord_total behind count arc w)
    as (rc & w' & Hrun & Hrc & [Hdata _ Hclaimed Harcs]).
  exists rc, w'. split; [exact Hrun|]. split; [exact Hrc|].
  split; [by apply (FlatRecord_err behind count arc w rc)|].
  split; [exact Hclaimed|]. split; [exact Hdata|]. split; [exact Harcs|].
  split.
  - intros ->. by apply (FlatRecord_success behind count arc w).
  - intros Hshort. destruct Hrc as [-> | ->]; [done|].
    apply FlatRecord_success in Hrun as [Hlen _]. lia.
Qed.

(** X10: when the stream is too short for [count] records and [arc] is
    live, the flat-record [vpkLoadEntries] returns 0 with the cursor at
    the end of the stream and the error code as it was, having
    registered, in order, every whole record the stream did hold: the
    partial registry that [VPK_openArchive] then abandons.  The name of
    such an entry is the C string that starts in the name field, which is
    the string in the field where the field holds a NUL. *)
Theorem flat_loader_short_stream `{Host} (behind : nat -> list byte)
    (count : Z) (arc : nat) (w : world) (old : list UNPKentry) :
  w_arcs w !! arc = Some old ->
  (bytes_left w < 64 * Z.to_nat count)%nat ->
  exists w',
    FlatRecord.vpkLoadEntries behind count arc w = Some (0, w')
    /\ w_arcs w' !! arc
       = Some (old ++ flat_records_read behind 0 (bytes_left w / 64)
                        (io_rest (w_io w)))
    /\ (names_terminated (bytes_left w / 64) (io_rest (w_io w)) ->
        w_arcs w' !! arc
        = Some (old ++ flat_records (bytes_left w / 64) (io_rest (w_io w))))
    /\ bytes_left w' = 0%nat
    /\ w_err w' = w_err w.
Proof.
  intros Hlive Hlen. unfold FlatRecord.vpkLoadEntries, func.
  unfold bind at 1.
  rewrite (entries_for_short behind (Z.to_nat count) 0 arc old w Hlive Hlen).
  eexists. split; [reflexivity|]. split; [by apply registered_lookup|].
  split.
  { intros Hnul.
    rewrite <- (flat_records_read_terminated behind _ 0 _ Hnul).
    by apply registered_lookup. }
  split; [|done].
  change (bytes_left (registered ?a ?e ?w')) with (bytes_left w').
  rewrite bytes_left_consumed. lia.
Qed.

Lemma flat_loader_short_stream_witness :
  let w := mkWorld (mkIo (take 100 flat_two) 0) None 1 {[ 0%nat := [] ]} in
  w_arcs w !! 0%nat = Some []
  /\ (bytes_left w < 64 * Z.to_nat 2)%nat
  /\ exists w',
       FlatRecord.vpkLoadEntries (H:=little_endian_host) six_behind 2 0 w
       = Some (0, w')
       /\ w_arcs w' !! 0%nat
          = Some ([] ++ flat_records_read six_behind 0 (bytes_left w / 64)
                          (io_rest (w_io w)))
       /\ (names_terminated (bytes_left w / 64) (io_rest (w_io w)) ->
           w_arcs w' !! 0%nat
           = Some ([] ++ flat_records (bytes_left w / 64) (io_rest (w_io w))))
       /\ bytes_left w' = 0%nat
       /\ w_err w' = w_err w.
Proof.
  intros w.
  assert (bytes_left w < 64 * Z.to_nat 2)%nat as Hlen by (vm_compute; lia).
  split; [reflexivity|]. split; [exact Hlen|].
  exact (flat_loader_short_stream (H:=little_endian_host) six_behind 2 0 w []
           eq_refl Hlen).
Defined.

(** ** Writing and reading back a flat-record directory *)

Lemma u8_byte_of_Z (z : Z) : 0 <= z < 256 -> u8 (byte_of_Z z) = z.
Proof.
  intros Hz. unfold byte_of_Z, u8.
  pose proof (Byte.to_of_N_option_map (Z.to_N z)) as Hopt.
  replace (Z.to_N z <=? 255)%N with true in Hopt
    by (symmetry; apply N.leb_le; lia).
  destruct (Byte.of_N (Z.to_N z)) as [b|]; simpl in *; [|done].
  injection Hopt as ->. lia.
Qed.

Lemma le_Z_u32_le (x : Z) : 0 <= x < 4294967296 -> le_Z (u32_le x) = x.
Proof.
  intros Hx. unfold u32_le. cbn [le_Z].
  rewrite !u8_byte_of_Z by (apply Z.mod_pos_bound; lia).
  Z.div_mod_to_equations. lia.
Qed.

Lemma length_u32_le (x : Z) : length (u32_le x) = 4%nat.
Proof. reflexivity. Qed.

Lemma length_enc_flat (f : flat_file) : good_flat f -> length (enc_flat f) = 64%nat.
Proof.
  intros (_ & Hlen & _). unfold enc_flat.
  rewrite !length_app, length_replicate, !length_u32_le. lia.
Qed.

Lemma flat_records_enc_flat (f : flat_file) (R : list byte) :
  good_flat f -> flat_records 1 (enc_flat f ++ R) = [flat_entry f].
Proof.
  intros (Hnz & Hlen & Hp & Hs). cbn [flat_records]. unfold flat_entry, enc_flat.
  set (name := ff_name f) in *.
  set (pad := replicate (56 - length name) x00).
  assert (length (name ++ pad) = 56%nat) as H56
    by (subst pad; rewrite length_app, length_replicate; lia).
  assert (take 56 ((name ++ pad ++ u32_le (ff_pos f) ++ u32_le (ff_size f)) ++ R)
          = name ++ pad) as ->.
  { rewrite <- !app_assoc. rewrite (app_assoc name pad).
    by rewrite take_app_length'. }
  assert (drop 56 ((name ++ pad ++ u32_le (ff_pos f) ++ u32_le (ff_size f)) ++ R)
          = u32_le (ff_pos f) ++ u32_le (ff_size f) ++ R) as ->.
  { rewrite <- !app_assoc. rewrite (app_assoc name pad).
    by rewrite drop_app_length'. }
  assert (drop 60 ((name ++ pad ++ u32_le (ff_pos f) ++ u32_le (ff_size f)) ++ R)
          = u32_le (ff_size f) ++ R) as ->.
  { rewrite <- !app_assoc. rewrite (app_assoc name pad).
    rewrite (app_assoc (name ++ pad)).
    rewrite drop_app_length'; [done|]. rewrite length_app, H56. reflexivity. }
  rewrite (take_app_length' (u32_le (ff_pos f))) by reflexivity.
  rewrite (take_app_length' (u32_le (ff_size f))) by reflexivity.
  rewrite !le_Z_u32_le by done.
  do 2 f_equal.
  assert (pad = x00 :: replicate (55 - length name) x00) as ->.
  { subst pad. replace (56 - length name)%nat with (S (55 - length name)) by lia.
    reflexivity. }
  by apply cstr_app_nul.
Qed.

Lemma flat_records_S k (bs : list byte) :
  flat_records (S k) bs = flat_records 1 bs ++ flat_records k (drop 64 bs).
Proof. reflexivity. Qed.

Lemma flat_records_enc_flats : forall (fs : list flat_file) (X : list byte),
  Forall good_flat fs ->
  flat_records (length fs) (enc_flats fs ++ X) = map flat_entry fs.
Proof.
  induction fs as [|f fs IH]; intros X Hfs; [done|].
  inversion Hfs as [|? ? Hf Hfs']; subst.
  change (length (f :: fs)) with (S (length fs)).
  rewrite flat_records_S. unfold enc_flats. simpl concat.
  rewrite <- app_assoc, flat_records_enc_flat by done.
  rewrite drop_app_length' by (symmetry; by apply length_enc_flat).
  fold (enc_flats fs). by rewrite IH.
Qed.

Lemma length_enc_flats (fs : list flat_file) :
  Forall good_flat fs -> length (enc_flats fs) = (64 * length fs)%nat.
Proof.
  induction 1 as [|f fs Hf Hfs IH]; [done|].
  unfold enc_flats in *. simpl. rewrite length_app, length_enc_flat, IH by done.
  lia.
Qed.

(** The name fields of written records are terminated. *)
Lemma names_terminated_enc_flats : forall (fs : list flat_file) (X : list byte),
  Forall good_flat fs -> names_terminated (length fs) (enc_flats fs ++ X).
Proof.
  induction fs as [|f fs IH]; intros X Hfs; [done|].
  inversion Hfs as [|? ? Hf Hfs']; subst.
  change (length (f :: fs)) with (S (length fs)).
  unfold enc_flats. simpl concat. fold (enc_flats fs).
  rewrite <- app_assoc. split.
  - destruct Hf as (_ & Hlen & _). unfold enc_flat. rewrite <- !app_assoc.
    rewrite take_app_ge by lia. apply elem_of_app. right.
    rewrite take_app_length' by (by rewrite length_replicate).
    apply elem_of_replicate. split; [done|lia].
  - rewrite drop_app_length' by (symmetry; by apply length_enc_flat).
    by apply IH.
Qed.

Lemma round_trip_at_registry `{Host} (behind : nat -> list byte)
    (fs : list flat_file) (arc : nat)
    (w : world) (old : list UNPKentry) (X : list byte) :
  Forall good_flat fs ->
  io_rest (w_io w) = enc_flats fs ++ X ->
  w_arcs w !! arc = Some old ->
  exists w',
    FlatRecord.vpkLoadEntries behind (Z.of_nat (length fs)) arc w = Some (1, w')
    /\ w' = registered arc (map flat_entry fs) (consumed (64 * length fs) w).
Proof.
  intros Hfs Hrest Hlive. unfold FlatRecord.vpkLoadEntries, func.
  rewrite Nat2Z.id. unfold bind at 1.
  rewrite (entries_for_ok behind (length fs) 0 arc old w Hlive);
    [|unfold bytes_left; rewrite Hrest, length_app, length_enc_flats by done; lia].
  eexists. split; [reflexivity|].
  rewrite Hrest.
  rewrite flat_records_read_terminated by (by apply names_terminated_enc_flats).
  by rewrite flat_records_enc_flats.
Qed.

(** X11: round trip of the flat layout through the loader.  On a stream
    that holds the 64-byte records written from a list of files (names of
    at most 55 bytes without NUL, positions and lengths below 2^32), the
    flat-record [vpkLoadEntries] called with their number returns 1 and
    appends to the registry exactly these files, in order, with their
    names, positions and lengths, on either byte order. *)
Theorem flat_loader_round_trip `{Host} (behind : nat -> list byte)
    (fs : list flat_file) (arc : nat)
    (w : world) (old : list UNPKentry) (X : list byte) :
  Forall good_flat fs ->
  io_rest (w_io w) = enc_flats fs ++ X ->
  w_arcs w !! arc = Some old ->
  exists w',
    FlatRecord.vpkLoadEntries behind (Z.of_nat (length fs)) arc w = Some (1, w')
    /\ w_arcs w' !! arc = Some (old ++ map flat_entry fs)
    /\ io_rest (w_io w') = X.
Proof.
  intros Hfs Hrest Hlive. unfold FlatRecord.vpkLoadEntries, func.
  rewrite Nat2Z.id. unfold bind at 1.
  rewrite (entries_for_ok behind (length fs) 0 arc old w Hlive);
    [|unfold bytes_left; rewrite Hrest, length_app, length_enc_flats by done; lia].
  eexists. split; [reflexivity|].
  rewrite Hrest.
  rewrite flat_records_read_terminated by (by apply names_terminated_enc_flats).
  rewrite flat_records_enc_flats by done.
  split; [by apply registered_lookup|].
  change (io_rest (w_io (registered ?a ?e ?w'))) with (io_rest (w_io w')).
  apply (io_rest_consumed_app (enc_flats fs)); [done|].
  by apply length_enc_flats.
Qed.

Lemma flat_chairs_good : Forall good_flat flat_chairs.
Proof.
  apply Forall_cons_2; [|apply Forall_cons_2; [|apply Forall_nil_2]];
    (split; [compute_done|]; split; [simpl; lia|]; simpl; lia).
Qed.

Lemma flat_loader_round_trip_witness :
  let w := mkWorld (mkIo (enc_flats flat_chairs ++ bytes "rest") 0) None 1
                   {[ 0%nat := [] ]} in
  Forall good_flat flat_chairs
  /\ io_rest (w_io w) = enc_flats flat_chairs ++ bytes "rest"
  /\ w_arcs w !! 0%nat = Some []
  /\ exists w',
       FlatRecord.vpkLoadEntries (H:=big_endian_host) six_behind
         (Z.of_nat (length flat_chairs)) 0 w = Some (1, w')
       /\ w_arcs w' !! 0%nat = Some ([] ++ map flat_entry flat_chairs)
       /\ io_rest (w_io w') = bytes "rest".
Proof.
  intros w. split; [exact flat_chairs_good|]. split; [reflexivity|].
  split; [reflexivity|].
  apply (flat_loader_round_trip (H:=big_endian_host) six_behind flat_chairs 0 w []
           (bytes "rest")); [exact flat_chairs_good|reflexivity|reflexivity].
Defined.

(** X12: round trip through [VPK_openArchive] with the flat-record loader.
    For an archive whose header holds the signature, version 1 or 2, an
    offset inside the data and the length [64 * n], and whose data at that
    offset are the records written from [n] files, the call returns a
    fresh handle whose registry holds exactly these files in order; it has
    set [*claimed], left the error code alone and the cursor behind the
    last record. *)
Theorem flat_archive_round_trip `{Host} (behind : nat -> list byte)
    (name : list byte) (w : world)
    (m v o c rest X : list byte) (fs : list flat_file) :
  io_rest (w_io w) = m ++ v ++ o ++ c ++ rest ->
  length m = 4%nat -> length v = 4%nat ->
  length o = 4%nat -> length c = 4%nat ->
  le_Z m = VPK_SIG -> le_Z v = 1 \/ le_Z v = 2 ->
  le_Z c = 64 * Z.of_nat (length fs) ->
  (Z.to_nat (le_Z o) <= length (io_data (w_io w)))%nat ->
  drop (Z.to_nat (le_Z o)) (io_data (w_io w)) = enc_flats fs ++ X ->
  Forall good_flat fs ->
  VPK_openArchive (UseFlatRecord behind) name 0 w
  = Some (Some (fresh (dom (w_arcs w))),
          mkWorld (mkIo (io_data (w_io w))
                        (Z.to_nat (le_Z o) + 64 * length fs))
                  (w_err w) 1
                  (<[fresh (dom (w_arcs w)) := map flat_entry fs]> (w_arcs w))).
Proof.
  intros Hrest Hm Hv Ho Hc Hsig Hver Hcount Hpos Hdata Hfs.
  rewrite (open_header (UseFlatRecord behind) name w m v o c rest) by done.
  unfold func, bind at 1, BAIL_IF.
  rewrite Hcount, Z.mul_comm, Z.mod_mul by lia. cbn [Z.eqb negb].
  rewrite Z.div_mul by lia.
  unfold VPK_openArchive_load.
  unfold bind at 1, io_seek. rewrite decide_True; cycle 1.
  { split; [apply le_Z_nonneg|].
    cbn [w_io set_claimed consumed set_io io_advance io_data]. lia. }
  unfold bind at 1, BAIL_IF_ERRPASS at 1. cbn [Z.eqb].
  unfold bind at 1, UNPK_openArchive. unfold bind at 1, BAIL_IF_ERRPASS at 1.
  cbn [is_null]. unfold bind at 1, call, vpkLoadEntries.
  set (arc := fresh (dom (w_arcs _))).
  set (w1 := set_arcs _ _).
  destruct (round_trip_at_registry behind fs arc w1 [] X Hfs)
    as (w' & Hrun & Hw').
  - exact Hdata.
  - subst w1. cbn [w_arcs set_arcs]. apply lookup_insert_eq.
  - rewrite Hrun. cbn [Z.eqb]. unfold return_. rewrite Hw'.
    subst w1 arc. unfold registered, consumed, set_arcs, set_io, io_advance.
    cbn [w_io w_err w_claimed w_arcs set_claimed io_data io_pos].
    do 3 f_equal. apply map_eq. intros i.
    destruct (decide (i = fresh (dom (w_arcs w)))) as [->|Hne].
    + by rewrite lookup_alter_eq, !lookup_insert_eq.
    + by rewrite lookup_alter_ne, !lookup_insert_ne.
Qed.

Lemma flat_archive_round_trip_witness :
  let m := [x34; x12; xaa; x55] in
  let v := [x01; x00; x00; x00] in
  let o := [x10; x00; x00; x00] in
  let c := [x80; x00; x00; x00] in
  let w := fresh_world (m ++ v ++ o ++ c ++ enc_flats flat_chairs) in
  io_rest (w_io w) = m ++ v ++ o ++ c ++ enc_flats flat_chairs
  /\ le_Z m = VPK_SIG /\ (le_Z v = 1 \/ le_Z v = 2)
  /\ le_Z c = 64 * Z.of_nat (length flat_chairs)
  /\ (Z.to_nat (le_Z o) <= length (io_data (w_io w)))%nat
  /\ drop (Z.to_nat (le_Z o)) (io_data (w_io w)) = enc_flats flat_chairs ++ []
  /\ Forall good_flat flat_chairs
  /\ VPK_openArchive (H:=little_endian_host) (UseFlatRecord six_behind)
                     (bytes "pak0.pak") 0 w
     = Some (Some (fresh (dom (w_arcs w))),
             mkWorld (mkIo (io_data (w_io w))
                           (Z.to_nat (le_Z o) + 64 * length flat_chairs))
                     (w_err w) 1
                     (<[fresh (dom (w_arcs w)) := map flat_entry flat_chairs]>
                        (w_arcs w))).
Proof.
  intros m v o c w.
  assert (Z.to_nat (le_Z o) <= length (io_data (w_io w)))%nat as Hpos
    by (vm_compute; lia).
  split; [reflexivity|]. split; [reflexivity|]. split; [left; reflexivity|].
  split; [reflexivity|]. split; [exact Hpos|]. split; [reflexivity|].
  split; [exact flat_chairs_good|].
  apply (flat_archive_round_trip (H:=little_endian_host) six_behind
           (bytes "pak0.pak") w
           m v o c (enc_flats flat_chairs) [] flat_chairs);
    first [reflexivity | left; reflexivity | exact Hpos | exact flat_chairs_good].
Defined.

(** ** Byte order of the host *)

Lemma bind_ext {R A B} (c : C R A) (k1 k2 : A -> C R B) w :
  (forall a w', c w = Some (Next a, w') -> k1 a w' = k2 a w') ->
  bind c k1 w = bind c k2 w.
Proof.
  intros Hk. unfold bind. destruct (c w) as [[[a|r] w']|]; [|done|done].
  by apply Hk.
Qed.

(** After the bail that follows it, a read has delivered [len] bytes. *)
Lemma bind_readAll_ext {R B} (len : nat) (r : R)
    (k1 k2 : list byte -> C R B) w :
  (forall buf w', length buf = len -> k1 buf w' = k2 buf w') ->
  bind (__PHYSFS_readAll len)
       (fun x => match x with
                 | (rc, b) => bind (BAIL_IF_ERRPASS (rc =? 0) r) (fun _ => k1 b)
                 end) w
  = bind (__PHYSFS_readAll len)
         (fun x => match x with
                   | (rc, b) => bind (BAIL_IF_ERRPASS (rc =? 0) r) (fun _ => k2 b)
                   end) w.
Proof.
  intros Hk. apply bind_ext. intros [rc buf] w' Hrun.
  destruct (readAll_total (R:=R) len w) as (rc' & buf' & k & Hrun' & Hk' & Hrc).
  rewrite Hrun in Hrun'. injection Hrun' as -> -> ->.
  destruct Hrc as [[-> _] | (-> & -> & ->)]; [done|].
  unfold bind, BAIL_IF_ERRPASS. cbn [Z.eqb]. apply Hk.
  rewrite length_take. unfold bytes_left in Hk'. lia.
Qed.

Lemma host_Z_16_eqb (H1 H2 : Host) (b : list byte) :
  length b = 2%nat ->
  (host_Z (H:=H1) b =? 0xFFFF) = (host_Z (H:=H2) b =? 0xFFFF).
Proof.
  intros Hlen. destruct b as [|t0 [|t1 [|? ?]]]; try done.
  destruct (host_Z (H:=H1) [t0; t1] =? 65535) eqn:Hv1;
    destruct (host_Z (H:=H2) [t0; t1] =? 65535) eqn:Hv2; try done.
  - apply Z.eqb_eq, host_Z_16_ffff in Hv1.
    apply (host_Z_16_ffff (H:=H2)) in Hv1. apply Z.eqb_neq in Hv2. done.
  - apply Z.eqb_eq, host_Z_16_ffff in Hv2.
    apply (host_Z_16_ffff (H:=H1)) in Hv2. apply Z.eqb_neq in Hv1. done.
Qed.

Section TwoHosts.
Variables H1 H2 : Host.

Lemma entries_for_host behind : forall n i arc w,
  FlatRecord.entries_for (H:=H1) behind n i arc w
  = FlatRecord.entries_for (H:=H2) behind n i arc w.
Proof.
  induction n as [|n IH]; intros i arc w; [done|].
  cbn [FlatRecord.entries_for].
  apply (bind_readAll_ext 56 0). intros name w1 _.
  apply (bind_readAll_ext 4 0). intros posb w2 Hpos.
  apply (bind_readAll_ext 4 0). intros sizeb w3 Hsize.
  rewrite !(swapULE32_host (H:=H1)), !(swapULE32_host (H:=H2)) by done.
  apply bind_ext. intros e w4 _. apply bind_ext. intros _ w5 _. apply IH.
Qed.

Lemma FlatRecord_host behind (count : Z) (arc : nat) w :
  FlatRecord.vpkLoadEntries (H:=H1) behind count arc w
  = FlatRecord.vpkLoadEntries (H:=H2) behind count arc w.
Proof.
  unfold FlatRecord.vpkLoadEntries, func, bind. by rewrite entries_for_host.
Qed.

Lemma forgetting_bind (c1 c2 : C Z TreeWalk.locals)
    (k1 k2 : TreeWalk.locals -> C Z TreeWalk.locals) w :
  forgetting (c1 w) = forgetting (c2 w) ->
  (forall l1 l2 w', forget_entry l1 = forget_entry l2 ->
                    forgetting (k1 l1 w') = forgetting (k2 l2 w')) ->
  forgetting (bind c1 k1 w) = forgetting (bind c2 k2 w).
Proof.
  intros Hc Hk. unfold bind.
  destruct (c1 w) as [[[l1|r1] w1]|]; destruct (c2 w) as [[[l2|r2] w2]|];
    cbn [forgetting] in Hc; try done.
  assert (forget_entry l1 = forget_entry l2 /\ w1 = w2) as [Hl ->]
    by (split; congruence).
  by apply Hk.
Qed.

Lemma forgetting_bind_same {A} (c : C Z A) (k1 k2 : A -> C Z TreeWalk.locals) w :
  (forall a w', c w = Some (Next a, w') ->
                forgetting (k1 a w') = forgetting (k2 a w')) ->
  forgetting (bind c k1 w) = forgetting (bind c k2 w).
Proof.
  intros Hk. unfold bind. destruct (c w) as [[[a|r] w']|]; [|done|done].
  by apply Hk.
Qed.

Lemma forgetting_readAll (len : nat)
    (k1 k2 : list byte -> C Z TreeWalk.locals) w :
  (forall buf w', length buf = len ->
                  forgetting (k1 buf w') = forgetting (k2 buf w')) ->
  forgetting
    (bind (__PHYSFS_readAll len)
          (fun x => match x with
                    | (rc, b) => bind (BAIL_IF_ERRPASS (rc =? 0) 0) (fun _ => k1 b)
                    end) w)
  = forgetting
      (bind (__PHYSFS_readAll len)
            (fun x => match x with
                      | (rc, b) => bind (BAIL_IF_ERRPASS (rc =? 0) 0) (fun _ => k2 b)
                      end) w).
Proof.
  intros Hk. apply forgetting_bind_same. intros [rc buf] w' Hrun.
  destruct (readAll_total (R:=Z) len w) as (rc' & buf' & k & Hrun' & Hk' & Hrc).
  rewrite Hrun in Hrun'. injection Hrun' as -> -> ->.
  destruct Hrc as [[-> _] | (-> & -> & ->)]; [done|].
  unfold bind, BAIL_IF_ERRPASS. cbn [Z.eqb]. apply Hk.
  rewrite length_take. unfold bytes_left in Hk'. lia.
Qed.

Lemma forget_entry_fields l1 l2 :
  forget_entry l1 = forget_entry l2 ->
  TreeWalk.ext l1 = TreeWalk.ext l2 /\ TreeWalk.dir l1 = TreeWalk.dir l2
  /\ TreeWalk.name l1 = TreeWalk.name l2 /\ TreeWalk.path l1 = TreeWalk.path l2.
Proof.
  unfold forget_entry, TreeWalk.set_entry. intros [= ? ? ? ?]. done.
Qed.

Lemma forget_entry_set_entry e l :
  forget_entry (TreeWalk.set_entry e l) = forget_entry l.
Proof. reflexivity. Qed.

Lemma forget_entry_named (p b : list byte) l1 l2 :
  forget_entry l1 = forget_entry l2 ->
  forget_entry (TreeWalk.set_path p (TreeWalk.set_name b l1))
  = forget_entry (TreeWalk.set_path p (TreeWalk.set_name b l2)).
Proof.
  intros Hl. destruct (forget_entry_fields l1 l2 Hl) as (He & Hd & _ & _).
  unfold forget_entry, TreeWalk.set_entry, TreeWalk.set_path, TreeWalk.set_name.
  cbn [TreeWalk.ext TreeWalk.dir TreeWalk.path TreeWalk.name].
  by rewrite He, Hd.
Qed.

Lemma name_while_host : forall fuel l1 l2 w,
  forget_entry l1 = forget_entry l2 ->
  forgetting (TreeWalk.name_while (H:=H1) fuel l1 w)
  = forgetting (TreeWalk.name_while (H:=H2) fuel l2 w).
Proof.
  induction fuel as [|fuel IH]; intros l1 l2 w Hl; [done|].
  destruct (forget_entry_fields l1 l2 Hl) as (He & Hd & Hn & Hp).
  cbn [TreeWalk.name_while]. rewrite Hn.
  apply forgetting_bind_same. intros [rc buf] w1 _.
  apply forgetting_bind_same. intros _ w2 _.
  cbn [TreeWalk.name TreeWalk.set_name TreeWalk.dir TreeWalk.ext TreeWalk.path].
  rewrite He, Hd, Hp.
  destruct (u8 (hd x00 buf) =? 0).
  { unfold ret, forgetting, forget_entry, TreeWalk.set_entry, TreeWalk.set_name.
    cbn [TreeWalk.ext TreeWalk.dir TreeWalk.path TreeWalk.name]. by rewrite He, Hd, Hp. }
  do 5 (apply forgetting_readAll; intros ? ? _).
  apply forgetting_readAll. intros t w8 Ht.
  cbn [TreeWalk.entry TreeWalk.set_entry TreeWalk.terminator TreeWalk.set_terminator].
  rewrite (host_Z_16_eqb H1 H2 t Ht).
  apply forgetting_bind_same. intros _ w9 _.
  apply IH. rewrite !forget_entry_set_entry. by apply forget_entry_named.
Qed.

Lemma dir_while_host : forall fuel l1 l2 w,
  forget_entry l1 = forget_entry l2 ->
  forgetting (TreeWalk.dir_while (H:=H1) fuel l1 w)
  = forgetting (TreeWalk.dir_while (H:=H2) fuel l2 w).
Proof.
  induction fuel as [|fuel IH]; intros l1 l2 w Hl; [done|].
  destruct (forget_entry_fields l1 l2 Hl) as (He & Hd & Hn & Hp).
  cbn [TreeWalk.dir_while]. rewrite Hd.
  apply forgetting_bind_same. intros [rc buf] w1 _.
  apply forgetting_bind_same. intros _ w2 _.
  cbn [TreeWalk.dir TreeWalk.set_dir].
  assert (forget_entry (TreeWalk.set_dir buf l1)
          = forget_entry (TreeWalk.set_dir buf l2)) as Hl'.
  { unfold forget_entry, TreeWalk.set_entry, TreeWalk.set_dir.
    cbn [TreeWalk.ext TreeWalk.dir TreeWalk.path TreeWalk.name].
    by rewrite He, Hn, Hp. }
  destruct (u8 (hd x00 buf) =? 0).
  { unfold ret, forgetting. by rewrite Hl'. }
  apply forgetting_bind; [by apply name_while_host|].
  intros l1' l2' w3 Hl3. by apply IH.
Qed.

Lemma ext_while_host : forall fuel l1 l2 w,
  forget_entry l1 = forget_entry l2 ->
  forgetting (TreeWalk.ext_while (H:=H1) fuel l1 w)
  = forgetting (TreeWalk.ext_while (H:=H2) fuel l2 w).
Proof.
  induction fuel as [|fuel IH]; intros l1 l2 w Hl; [done|].
  destruct (forget_entry_fields l1 l2 Hl) as (He & Hd & Hn & Hp).
  cbn [TreeWalk.ext_while]. rewrite He.
  apply forgetting_bind_same. intros [rc buf] w1 _.
  apply forgetting_bind_same. intros _ w2 _.
  cbn [TreeWalk.ext TreeWalk.set_ext].
  assert (forget_entry (TreeWalk.set_ext buf l1)
          = forget_entry (TreeWalk.set_ext buf l2)) as Hl'.
  { unfold forget_entry, TreeWalk.set_entry, TreeWalk.set_ext.
    cbn [TreeWalk.ext TreeWalk.dir TreeWalk.path TreeWalk.name].
    by rewrite Hd, Hn, Hp. }
  destruct (u8 (hd x00 buf) =? 0).
  { unfold ret, forgetting. by rewrite Hl'. }
  apply forgetting_bind; [by apply dir_while_host|].
  intros l1' l2' w3 Hl3. by apply IH.
Qed.

Lemma TreeWalk_host (count : Z) (arc : nat) w :
  TreeWalk.vpkLoadEntries (H:=H1) count arc w
  = TreeWalk.vpkLoadEntries (H:=H2) count arc w.
Proof.
  unfold TreeWalk.vpkLoadEntries, func, bind.
  pose proof (ext_while_host (S (length (io_rest (w_io w)))) TreeWalk.locals0
                TreeWalk.locals0 w eq_refl) as Hloop.
  destruct (TreeWalk.ext_while (H:=H1) _ _ w) as [[[l1|r1] w1]|];
    destruct (TreeWalk.ext_while (H:=H2) _ _ w) as [[[l2|r2] w2]|];
    simpl in Hloop; try done.
  - by replace w2 with w1 by congruence.
  - by replace r2 with r1 by congruence; replace w2 with w1 by congruence.
Qed.

Lemma vpkLoadEntries_host (def : LoadEntries) (count : Z) (arc : nat) w :
  vpkLoadEntries (H:=H1) def count arc w = vpkLoadEntries (H:=H2) def count arc w.
Proof. destruct def; [apply TreeWalk_host|apply FlatRecord_host]. Qed.

Lemma VPK_openArchive_host (def : LoadEntries) (name : list byte)
    (forWriting : Z) w :
  VPK_openArchive (H:=H1) def name forWriting w
  = VPK_openArchive (H:=H2) def name forWriting w.
Proof.
  unfold VPK_openArchive, func.
  match goal with
  | |- match ?a with _ => _ end = match ?b with _ => _ end =>
      enough (a = b) as -> by done
  end.
  apply bind_ext. intros _ w1 _.
  apply (bind_readAll_ext 4 NULL). intros m w2 Hm.
  rewrite (swapULE32_host (H:=H1)), (swapULE32_host (H:=H2)) by done.
  destruct (negb (le_Z m =? VPK_SIG)); [done|].
  apply (bind_readAll_ext 4 NULL). intros v w3 Hv.
  rewrite (swapULE32_host (H:=H1)), (swapULE32_host (H:=H2)) by done.
  destruct (negb (le_Z v =? 1) && negb (le_Z v =? 2)); [done|].
  apply bind_ext. intros _ w4 _.
  apply (bind_readAll_ext 4 NULL). intros o w5 Ho.
  apply (bind_readAll_ext 4 NULL). intros c w6 Hc.
  rewrite !(swapULE32_host (H:=H1)), !(swapULE32_host (H:=H2)) by done.
  apply bind_ext. intros _ w7 _.
  unfold VPK_openArchive_load.
  apply bind_ext. intros ok w8 _. apply bind_ext. intros _ w9 _.
  apply bind_ext. intros p w10 _. apply bind_ext. intros _ w11 _.
  destruct p as [arc|]; [|done].
  unfold bind, call. by rewrite vpkLoadEntries_host.
Qed.
End TwoHosts.

(** X13: the outcome of [VPK_openArchive] does not depend on the byte order
    of the host, for either definition of [vpkLoadEntries] and the same
    bytes behind the name array of the flat loader: the header and the
    flat records go through [PHYSFS_swapULE32], and of the fields that
    the tree walker reads without conversion only the terminator is looked
    at, against a value that reads the same in both orders. *)
Theorem open_is_host_independent (H1 H2 : Host) (def : LoadEntries)
    (name : list byte) (forWriting : Z) (w : world) :
  VPK_openArchive (H:=H1) def name forWriting w
  = VPK_openArchive (H:=H2) def name forWriting w.
Proof. apply VPK_openArchive_host. Qed.

(** ** The error code after [VPK_openArchive] *)

Section OpenErrors.
Context `{Host}.

(** The error code after a load: the flat loader sets none, the tree
    walker none or "corrupt", and that only on a return of 0. *)
Lemma vpkLoadEntries_err (def : LoadEntries) (count : Z) (arc : nat) w rc w' :
  vpkLoadEntries def count arc w = Some (rc, w') ->
  w_err w' = w_err w
  \/ rc = 0 /\ def = UseTreeWalk /\ w_err w' = Some PHYSFS_ERR_CORRUPT.
Proof.
  destruct def as [|behind]; cbn [vpkLoadEntries]; intros Hrun.
  - destruct (TreeWalk_error_kept count arc w rc w' Hrun)
      as [[-> Herr] | [-> [Herr|Herr]]]; auto.
  - left. by apply (FlatRecord_err behind count arc w rc).
Qed.
End OpenErrors.

(** X14: the error code after [VPK_openArchive], case by case; the data
    of the stream are never changed.  Opened for writing: "read only".
    Opened for reading: "unsupported" when the signature is read and
    wrong, or is right and the version is read and neither 1 nor 2;
    "corrupt" when the 16 bytes of the header are read, signature and
    version pass and the directory length is no multiple of 64; the code
    as it was when a read of the header falls short or when the seek to
    the directory is refused; and once the header is accepted, the code
    that the load leaves, which is the code as it was when the load
    returns 1 (a handle is answered) and when the flat-record load
    returns 0, and the code as it was or "corrupt" when the tree walk
    returns 0.  In every case but the return of 1 the answer is
    [NULL]. *)
Theorem open_error_codes `{Host} (def : LoadEntries) (name : list byte)
    (forWriting : Z) (w : world) :
  exists p w',
    VPK_openArchive def name forWriting w = Some (p, w')
    /\ io_data (w_io w') = io_data (w_io w)
    /\ (forWriting <> 0
        /\ p = NULL /\ w_err w' = Some PHYSFS_ERR_READ_ONLY
        \/ forWriting = 0
           /\ ((4 <= bytes_left w)%nat
               /\ (stream_magic w <> VPK_SIG
                   \/ (8 <= bytes_left w)%nat
                      /\ ~ (stream_version w = 1 \/ stream_version w = 2))
               /\ p = NULL /\ w_err w' = Some PHYSFS_ERR_UNSUPPORTED
               \/ (16 <= bytes_left w)%nat
                  /\ stream_magic w = VPK_SIG
                  /\ (stream_version w = 1 \/ stream_version w = 2)
                  /\ stream_length w mod 64 <> 0
                  /\ p = NULL /\ w_err w' = Some PHYSFS_ERR_CORRUPT
               \/ ((bytes_left w < 4)%nat
                   \/ stream_magic w = VPK_SIG
                      /\ ((bytes_left w < 8)%nat
                          \/ (stream_version w = 1 \/ stream_version w = 2)
                             /\ ((bytes_left w < 16)%nat
                                 \/ stream_length w mod 64 = 0
                                    /\ Z.of_nat (length (io_data (w_io w)))
                                       < stream_offset w)))
                  /\ p = NULL /\ w_err w' = w_err w
               \/ header_accepted forWriting w
                  /\ exists rc w2,
                       vpkLoadEntries def (stream_length w / 64)
                                      (fresh (dom (w_arcs w)))
                                      (at_directory (fresh (dom (w_arcs w))) w)
                       = Some (rc, w2)
                       /\ w_err w' = w_err w2
                       /\ (rc = 1 /\ p <> NULL /\ w_err w2 = w_err w
                           \/ rc = 0 /\ p = NULL
                              /\ (w_err w2 = w_err w
                                  \/ def = UseTreeWalk
                                     /\ w_err w2 = Some PHYSFS_ERR_CORRUPT)))).
Proof.
  destruct (VPK_openArchive_cases def name forWriting w)
    as (p & w' & Hrun & Hcase).
  exists p, w'. split; [exact Hrun|].
  destruct Hcase as [(Hfw & -> & ->) | (-> & Hcase)].
  { split; [done|]. left. done. }
  destruct Hcase
    as [(H4 & -> & ->)
       |[(H4 & Hsig & -> & ->)
        |[(H8 & Hsig & -> & ->)
         |[(H8 & Hsig & Hver & -> & ->)
          |[(H16 & Hsig & Hver & -> & ->)
           |[(H16 & Hsig & Hver & Hmod & -> & ->)
            |[(H16 & Hsig & Hver & Hmod & Hpos & -> & ->)
             |(Hacc & rc & w2 & Hload & Hld & Hres)]]]]]]].
  - split; [done|]. right. split; [done|]. do 2 right; left.
    split; [by left|done].
  - split; [done|]. right. split; [done|]. left.
    split; [done|]. split; [by left|done].
  - split; [done|]. right. split; [done|]. do 2 right; left.
    split; [|done]. right. split; [done|]. left. lia.
  - split; [done|]. right. split; [done|]. left.
    split; [lia|]. split; [by right|done].
  - split; [done|]. right. split; [done|]. do 2 right; left.
    split; [|done]. right. split; [done|]. right. split; [done|]. left. lia.
  - split; [done|]. right. split; [done|]. right; left. done.
  - split; [done|]. right. split; [done|]. do 2 right; left.
    split; [|done]. right. split; [done|]. right. split; [done|]. right. done.
  - pose proof (vpkLoadEntries_err def _ _ _ rc w2 Hload) as Herr.
    change (w_err (at_directory ?a w)) with (w_err w) in Herr.
    destruct Hld as [Hdata _ _ _].
    destruct Hres as [(-> & -> & ->) | (-> & -> & ->)].
    + split; [exact Hdata|]. right. split; [done|]. do 3 right.
      split; [exact Hacc|]. exists 0, w2. split; [exact Hload|].
      split; [done|]. right. split; [done|]. split; [done|].
      destruct Herr as [Herr | (_ & Hdef & Herr)]; [by left|by right].
    + split; [exact Hdata|]. right. split; [done|]. do 3 right.
      split; [exact Hacc|]. exists 1, w2. split; [exact Hload|].
      split; [done|]. left. split; [done|]. split; [done|].
      destruct Herr as [Herr | (? & _)]; [exact Herr|done].
Qed.

(** ** A stream that ends inside the header *)

(** X15: opened for reading on a stream that ends inside the 16-byte
    header, with the signature and the version acceptable as far as they
    are there, [VPK_openArchive] returns [NULL] with the stream read to
    its end and no error code set by this file; [*claimed] is set when
    signature and version are complete, and left alone otherwise. *)
Theorem truncated_header_fails `{Host} (def : LoadEntries) (name : list byte)
    (w : world) :
  (bytes_left w < 16)%nat ->
  ((4 <= bytes_left w)%nat -> stream_magic w = VPK_SIG) ->
  ((8 <= bytes_left w)%nat -> stream_version w = 1 \/ stream_version w = 2) ->
  VPK_openArchive def name 0 w
  = Some (NULL,
          if decide (8 <= bytes_left w)%nat
          then set_claimed 1 (consumed (bytes_left w) w)
          else consumed (bytes_left w) w).
Proof. apply open_truncated. Qed.

Lemma truncated_header_fails_witness :
  let w := fresh_world (take 10 (chair_header x00 x00 x00 x00)) in
  (bytes_left w < 16)%nat
  /\ ((4 <= bytes_left w)%nat -> stream_magic w = VPK_SIG)
  /\ ((8 <= bytes_left w)%nat -> stream_version w = 1 \/ stream_version w = 2)
  /\ VPK_openArchive (H:=big_endian_host) UseTreeWalk (bytes "pak01_dir.vpk") 0 w
     = Some (NULL,
             if decide (8 <= bytes_left w)%nat
             then set_claimed 1 (consumed (bytes_left w) w)
             else consumed (bytes_left w) w).
Proof.
  intros w.
  assert (bytes_left w < 16)%nat as H1 by (vm_compute; lia).
  assert ((4 <= bytes_left w)%nat -> stream_magic w = VPK_SIG) as H2
    by (intros _; reflexivity).
  assert ((8 <= bytes_left w)%nat -> stream_version w = 1 \/ stream_version w = 2)
    as H3 by (intros _; left; reflexivity).
  split; [exact H1|]. split; [exact H2|]. split; [exact H3|].
  exact (truncated_header_fails (H:=big_endian_host) UseTreeWalk
           (bytes "pak01_dir.vpk") w H1 H2 H3).
Defined.

(** ** A stream that ends inside a file record *)

Section TruncatedRecord.
Context `{Host}.
Import TreeWalk.

(** One read of the record: it goes through, or the stream ends in it and
    the function returns 0 at the end of the stream. *)
Ltac read_or_stop w0 :=
  apply wp_bind;
  match goal with
  | |- wp (__PHYSFS_readAll ?n) _ (consumed ?k w0) =>
      destruct (decide (n <= bytes_left (consumed k w0))%nat);
      [ apply wp_readAll_take; [done|];
        apply wp_bind, wp_BAIL_IF_ERRPASS; cbn [Z.eqb];
        rewrite consumed_consumed
      | apply wp_readAll_short; [lia|];
        apply wp_bind, wp_BAIL_IF_ERRPASS; cbn [Z.eqb];
        split; [done|];
        apply consumed_to_end; rewrite bytes_left_consumed in *; lia ]
  end.

Lemma truncated_record_returns w (s tail : list byte) :
  io_rest (w_io w) = s ++ x00 :: tail -> segment s ->
  (length tail < 18)%nat ->
  head_returns name_while 0 (fun w' => w' = consumed (bytes_left w) w) w.
Proof.
  intros Hrest Hs Htail fuel l (He & Hd & Hn) Hfuel.
  destruct fuel as [|fuel]; [lia|].
  assert (bytes_left w = length s + 1 + length tail)%nat as Hbl.
  { unfold bytes_left. rewrite Hrest, length_app. simpl. lia. }
  enough (wp (name_while (S fuel) l)
             (fun fl w' => fl = Return 0 /\ w' = consumed (bytes_left w) w) w)
    as Hwp.
  { apply wp_run in Hwp as (fl & w' & Hrun & -> & ->). eauto. }
  destruct (read_segment s tail (name l) w Hrest Hs Hn) as [Hread Hhd].
  unfold wp. cbn [name_while]. rewrite (bind_Next _ _ _ _ _ Hread).
  unfold bind at 1. unfold BAIL_IF_ERRPASS at 1. cbn [Z.eqb].
  cbn [name set_name]. rewrite Hhd.
  match goal with |- match ?c ?w0 with _ => _ end => change (wp c
    (fun fl w' => fl = Return 0 /\ w' = consumed (bytes_left w) w) w0) end.
  read_or_stop w. read_or_stop w. read_or_stop w.
  read_or_stop w. read_or_stop w. read_or_stop w.
  rewrite !bytes_left_consumed in *. lia.
Qed.
End TruncatedRecord.

(** X16: when the walker, after any well-formed part of the tree, stands
    at the head of the name loop and the stream holds a name and then
    ends before the 18 bytes of its record are complete,
    [vpkLoadEntries] returns 0 at the end of the stream and sets no error
    code: a truncated record is told apart from a wrong terminator, which
    sets "corrupt". *)
Theorem truncated_record_fails `{Host} (count : Z) (arc : nat) (w : world)
    (es : list tree_ext) (e : list byte) (ds : list tree_dir) (d : list byte)
    (fs : list tree_file) (nm tail : list byte) :
  good_prefix AtName es e ds d fs ->
  io_rest (w_io w) = walked_prefix AtName es e ds d fs ++ nm ++ x00 :: tail ->
  segment nm ->
  (length tail < 18)%nat ->
  TreeWalk.vpkLoadEntries count arc w = Some (0, consumed (bytes_left w) w).
Proof.
  intros Hgood Hrest Hnm Htail.
  pose proof (io_rest_consumed_app _ _ _ _ Hrest eq_refl) as Hat.
  destruct (failure_at_head AtName es e ds d fs _ 0 _ count arc w Hgood Hrest
              (truncated_record_returns _ nm tail Hat Hnm Htail))
    as (w' & Hrun & ->).
  rewrite Hrun. do 2 f_equal. apply consumed_to_end.
  unfold bytes_left. rewrite Hrest, length_app. lia.
Qed.

Lemma truncated_record_fails_witness :
  let w := mkWorld (mkIo (take 49 (chair_archive x40 x00 x00 x00 xff xff)) 16)
                   None 1 {[ 0%nat := [] ]} in
  let e := bytes "txt" in
  let d := bytes "models/props" in
  let nm := bytes "chair" in
  let tail := [x00; x00; x00; x00] ++ [x00; x00] ++ [xff; xff] ++ [x80; x00] in
  good_prefix AtName [] e [] d []
  /\ io_rest (w_io w) = walked_prefix AtName [] e [] d [] ++ nm ++ x00 :: tail
  /\ segment nm
  /\ (length tail < 18)%nat
  /\ TreeWalk.vpkLoadEntries (H:=big_endian_host) 1 0 w
     = Some (0, consumed (bytes_left w) w).
Proof.
  intros w e d nm tail.
  assert (forall s, s <> [] -> (length s < 256)%nat ->
                    Forall (fun c => c <> x00) s -> segment s) as Hseg
    by (by intros s ? ? ?).
  assert (segment e) as He
    by (apply Hseg; [discriminate|simpl; lia|compute_done]).
  assert (segment d) as Hd
    by (apply Hseg; [discriminate|simpl; lia|compute_done]).
  assert (segment nm) as Hnm
    by (apply Hseg; [discriminate|simpl; lia|compute_done]).
  assert (good_prefix AtName [] e [] d []) as Hgood.
  { split; [constructor|]. split; [exact He|]. split; [constructor|].
    split; [exact Hd|constructor]. }
  assert (length tail < 18)%nat as Htail by (simpl; lia).
  split; [exact Hgood|]. split; [reflexivity|]. split; [exact Hnm|].
  split; [exact Htail|].
  apply (truncated_record_fails (H:=big_endian_host) 1 0 w [] e [] d [] nm tail);
    [exact Hgood|reflexivity|exact Hnm|exact Htail].
Defined.

(** ** What the tree walker makes of a stream *)

Lemma find_nul_split (bs : list byte) (i : nat) :
  find_nul bs = Some i ->
  bs = take i bs ++ x00 :: drop (S i) bs
  /\ Forall (fun c => c <> x00) (take i bs).
Proof.
  revert i. induction bs as [|c bs IH]; intros i; simpl; [done|].
  destruct (u8 c =? 0) eqn:Hz.
  - intros [= <-]. apply Z.eqb_eq, u8_zero in Hz as ->. by split.
  - destruct (find_nul bs) as [j|]; simpl; [|done].
    intros [= <-]. destruct (IH j eq_refl) as [Hbs Hnz]. simpl. split.
    + by rewrite <- Hbs.
    + constructor; [|done]. intros ->. done.
Qed.

(** The string at the cursor: none that ends within 256 bytes, the empty
    string, or a path segment. *)
Lemma read_string_cases (dest : list byte) w :
  length dest = 256%nat ->
  (exists dest' k,
      call (R:=Z) (vpkReadString dest 256) w
      = Some (Next (0, dest'), consumed k w))
  \/ (exists R, io_rest (w_io w) = x00 :: R)
  \/ (exists s R, io_rest (w_io w) = s ++ x00 :: R /\ segment s).
Proof.
  intros Hcap.
  destruct (find_nul (take 256 (io_rest (w_io w)))) as [i|] eqn:Hfind.
  - right. pose proof (find_nul_lt _ _ Hfind) as Hi.
    rewrite length_take in Hi.
    destruct (find_nul_split _ _ Hfind) as [Hwin Hnz].
    assert (io_rest (w_io w)
            = take i (take 256 (io_rest (w_io w)))
              ++ x00 :: (drop (S i) (take 256 (io_rest (w_io w)))
                         ++ drop 256 (io_rest (w_io w)))) as Hrest.
    { rewrite <- (take_drop 256 (io_rest (w_io w))) at 1.
      rewrite Hwin at 1. by rewrite <- app_assoc. }
    destruct (take i (take 256 (io_rest (w_io w)))) as [|c s] eqn:Hs.
    + left. eexists. exact Hrest.
    + right. eexists _, _. split; [exact Hrest|].
      split; [done|]. split; [done|].
      rewrite <- Hs, length_take. lia.
  - left. eexists _, _. apply call_returns.
    rewrite vpkReadString_is_spec by lia.
    unfold read_string_spec. rewrite Hfind. reflexivity.
Qed.

Lemma record_split (R : list byte) :
  (18 <= length R)%nat ->
  exists crc pre ar off sz t0 t1 X,
    R = crc ++ pre ++ ar ++ off ++ sz ++ t0 :: t1 :: X
    /\ length crc = 4%nat /\ length pre = 2%nat /\ length ar = 2%nat
    /\ length off = 4%nat /\ length sz = 4%nat.
Proof.
  intros Hlen.
  destruct (drop 16 R) as [|t0 [|t1 X]] eqn:Htail;
    [apply (f_equal length) in Htail; rewrite length_drop in Htail;
     simpl in Htail; lia ..|].
  exists (take 4 R), (take 2 (drop 4 R)), (take 2 (drop 6 R)),
         (take 4 (drop 8 R)), (take 4 (drop 12 R)), t0, t1, X.
  split.
  - rewrite <- Htail.
    transitivity (take 4 R ++ drop 4 R); [by rewrite take_drop|]. f_equal.
    transitivity (take 2 (drop 4 R) ++ drop 2 (drop 4 R));
      [by rewrite take_drop|]. f_equal. rewrite drop_drop.
    transitivity (take 2 (drop 6 R) ++ drop 2 (drop 6 R));
      [by rewrite take_drop|]. f_equal. rewrite drop_drop.
    transitivity (take 4 (drop 8 R) ++ drop 4 (drop 8 R));
      [by rewrite take_drop|]. f_equal. rewrite drop_drop.
    transitivity (take 4 (drop 12 R) ++ drop 4 (drop 12 R));
      [by rewrite take_drop|]. f_equal. by rewrite drop_drop.
  - rewrite !length_take, !length_drop. lia.
Qed.

Lemma falls_out_shift w (Q X P : list byte) w' :
  io_rest (w_io w) = Q ++ X ->
  falls_out (consumed (length Q) w) P w' -> falls_out w (Q ++ P) w'.
Proof.
  intros Hrest (R & HR & ->).
  rewrite (io_rest_consumed_app Q X _ w Hrest eq_refl) in HR.
  exists R. split.
  - by rewrite Hrest, HR, <- app_assoc.
  - rewrite consumed_consumed, length_app. f_equal. lia.
Qed.

Lemma corrupt_at_shift w (Q X P : list byte) w' :
  io_rest (w_io w) = Q ++ X ->
  corrupt_at (consumed (length Q) w) P w' -> corrupt_at w (Q ++ P) w'.
Proof.
  intros Hrest (B & n & HB & Hbad & ->).
  rewrite (io_rest_consumed_app Q X _ w Hrest eq_refl) in HB.
  exists B, n. split; [by rewrite Hrest, HB, <- app_assoc|].
  split; [done|].
  rewrite consumed_consumed, length_app. do 2 f_equal. lia.
Qed.

Lemma loop_outcome_shift (whole part whole' part' : list byte -> Prop)
    w (Q X : list byte) fl w' :
  io_rest (w_io w) = Q ++ X ->
  (forall P, whole P -> whole' (Q ++ P)) ->
  (forall P, part P -> part' (Q ++ P)) ->
  loop_outcome whole part (consumed (length Q) w) fl w' ->
  loop_outcome whole' part' w fl w'.
Proof.
  intros Hrest Hwhole Hpart
    [(P & l' & HP & -> & Hl' & Hfall) | [[-> Herr] | (P & HP & -> & Hbad)]].
  - left. exists (Q ++ P), l'.
    split; [auto|]. split; [done|]. split; [done|].
    by apply (falls_out_shift w Q X).
  - right; left. done.
  - right; right. exists (Q ++ P). split; [auto|]. split; [done|].
    by apply (corrupt_at_shift w Q X).
Qed.

(** A loop that leaves the function inside an item of the loop around
    it. *)
Lemma loop_outcome_inside (whole part whole' part' : list byte -> Prop)
    w (Q X : list byte) fl w' :
  io_rest (w_io w) = Q ++ X ->
  (forall P, part P -> part' (Q ++ P)) ->
  fl = Return 0 /\ w_err w' = w_err (consumed (length Q) w)
  \/ (exists P, part P /\ fl = Return 0
                /\ corrupt_at (consumed (length Q) w) P w') ->
  fl = Return 0 /\ loop_outcome whole' part' w fl w'.
Proof.
  intros Hrest Hpart [[-> Herr] | (P & HP & -> & Hbad)].
  - split; [done|]. right; left. done.
  - split; [done|]. right; right. exists (Q ++ P). split; [auto|].
    split; [done|]. by apply (corrupt_at_shift w Q X).
Qed.

Section TreeWalkOutcome.
Context `{Host}.
Import TreeWalk.

Lemma name_while_inv : forall fuel l w,
  buffers_ok l -> (bytes_left w < fuel)%nat ->
  exists fl w',
    name_while fuel l w = Some (fl, w')
    /\ loop_outcome whole_files whole_files w fl w'.
Proof.
  induction fuel as [|fuel IH]; intros l w Hl Hfuel; [lia|].
  pose proof Hl as (He & Hd & Hn).
  destruct (read_string_cases (name l) w Hn)
    as [(dest' & k & Hread) | [(R & Hrest) | (s & R & Hrest & Hs)]].
  - eexists _, _. split.
    + cbn [name_while]. rewrite (bind_Next _ _ _ _ _ Hread). reflexivity.
    + right; left. done.
  - eexists _, _. split.
    + cbn [name_while].
      rewrite (bind_Next _ _ _ _ _ (read_sentinel R (name l) w Hrest Hn)).
      reflexivity.
    + left. exists [], (set_name (stored_at 0 [x00] (name l)) l).
      split; [by exists []|]. split; [done|].
      split; [apply buffers_ok_set_name; [done|simpl; lia]|].
      by exists R.
  - destruct (decide (18 <= length R)%nat) as [H18|H18]; cycle 1.
    { destruct (truncated_record_returns w s R Hrest Hs ltac:(lia)
                  (S fuel) l Hl Hfuel) as (w' & Hrun & ->).
      exists (Return 0), (consumed (bytes_left w) w). split; [exact Hrun|].
      right; left. done. }
    destruct (record_split R H18)
      as (crc & pre & ar & off & sz & t0 & t1 & X & -> & Hc & Hp & Ha & Ho & Hz).
    pose proof Hs as (Hne & Hnz & Hlen).
    assert (1 <= bytes_left w)%nat as Hbl
      by (unfold bytes_left; rewrite Hrest, length_app; simpl; lia).
    pose proof (name_while_record fuel l w s crc pre ar off sz X t0 t1 Hrest
                  Hne Hnz Hlen ltac:(lia) Hc Hp Ha Ho Hz) as Hstep.
    destruct (decide (t0 = xff /\ t1 = xff)) as [[-> ->]|Hbad].
    + set (f := mk_tree_file s crc pre ar off sz).
      assert (good_file f) as Hf by done.
      assert (io_rest (w_io w) = enc_file f ++ X) as Hrest'.
      { rewrite Hrest. unfold enc_file, f. simpl.
        rewrite <- !app_assoc. simpl. by rewrite <- !app_assoc. }
      destruct (IH (locals_after_record l s crc pre ar off sz [xff; xff])
                  (consumed (length s + 19) w))
        as (fl & w' & Hrun & Hout).
      { by apply buffers_ok_after_record. }
      { rewrite bytes_left_consumed. lia. }
      exists fl, w'. split; [by rewrite Hstep|].
      apply (loop_outcome_shift whole_files whole_files _ _ w (enc_file f) X);
        [exact Hrest'| | |by rewrite length_enc_file].
      * intros P (fs & Hfs & ->). exists (f :: fs). split; [by constructor|done].
      * intros P (fs & Hfs & ->). exists (f :: fs). split; [by constructor|done].
    + eexists _, _. split; [exact Hstep|].
      right; right. exists []. split; [by exists []|]. split; [done|].
      eexists _, (length s + 19)%nat. split; [exact Hrest|]. split; [|done].
      exists s, crc, pre, ar, off, sz, t0, t1, X. done.
Qed.

Lemma dir_while_inv : forall fuel l w,
  buffers_ok l -> (bytes_left w < fuel)%nat ->
  exists fl w',
    dir_while fuel l w = Some (fl, w')
    /\ loop_outcome whole_dirs part_dirs w fl w'.
Proof.
  induction fuel as [|fuel IH]; intros l w Hl Hfuel; [lia|].
  pose proof Hl as (He & Hd & Hn).
  destruct (read_string_cases (dir l) w Hd)
    as [(dest' & k & Hread) | [(R & Hrest) | (d & R & Hrest & Hs)]].
  - eexists _, _. split.
    + cbn [dir_while]. rewrite (bind_Next _ _ _ _ _ Hread). reflexivity.
    + right; left. done.
  - eexists _, _. split.
    + cbn [dir_while].
      rewrite (bind_Next _ _ _ _ _ (read_sentinel R (dir l) w Hrest Hd)).
      reflexivity.
    + left. exists [], (set_dir (stored_at 0 [x00] (dir l)) l).
      split; [by exists []|]. split; [done|].
      split; [apply buffers_ok_set_dir; [done|simpl; lia]|].
      by exists R.
  - destruct (read_segment d R (dir l) w Hrest Hs Hd) as [Hread Hhd].
    assert (io_rest (w_io w) = (d ++ [x00]) ++ R) as Hrest1
      by (by rewrite <- app_assoc).
    assert (length (d ++ [x00]) = S (length d)) as Hlen1
      by (rewrite length_app; simpl; lia).
    assert (1 <= bytes_left w)%nat as Hbl
      by (unfold bytes_left; rewrite Hrest, length_app; simpl; lia).
    assert (dir_while (S fuel) l w
            = bind (name_while fuel
                      (set_dir (stored_at 0 (d ++ [x00]) (dir l)) l))
                   (fun l => dir_while fuel l)
                   (consumed (length (d ++ [x00])) w)) as Hstep.
    { cbn [dir_while]. rewrite (bind_Next _ _ _ _ _ Hread).
      unfold bind at 1. unfold BAIL_IF_ERRPASS at 1. cbn [Z.eqb dir set_dir].
      by rewrite Hhd, Hlen1. }
    destruct (name_while_inv fuel
                (set_dir (stored_at 0 (d ++ [x00]) (dir l)) l)
                (consumed (length (d ++ [x00])) w))
      as (fl1 & w1 & Hrun1 & Hout1).
    { apply buffers_ok_set_dir; [done|by apply length_segment_nul]. }
    { rewrite bytes_left_consumed. lia. }
    destruct Hout1 as [(P & l' & (fs & Hfs & ->) & -> & Hl' & Hfall) | Hret].
    + pose proof Hfall as (R' & HR' & ->).
      rewrite Hstep, (bind_Next _ _ _ _ _ Hrun1).
      set (D := mk_tree_dir d fs).
      assert (io_rest (w_io w) = enc_dir D ++ R') as Hrest2.
      { rewrite Hrest1.
        rewrite (io_rest_consumed_app _ R _ w Hrest1 eq_refl) in HR'.
        rewrite HR'. unfold enc_dir, D. simpl.
        rewrite <- !app_assoc. simpl. by rewrite <- !app_assoc. }
      assert (consumed (length (enc_files fs) + 1)
                (consumed (length (d ++ [x00])) w)
              = consumed (length (enc_dir D)) w) as Hpos.
      { rewrite consumed_consumed. f_equal. unfold enc_dir, D. simpl.
        rewrite !length_app. simpl. rewrite length_app. simpl. lia. }
      rewrite Hpos.
      destruct (IH l' (consumed (length (enc_dir D)) w))
        as (fl & w' & Hrun & Hout).
      { done. }
      { rewrite bytes_left_consumed. unfold enc_dir, D. simpl.
        rewrite length_app. simpl. lia. }
      exists fl, w'. split; [exact Hrun|].
      apply (loop_outcome_shift whole_dirs part_dirs _ _ w (enc_dir D) R');
        [exact Hrest2| | |exact Hout].
      * intros P (ds & Hds & ->). exists (D :: ds).
        split; [by constructor|done].
      * intros P (ds & d' & fs' & Hds & Hd' & Hfs' & ->).
        exists (D :: ds), d', fs'. split; [by constructor|].
        split; [done|]. split; [done|].
        unfold enc_dirs. simpl. by rewrite <- app_assoc.
    + destruct (loop_outcome_inside whole_dirs whole_files whole_dirs part_dirs
                  w (d ++ [x00]) R fl1 w1 Hrest1) as [-> Hout]; [|exact Hret|].
      { intros P (fs & Hfs & ->). exists [], d, fs.
        split; [done|]. split; [done|]. split; [done|].
        simpl. by rewrite <- app_assoc. }
      exists (Return 0), w1. split; [|exact Hout].
      by rewrite Hstep, (bind_Return _ _ _ _ _ Hrun1).
Qed.

Lemma ext_while_inv : forall fuel l w,
  buffers_ok l -> (bytes_left w < fuel)%nat ->
  exists fl w',
    ext_while fuel l w = Some (fl, w')
    /\ loop_outcome whole_exts part_exts w fl w'.
Proof.
  induction fuel as [|fuel IH]; intros l w Hl Hfuel; [lia|].
  pose proof Hl as (He & Hd & Hn).
  destruct (read_string_cases (ext l) w He)
    as [(dest' & k & Hread) | [(R & Hrest) | (e & R & Hrest & Hs)]].
  - eexists _, _. split.
    + cbn [ext_while]. rewrite (bind_Next _ _ _ _ _ Hread). reflexivity.
    + right; left. done.
  - eexists _, _. split.
    + cbn [ext_while].
      rewrite (bind_Next _ _ _ _ _ (read_sentinel R (ext l) w Hrest He)).
      reflexivity.
    + left. exists [], (set_ext (stored_at 0 [x00] (ext l)) l).
      split; [by exists []|]. split; [done|].
      split; [apply buffers_ok_set_ext; [done|simpl; lia]|].
      by exists R.
  - destruct (read_segment e R (ext l) w Hrest Hs He) as [Hread Hhd].
    assert (io_rest (w_io w) = (e ++ [x00]) ++ R) as Hrest1
      by (by rewrite <- app_assoc).
    assert (length (e ++ [x00]) = S (length e)) as Hlen1
      by (rewrite length_app; simpl; lia).
    assert (1 <= bytes_left w)%nat as Hbl
      by (unfold bytes_left; rewrite Hrest, length_app; simpl; lia).
    assert (ext_while (S fuel) l w
            = bind (dir_while fuel
                      (set_ext (stored_at 0 (e ++ [x00]) (ext l)) l))
                   (fun l => ext_while fuel l)
                   (consumed (length (e ++ [x00])) w)) as Hstep.
    { cbn [ext_while]. rewrite (bind_Next _ _ _ _ _ Hread).
      unfold bind at 1. unfold BAIL_IF_ERRPASS at 1. cbn [Z.eqb ext set_ext].
      by rewrite Hhd, Hlen1. }
    destruct (dir_while_inv fuel
                (set_ext (stored_at 0 (e ++ [x00]) (ext l)) l)
                (consumed (length (e ++ [x00])) w))
      as (fl1 & w1 & Hrun1 & Hout1).
    { apply buffers_ok_set_ext; [done|by apply length_segment_nul]. }
    { rewrite bytes_left_consumed. lia. }
    destruct Hout1 as [(P & l' & (ds & Hds & ->) & -> & Hl' & Hfall) | Hret].
    + pose proof Hfall as (R' & HR' & ->).
      rewrite Hstep, (bind_Next _ _ _ _ _ Hrun1).
      set (E := mk_tree_ext e ds).
      assert (io_rest (w_io w) = enc_ext E ++ R') as Hrest2.
      { rewrite Hrest1.
        rewrite (io_rest_consumed_app _ R _ w Hrest1 eq_refl) in HR'.
        rewrite HR'. unfold enc_ext, E. simpl.
        rewrite <- !app_assoc. simpl. by rewrite <- !app_assoc. }
      assert (consumed (length (enc_dirs ds) + 1)
                (consumed (length (e ++ [x00])) w)
              = consumed (length (enc_ext E)) w) as Hpos.
      { rewrite consumed_consumed. f_equal. unfold enc_ext, E. simpl.
        rewrite !length_app. simpl. rewrite length_app. simpl. lia. }
      rewrite Hpos.
      destruct (IH l' (consumed (length (enc_ext E)) w))
        as (fl & w' & Hrun & Hout).
      { done. }
      { rewrite bytes_left_consumed. unfold enc_ext, E. simpl.
        rewrite length_app. simpl. lia. }
      exists fl, w'. split; [exact Hrun|].
      apply (loop_outcome_shift whole_exts part_exts _ _ w (enc_ext E) R');
        [exact Hrest2| | |exact Hout].
      * intros P (es & Hes & ->). exists (E :: es).
        split; [by constructor|done].
      * intros P (es & e' & ds' & d' & fs' & Hgood & ->).
        destruct Hgood as (Hes & He' & Hds' & Hd' & Hfs').
        exists (E :: es), e', ds', d', fs'. split.
        -- split; [by constructor|done].
        -- unfold walked_prefix, enc_exts. simpl. by rewrite <- app_assoc.
    + destruct (loop_outcome_inside whole_exts part_dirs whole_exts part_exts
                  w (e ++ [x00]) R fl1 w1 Hrest1) as [-> Hout]; [|exact Hret|].
      { intros P (ds & d & fs & Hds & Hd' & Hfs & ->). exists [], e, ds, d, fs.
        split; [done|]. unfold walked_prefix. simpl. by rewrite <- app_assoc. }
      exists (Return 0), w1. split; [|exact Hout].
      by rewrite Hstep, (bind_Return _ _ _ _ _ Hrun1).
Qed.
End TreeWalkOutcome.

(** X5: what the tree-walking [vpkLoadEntries] makes of a stream.  Every
    call returns, in one of three ways: with 1, the stream beginning with
    a well-formed tree, the cursor right behind the tree and nothing else
    changed; with 0 and the error code as it was; or with 0, "corrupt"
    set and the cursor right behind a whole 18-byte record whose
    terminator is not 0xFFFF, which follows a file name inside a
    directory after a well-formed part of the tree. *)
Theorem tree_walk_outcomes `{Host} (count : Z) (arc : nat) (w : world) :
  exists rc w',
    TreeWalk.vpkLoadEntries count arc w = Some (rc, w')
    /\ (rc = 1
        /\ (exists es R,
              Forall good_ext es
              /\ io_rest (w_io w) = enc_tree es ++ R
              /\ w' = consumed (length (enc_tree es)) w)
        \/ rc = 0 /\ w_err w' = w_err w
        \/ rc = 0
           /\ (exists es e ds d fs B n,
                 good_prefix AtName es e ds d fs
                 /\ io_rest (w_io w) = walked_prefix AtName es e ds d fs ++ B
                 /\ bad_record B n
                 /\ w' = set_err PHYSFS_ERR_CORRUPT
                           (consumed (length (walked_prefix AtName es e ds d fs)
                                      + n) w))).
Proof.
  destruct (ext_while_inv (S (bytes_left w)) TreeWalk.locals0 w
              TreeWalk_buffers_ok_locals0 ltac:(lia))
    as (fl & w' & Hrun & Hout).
  unfold TreeWalk.vpkLoadEntries, func. fold (bytes_left w).
  unfold bind at 1. rewrite Hrun.
  destruct Hout
    as [(P & l' & (es & Hes & ->) & -> & _ & R & Hrest & ->)
       |[[-> Herr] | (P & (es & e & ds & d & fs & Hgood & ->) & -> & Hbad)]].
  - exists 1, (consumed (length (enc_exts es) + 1) w). split; [done|]. left.
    split; [done|]. exists es, R. split; [done|]. unfold enc_tree.
    split; [by rewrite <- app_assoc|]. by rewrite length_app.
  - exists 0, w'. split; [done|]. right; left. done.
  - exists 0, w'. split; [done|]. right; right. split; [done|].
    destruct Hbad as (B & n & Hrest & HB & ->).
    by exists es, e, ds, d, fs, B, n.
Qed.

(** ** A directory offset beyond the stream *)

(** X17: when the header passes its checks and the directory offset lies
    beyond the end of the stream, so that the seek is refused,
    [VPK_openArchive] returns [NULL] with [*claimed] set, the cursor behind
    the header, no archive created and no error code set by this file. *)
Theorem offset_past_end_fails `{Host} (def : LoadEntries) (name : list byte)
    (w : world) (m v o c rest : list byte) :
  io_rest (w_io w) = m ++ v ++ o ++ c ++ rest ->
  length m = 4%nat -> length v = 4%nat ->
  length o = 4%nat -> length c = 4%nat ->
  le_Z m = VPK_SIG -> le_Z v = 1 \/ le_Z v = 2 ->
  le_Z c mod 64 = 0 ->
  Z.of_nat (length (io_data (w_io w))) < le_Z o ->
  VPK_openArchive def name 0 w = Some (NULL, set_claimed 1 (consumed 16 w)).
Proof. apply open_seek_refused. Qed.

Lemma offset_past_end_fails_witness :
  let w := fresh_world ([x34; x12; xaa; x55] ++ [x02; x00; x00; x00]
                        ++ [x00; x01; x00; x00] ++ [x40; x00; x00; x00]
                        ++ [x00]) in
  io_rest (w_io w)
  = [x34; x12; xaa; x55] ++ [x02; x00; x00; x00] ++ [x00; x01; x00; x00]
    ++ [x40; x00; x00; x00] ++ [x00]
  /\ (le_Z [x02; x00; x00; x00] = 1 \/ le_Z [x02; x00; x00; x00] = 2)
  /\ le_Z [x40; x00; x00; x00] mod 64 = 0
  /\ Z.of_nat (length (io_data (w_io w))) < le_Z [x00; x01; x00; x00]
  /\ VPK_openArchive (H:=big_endian_host) (UseFlatRecord six_behind)
                     (bytes "pak01_dir.vpk") 0 w
     = Some (NULL, set_claimed 1 (consumed 16 w)).
Proof.
  intros w.
  assert (le_Z [x02; x00; x00; x00] = 1 \/ le_Z [x02; x00; x00; x00] = 2) as Hver
    by (right; reflexivity).
  assert (Z.of_nat (length (io_data (w_io w))) < le_Z [x00; x01; x00; x00])
    as Hpast by (vm_compute; reflexivity).
  split; [reflexivity|]. split; [exact Hver|]. split; [reflexivity|].
  split; [exact Hpast|].
  apply (offset_past_end_fails (H:=big_endian_host) (UseFlatRecord six_behind)
           (bytes "pak01_dir.vpk") w
           [x34; x12; xaa; x55] [x02; x00; x00; x00] [x00; x01; x00; x00]
           [x40; x00; x00; x00] [x00]);
    [reflexivity|reflexivity|reflexivity|reflexivity|reflexivity|reflexivity
    |exact Hver|reflexivity|exact Hpast].
Defined.
